(** * Lead scraper: the domain-processing pipeline

    A shallow embedding of the email validation / merge / ranking code
    (extractEmails.js), the relevance scorer (scoreRelevance.js), the page
    fetch retry loop (crawlDomain.js) and the streaming scheduler
    (runExtract.js), with the properties the design document states about
    them.

    Conventions.
    - JavaScript strings are modelled as [string] (sequences of bytes, the
      UTF-8 form of the text).  [Js.toLowerCase] and [Js.trim] act on the
      ASCII range and carry other bytes unchanged; they are used on email
      addresses and host names.  The relevance scorer lower-cases whole
      pages: there [String.prototype.toLowerCase] is an argument of the
      model, of which nothing is assumed.
    - Confidences are JavaScript numbers in [0,1]; only comparisons are
      performed on them, so they are modelled as rationals [Q] and
      [Math.max] returns one of its two arguments.
    - A JavaScript [Map] is an association list in insertion order; the
      [Set] of processed domains, of which only membership is observed, is a
      [gset string]. *)

From Stdlib Require Import ZArith QArith List String Ascii Bool Lia Permutation Sorted.
From stdpp Require Import gmap strings.
Import ListNotations.
Open Scope string_scope.
Open Scope Z_scope.

(** ** JavaScript string primitives *)

Module Js.

Definition is_upper (c : ascii) : bool :=
  let n := nat_of_ascii c in (65 <=? n)%nat && (n <=? 90)%nat.

Definition is_lower (c : ascii) : bool :=
  let n := nat_of_ascii c in (97 <=? n)%nat && (n <=? 122)%nat.

Definition is_digit (c : ascii) : bool :=
  let n := nat_of_ascii c in (48 <=? n)%nat && (n <=? 57)%nat.

(** [[a-z]] under the [i] flag. *)
Definition is_letter (c : ascii) : bool := is_upper c || is_lower c.

(** [[0-9a-f]] under the [i] flag. *)
Definition is_hex (c : ascii) : bool :=
  let n := nat_of_ascii c in
  is_digit c || ((97 <=? n)%nat && (n <=? 102)%nat) || ((65 <=? n)%nat && (n <=? 70)%nat).

(** White space removed by [String.prototype.trim] (ASCII range). *)
Definition is_space (c : ascii) : bool :=
  let n := nat_of_ascii c in ((9 <=? n)%nat && (n <=? 13)%nat) || (n =? 32)%nat.

Definition lower_char (c : ascii) : ascii :=
  if is_upper c then ascii_of_nat (nat_of_ascii c + 32) else c.

Fixpoint toLowerCase (s : string) : string :=
  match s with
  | EmptyString => EmptyString
  | String c s' => String (lower_char c) (toLowerCase s')
  end.

Fixpoint trimStart (s : string) : string :=
  match s with
  | EmptyString => EmptyString
  | String c s' => if is_space c then trimStart s' else s
  end.

Fixpoint all_space (s : string) : bool :=
  match s with
  | EmptyString => true
  | String c s' => is_space c && all_space s'
  end.

Fixpoint trimEnd (s : string) : string :=
  match s with
  | EmptyString => EmptyString
  | String c s' => if all_space s then EmptyString else String c (trimEnd s')
  end.

Definition trim (s : string) : string := trimEnd (trimStart s).

(** [s.startsWith(p)] *)
Fixpoint startsWith (s p : string) : bool :=
  match p with
  | EmptyString => true
  | String b p' =>
      match s with
      | EmptyString => false
      | String a s' => Ascii.eqb a b && startsWith s' p'
      end
  end.

(** [s.includes(t)] *)
Fixpoint includes (s t : string) : bool :=
  startsWith s t ||
  match s with
  | EmptyString => false
  | String _ s' => includes s' t
  end.

(** [s.endsWith(t)] *)
Fixpoint endsWith (s t : string) : bool :=
  String.eqb s t ||
  match s with
  | EmptyString => false
  | String _ s' => endsWith s' t
  end.

(** [s.split(sep)] for a one-character separator: never the empty list. *)
Fixpoint split (sep : ascii) (s : string) : list string :=
  match s with
  | EmptyString => [EmptyString]
  | String c s' =>
      if Ascii.eqb c sep then EmptyString :: split sep s'
      else match split sep s' with
           | x :: xs => String c x :: xs
           | [] => [String c EmptyString]
           end
  end.

Fixpoint forall_chars (p : ascii -> bool) (s : string) : bool :=
  match s with
  | EmptyString => true
  | String c s' => p c && forall_chars p s'
  end.

(** Number of leading characters satisfying [p], and what follows them. *)
Fixpoint span_count (p : ascii -> bool) (s : string) : nat * string :=
  match s with
  | EmptyString => (0%nat, s)
  | String c s' =>
      if p c then let '(n, r) := span_count p s' in (S n, r) else (0%nat, s)
  end.

(** [arr.indexOf(x)] and [arr.findIndex(p)], with [None] for [-1]. *)
Fixpoint findIndex {A} (p : A -> bool) (l : list A) : option nat :=
  match l with
  | [] => None
  | x :: l' => if p x then Some 0%nat else option_map S (findIndex p l')
  end.

Definition indexOf (l : list string) (x : string) : option nat :=
  findIndex (String.eqb x) l.

(** [arr.includes(x)] on an array of strings. *)
Definition arr_includes (l : list string) (x : string) : bool :=
  existsb (String.eqb x) l.

(** [arr.slice(0, n)]: a negative [n] counts from the end of the array. *)
Definition slice0 {A} (l : list A) (n : Z) : list A :=
  if n <? 0 then firstn (Z.to_nat (Z.of_nat (List.length l) + n)) l
  else firstn (Z.to_nat n) l.

Definition no_leading_space (s : string) : Prop :=
  match s with
  | EmptyString => True
  | String c _ => is_space c = false
  end.

End Js.

(** ** Email validation (extractEmails.js) *)

Module Email.
Import Js.

Definition GENERIC_PREFIXES : list string :=
  ["info"; "contact"; "sales"; "office"; "hello"; "support";
   "enquiry"; "enquiries"; "bookings"; "booking"; "reservations"; "reservation"].

Definition JUNK_PREFIXES : list string :=
  ["privacy"; "dpo"; "compliance"; "legal"; "abuse";
   "noreply"; "no-reply"; "do-not-reply"; "donotreply";
   "postmaster"; "mailer-daemon"; "webmaster"; "hostmaster"; "root"; "admin"].

Definition JUNK_DOMAINS : list string :=
  ["sentry.io"; "inforegulator.org.za"; "example.com"; "company.com";
   "siteadresiniz.com"; "yourdomain.com"; "domain.com"; "email.com";
   "test.com"; "localhost"; "ftc.gov"; "adr.org"; "hs01.kep.tr";
   "ustoa.com"; "abta.co.uk"; "caa.co.uk"; "sedgwick.com";
   "verasafe.com"; "iyzico.com"; "dvm.legal"].

Definition MAX_TLD_LEN : nat := 12.

Definition COMMON_TLD_PREFIXES : list string :=
  ["com"; "net"; "org"; "co"; "travel"; "tours"; "info"].

(** The alternation of the second-level pattern
    [/^(com|net|org|co|travel|tours)\.[a-z]{1,4}$/i]. *)
Definition SECOND_LEVEL_LABELS : list string :=
  ["com"; "net"; "org"; "co"; "travel"; "tours"].

Definition realCcTlds : list string :=
  ["tr"; "uk"; "au"; "br"; "cn"; "de"; "fr"; "jp"; "kr"; "nl"; "ru"; "za";
   "in"; "my"; "sg"; "nz"; "mx"; "ar"; "il"; "be"; "at"; "ch"; "cz"; "dk";
   "es"; "fi"; "gr"; "hu"; "ie"; "it"; "no"; "pl"; "pt"; "ro"; "se"; "ua"].

Definition normalizeEmail (email : string) : string := trim (toLowerCase email).

(** [email.split('@')[0] || ''] *)
Definition localPart (email : string) : string :=
  match split "@" email with
  | l :: _ => l
  | [] => EmptyString
  end.

(** [/^\d+[a-z]/i.test(local)] *)
Definition re_digits_then_letter (local : string) : bool :=
  match span_count is_digit local with
  | (S _, String c _) => is_letter c
  | _ => false
  end.

(** [/^u[0-9a-f]{4}/i.test(local)] *)
Definition re_entity_prefix (local : string) : bool :=
  match local with
  | String u (String a (String b (String c (String d _)))) =>
      Ascii.eqb (lower_char u) "u" && is_hex a && is_hex b && is_hex c && is_hex d
  | _ => false
  end.

(** [/^[._%+-]/.test(local)] *)
Definition re_special_start (local : string) : bool :=
  match local with
  | String c _ => existsb (Ascii.eqb c) ["."; "_"; "%"; "+"; "-"]%char
  | EmptyString => false
  end.

(** A match of [\d{2,}[-.]?\d{2,}] anchored at the head of [s]: a run of at
    least four digits, or a run of at least two digits, one of [-] [.], and
    two more digits. *)
Definition phone_here (s : string) : bool :=
  match span_count is_digit s with
  | (n, r) =>
      (4 <=? n)%nat ||
      ((2 <=? n)%nat &&
       match r with
       | String sep (String a (String b _)) =>
           (Ascii.eqb sep "-" || Ascii.eqb sep ".") && is_digit a && is_digit b
       | _ => false
       end)
  end.

(** [/\+?\d{2,}[-.]?\d{2,}/.test(local)]: the optional [+] does not change
    whether some position matches. *)
Fixpoint re_phone_like (local : string) : bool :=
  phone_here local ||
  match local with
  | EmptyString => false
  | String _ s' => re_phone_like s'
  end.

(** [/^[a-z]+$/i.test(tld)] *)
Definition re_letters_only (tld : string) : bool :=
  negb (String.eqb tld EmptyString) && forall_chars is_letter tld.

(** What is left of [s] after the literal [p], compared without case. *)
Fixpoint strip_prefix_ci (p s : string) : option string :=
  match p with
  | EmptyString => Some s
  | String b p' =>
      match s with
      | EmptyString => None
      | String a s' =>
          if Ascii.eqb (lower_char a) b then strip_prefix_ci p' s' else None
      end
  end.

(** [[a-z]{1,4}$] under the [i] flag, on what is left of the input. *)
Definition re_short_letters (rest : string) : bool :=
  (1 <=? String.length rest)%nat && (String.length rest <=? 4)%nat
  && forall_chars is_letter rest.

(** [/^(com|net|org|co|travel|tours)\.[a-z]{1,4}$/i.test(combined)] *)
Definition re_second_level (combined : string) : bool :=
  existsb (fun p =>
    match strip_prefix_ci (p ++ ".") combined with
    | Some rest => re_short_letters rest
    | None => false
    end) SECOND_LEVEL_LABELS.

(** The check on a TLD of more than six characters: a common TLD with text
    run onto it. *)
Definition tldHasTrailingText (tld : string) : bool :=
  (6 <? String.length tld)%nat &&
  existsb (fun prefix =>
             startsWith tld prefix && (String.length prefix <? String.length tld)%nat)
          COMMON_TLD_PREFIXES.

(** The check on the last two labels: a second-level label followed by a
    short label that is no country code. *)
Definition secondLevelJunk (parts : list string) : bool :=
  let tld := List.last parts EmptyString in
  (2 <=? List.length parts)%nat &&
  (let secondLast := nth (List.length parts - 2) parts EmptyString in
   let combined := secondLast ++ "." ++ tld in
   re_second_level combined && (String.length tld <=? 4)%nat
   && negb (arr_includes realCcTlds (toLowerCase tld))).

Definition isJunkDomain (domain : string) : bool :=
  existsb (fun jd => String.eqb domain jd || endsWith domain ("." ++ jd)) JUNK_DOMAINS.

Definition isValidEmail (email : string) : bool :=
  match split "@" email with
  | local :: domain :: _ =>
      if String.eqb local EmptyString || String.eqb domain EmptyString then false
      else if re_digits_then_letter local then false
      else if re_entity_prefix local then false
      else if re_special_start local then false
      else if re_phone_like local then false
      else if negb (includes domain ".") then false
      else
        let parts := split "." domain in
        let tld := List.last parts EmptyString in
        if String.eqb tld EmptyString || (String.length tld <? 2)%nat
           || (MAX_TLD_LEN <? String.length tld)%nat then false
        else if negb (re_letters_only tld) then false
        else if tldHasTrailingText tld then false
        else if secondLevelJunk parts then false
        else if isJunkDomain domain then false
        else if (253 <? String.length domain)%nat then false
        else true
  | _ => false
  end.

Definition hasPrefixOf (prefixes : list string) (email : string) : bool :=
  let local := localPart email in
  existsb (fun p => String.eqb local p || startsWith local (p ++ ".")
                    || startsWith local (p ++ "-")) prefixes.

Definition isJunkPrefix (email : string) : bool := hasPrefixOf JUNK_PREFIXES email.

Definition isGeneric (email : string) : bool := hasPrefixOf GENERIC_PREFIXES email.

(** *** Candidates *)

Inductive EmailType := generic | personal | unknown.
Inductive Extractor := regex | ai | both.

Record Candidate := mkCandidate {
  email : string;
  source_url : string;
  email_type : EmailType;
  confidence : Q;
  extracted_by : Extractor
}.

Definition EmailType_eqb (a b : EmailType) : bool :=
  match a, b with
  | generic, generic | personal, personal | unknown, unknown => true
  | _, _ => false
  end.

(** [Math.max] on two numbers, neither of them NaN. *)
Definition Math_max (a b : Q) : Q := if Qle_bool a b then b else a.

(** *** Pattern extraction

    [extractEmailsRegex(html, sourceUrl)] collects addresses with cheerio
    and [EMAIL_REGEX] and hands every one of them to the local closure
    [push].  The scan of the markup is the input here: [mailto] holds the
    addresses of the [mailto:] links in document order, [matches] the
    matches of [EMAIL_REGEX] in the sanitized visible text. *)

Record RegexState := mkRegexState {
  seen : gset string;
  out : list Candidate
}.

Definition push (sourceUrl : string) (st : RegexState) (raw : string) : RegexState :=
  let norm := normalizeEmail raw in
  if String.eqb norm EmptyString || negb (includes norm "@")
     || bool_decide (norm ∈ seen st) then st
  else if negb (isValidEmail norm) then st
  else if isJunkPrefix norm then st
  else {| seen := {[ norm ]} ∪ seen st;
          out := (out st ++ [ {| email := norm;
                                source_url := sourceUrl;
                                email_type := if isGeneric norm then generic else personal;
                                confidence := 0.9;
                                extracted_by := regex |} ])%list |}.

Definition extractEmailsRegex (mailto matches : list string) (sourceUrl : string)
  : list Candidate :=
  let st0 := {| seen := ∅; out := [] |} in
  let st1 := fold_left (push sourceUrl) mailto st0 in
  let st2 := fold_left (push sourceUrl) matches st1 in
  out st2.

(** *** External extraction (openRouterExtract.js)

    One entry of the [emails] array of the model's reply, after
    [JSON.parse]: [llm_confidence] is [Number(e.confidence)], with [None]
    for NaN; a missing [email] or [type] is the empty string. *)

Record LlmEmail := mkLlmEmail {
  llm_email : string;
  llm_type : string;
  llm_confidence : option Q
}.

Definition llmType (t : string) : EmailType :=
  let type := toLowerCase (if String.eqb t EmptyString then "unknown" else t) in
  if String.eqb type "generic" then generic
  else if String.eqb type "personal" then personal
  else unknown.

Definition llmConfidence (c : option Q) : Q :=
  match c with
  | None => 0
  | Some q => if Qlt_le_dec q 0 then 0 else if Qlt_le_dec 1 q then 1 else q
  end.

(** The loop over [parsed.emails] in [extractEmailsWithLLM]. *)
Fixpoint llmCandidates (emails : list LlmEmail) (sourceUrl : string) : list Candidate :=
  match emails with
  | [] => []
  | e :: rest =>
      let em := trim (toLowerCase (llm_email e)) in
      if String.eqb em EmptyString || negb (includes em "@")
      then llmCandidates rest sourceUrl
      else {| email := em;
              source_url := sourceUrl;
              email_type := llmType (llm_type e);
              confidence := llmConfidence (llm_confidence e);
              extracted_by := ai |} :: llmCandidates rest sourceUrl
  end.

(** *** Merge

    [byEmail] is a [Map] from address to candidate.  [set] on a key that is
    present replaces the value where it stands; a new key goes to the end. *)

Definition EmailMap := list (string * Candidate).

Fixpoint map_get (m : EmailMap) (k : string) : option Candidate :=
  match m with
  | [] => None
  | (k', v) :: m' => if String.eqb k' k then Some v else map_get m' k
  end.

Fixpoint map_set (m : EmailMap) (k : string) (v : Candidate) : EmailMap :=
  match m with
  | [] => [(k, v)]
  | (k', v') :: m' =>
      if String.eqb k' k then (k', v) :: m' else (k', v') :: map_set m' k v
  end.

Definition map_values (m : EmailMap) : list Candidate := List.map snd m.

(** The body of the branch [if (existing)]: three assignments to the object
    held by the map. *)
Definition corroborate (existing a : Candidate) : Candidate :=
  {| email := email existing;
     source_url := source_url existing;
     email_type := if EmailType_eqb (email_type a) unknown
                   then email_type existing else email_type a;
     confidence := Math_max (confidence existing) (confidence a);
     extracted_by := both |}.

(** One turn of the loop [for (const a of aiList)]. *)
Definition mergeAi (byEmail : EmailMap) (a : Candidate) : EmailMap :=
  if negb (isValidEmail (email a)) || isJunkPrefix (email a) then byEmail
  else match map_get byEmail (email a) with
       | Some existing => map_set byEmail (email a) (corroborate existing a)
       | None => map_set byEmail (email a) a
       end.

Definition mergeEmailResults (aiList regexList : list Candidate) : list Candidate :=
  let byEmail := fold_left (fun m r => map_set m (email r) r) regexList [] in
  map_values (fold_left mergeAi aiList byEmail).

(** *** Vocabulary for the statements about the merge *)

(** The address passes the two filters applied to every source. *)
Definition accepted (e : string) : bool := isValidEmail e && negb (isJunkPrefix e).

(** A normalized address that passes the two filters. *)
Definition clean (e : string) : Prop :=
  normalizeEmail e = e /\ isValidEmail e = true /\ isJunkPrefix e = false.

(** The last record of [l] for the address [e]. *)
Definition lastFor (e : string) (l : list Candidate) : option Candidate :=
  fold_left (fun o r => if String.eqb (email r) e then Some r else o) l None.

(** The records of [l] for the address [e] that pass the two filters. *)
Definition acceptedFor (e : string) (l : list Candidate) : list Candidate :=
  List.filter (fun a => accepted (email a) && String.eqb (email a) e) l.

(** The records of [l] for the address [e]. *)
Definition recordsFor (e : string) (l : list Candidate) : list Candidate :=
  List.filter (fun a => String.eqb (email a) e) l.

(** What one accepted external record does to the entry of its address. *)
Definition absorb (o : option Candidate) (a : Candidate) : option Candidate :=
  match o with
  | Some existing => Some (corroborate existing a)
  | None => Some a
  end.

(** [if (a.email_type !== 'unknown') existing.email_type = a.email_type] *)
Definition overrideType (t : EmailType) (a : Candidate) : EmailType :=
  if EmailType_eqb (email_type a) unknown then t else email_type a.

(** Keys are distinct and every value is filed under its own address. *)
Definition wf_map (m : EmailMap) : Prop :=
  List.NoDup (List.map fst m) /\ Forall (fun kv => email (snd kv) = fst kv) m.

(** *** Ranking *)

Definition priorityOrder : list string :=
  ["info"; "contact"; "sales"; "booking"; "bookings"; "reservations";
   "office"; "hello"; "enquiry"; "enquiries"; "support"].

(** The [_priority] computed for a candidate. *)
Definition priorityOf (e : Candidate) : nat :=
  let local := localPart (email e) in
  match indexOf priorityOrder local with
  | Some i => i
  | None =>
      match findIndex (fun p => startsWith local p) priorityOrder with
      | Some i => i
      | None => if EmailType_eqb (email_type e) generic then 50%nat else 100%nat
      end
  end.

(** [Array.prototype.sort] with the comparator [a._priority - b._priority]:
    the sort is stable, so the result is the one of inserting each element,
    from the last to the first, before the elements that do not rank
    ahead of it. *)
Fixpoint insertByPriority (x : Candidate) (l : list Candidate) : list Candidate :=
  match l with
  | [] => [x]
  | y :: l' =>
      if (priorityOf x <=? priorityOf y)%nat then x :: y :: l'
      else y :: insertByPriority x l'
  end.

Fixpoint sortByPriority (l : list Candidate) : list Candidate :=
  match l with
  | [] => []
  | x :: l' => insertByPriority x (sortByPriority l')
  end.

Definition pickBestEmails (emails : list Candidate) (maxPerDomain : Z) : list Candidate :=
  slice0 (sortByPriority emails) maxPerDomain.

(** *** Vocabulary for the statements about the ranking *)

(** [a] does not rank behind [b]. *)
Definition ranksBefore (a b : Candidate) : Prop := (priorityOf a <= priorityOf b)%nat.

(** The candidates of priority [p], in the order of the list. *)
Definition bucket (p : nat) (l : list Candidate) : list Candidate :=
  List.filter (fun e => (priorityOf e =? p)%nat) l.

(** *** Extraction over the pages of a domain

    What [extractEmailsFromPages] reads of one page: the scan of its markup
    (see [extractEmailsRegex]), whether [html] is non-empty and its visible
    text non-blank, and the entries of the model's reply for it (the empty
    list when the call fails). *)

Record PageScan := mkPageScan {
  url : string;
  mailto : list string;
  matches : list string;
  hasVisibleText : bool;
  llmReply : list LlmEmail
}.

Fixpoint collect (enableAi : bool) (pages : list PageScan)
                 (allRegex allAi : list Candidate) : list Candidate * list Candidate :=
  match pages with
  | [] => (allRegex, allAi)
  | p :: rest =>
      let regexList := extractEmailsRegex (mailto p) (matches p) (url p) in
      let allRegex' := (allRegex ++ regexList)%list in
      let allAi' := if enableAi && hasVisibleText p
                    then (allAi ++ llmCandidates (llmReply p) (url p))%list
                    else allAi in
      collect enableAi rest allRegex' allAi'
  end.

Definition extractEmailsFromPages (pages : list PageScan) (enableAi : bool)
                                  (maxEmails : Z) : list Candidate :=
  let '(allRegex, allAi) := collect enableAi pages [] [] in
  let merged := mergeEmailResults allAi allRegex in
  pickBestEmails merged maxEmails.

End Email.

(** ** Relevance score (scoreRelevance.js) *)

Module Relevance.
Import Js.

Definition TURKEY_TERMS : list string := ["turkey"; "türkiye"].

Definition DESTINATION_TERMS : list string :=
  ["antalya"; "istanbul"; "cappadocia"; "pamukkale"; "ephesus"; "bodrum"].

Record Score := mkScore {
  relevanceScore : Z;
  matchedTerms : list string
}.

(** One turn of [for (const term of DESTINATION_TERMS)]. *)
Definition scoreTerm (text : string) (acc : Score) (term : string) : Score :=
  if includes text term
  then {| relevanceScore := relevanceScore acc + 1;
          matchedTerms := (matchedTerms acc ++ [term])%list |}
  else acc.

(** [String.prototype.toLowerCase] maps every cased letter of Unicode and is
    not written out here: [scoreRelevance] takes it as its first argument,
    and nothing is assumed of it.  On a text of ASCII characters it is
    [Js.toLowerCase]. *)
Definition scoreRelevance (toLowerCase : string -> string)
    (combinedText : string) (unrelatedKeywords : list string) : Score :=
  let text := toLowerCase combinedText in
  let s0 := {| relevanceScore := 0; matchedTerms := [] |} in
  let s1 := if existsb (fun t => includes text t) TURKEY_TERMS
            then {| relevanceScore := relevanceScore s0 + 2;
                    matchedTerms := (matchedTerms s0 ++ ["Turkey/Türkiye"])%list |}
            else s0 in
  let s2 := fold_left (scoreTerm text) DESTINATION_TERMS s1 in
  let block := List.map toLowerCase unrelatedKeywords in
  if existsb (fun k => includes text k) block
  then {| relevanceScore := relevanceScore s2 - 2;
          matchedTerms := (matchedTerms s2 ++ ["unrelated"])%list |}
  else s2.

(** The three terms of the score, as the design states them, on the
    lower-cased text and the lower-cased block list. *)
Definition coreBonus (text : string) : Z :=
  if existsb (fun t => includes text t) TURKEY_TERMS then 2 else 0.

Definition destinationHits (text : string) : nat :=
  List.length (List.filter (fun t => includes text t) DESTINATION_TERMS).

Definition blockPenalty (text : string) (block : list string) : Z :=
  if existsb (fun k => includes text k) block then 2 else 0.

End Relevance.

(** ** Page fetch with retries (crawlDomain.js) *)

Module Fetch.

(** How one call of [axios.get] settles: with the response body, or with an
    error (time-out, connection reset, status outside 200..399).
    [fetchWithRetry] keeps the error in [lastErr] and reads nothing of it, so
    the type [E] of the errors is a parameter. *)
Inductive Outcome (E : Type) :=
| Resolved (data : string)
| Rejected (err : E).
Arguments Resolved {E} data.
Arguments Rejected {E} err.

(** What [fetchWithRetry] does to the outside world. *)
Inductive Effect :=
| Request (url : string)
| Sleep (ms : Z).

(** How [fetchWithRetry] ends: [return data] or [throw lastErr], where
    [lastErr] is [None] while the variable is still [undefined]. *)
Inductive Completion (E : Type) :=
| Return (data : string)
| Throw (lastErr : option E).
Arguments Return {E} data.
Arguments Throw {E} lastErr.

Record Options := mkOptions {
  retries : Z;
  retryDelaysMs : list Z
}.

(** The pause in the [catch] block of turn [i]:
    [if (i < retries - 1 && delays[i] != null) await sleep(delays[i])]. *)
Definition backoff (opts : Options) (i : nat) : list Effect :=
  if Z.of_nat i <? retries opts - 1
  then match nth_error (retryDelaysMs opts) i with
       | Some d => [Sleep d]
       | None => []
       end
  else [].

(** The [for] loop, with [todo] turns left, at index [i].  [net i] is the
    way the [i]-th request settles. *)
Fixpoint attempts {E : Type} (url : string) (opts : Options) (net : nat -> Outcome E)
                  (todo : nat) (i : nat) (lastErr : option E)
  : list Effect * Completion E :=
  match todo with
  | O => ([], Throw lastErr)
  | S todo' =>
      match net i with
      | Resolved data => ([Request url], Return data)
      | Rejected err =>
          let '(effects, c) := attempts url opts net todo' (S i) (Some err) in
          ((Request url :: backoff opts i) ++ effects, c)%list
      end
  end.

Definition fetchWithRetry {E : Type} (url : string) (opts : Options) (net : nat -> Outcome E)
  : list Effect * Completion E :=
  attempts url opts net (Z.to_nat (retries opts)) 0%nat None.

Definition isRequest (e : Effect) : bool :=
  match e with Request _ => true | Sleep _ => false end.

Definition requests (effects : list Effect) : nat :=
  List.length (List.filter isRequest effects).

(** [k] failed turns from index [i] on: each a request followed by its
    pause. *)
Fixpoint failedTurns (url : string) (opts : Options) (i k : nat) : list Effect :=
  match k with
  | O => []
  | S k' => (Request url :: backoff opts i) ++ failedTurns url opts (S i) k'
  end.

(** An error value, by what a handler can read of it: the name of its
    class, its message, and the url and the cause it carries, when it
    carries them. *)
Record ErrorValue := mkErrorValue {
  className : string;
  message : string;
  carriedUrl : option string;
  carriedCause : option string
}.

(** The error [axios.get] rejects with for a request to [url]; it is
    granted here that it carries that url (in its [config]). *)
Definition axiosError (url message : string) : ErrorValue :=
  {| className := "AxiosError"; message := message;
     carriedUrl := Some url; carriedCause := None |}.

(** The error the design names: a [FetchError] carrying the url and the
    last underlying cause. *)
Definition isFetchError (url : string) (lastCause : ErrorValue) (e : ErrorValue) : Prop :=
  className e = "FetchError"
  /\ carriedUrl e = Some url
  /\ carriedCause e = Some (message lastCause).

End Fetch.

(** ** Region filter (normalizeDomain.js) *)

Module Region.
Import Js.

Definition TURKEY_TLDS : list string :=
  [".com.tr"; ".org.tr"; ".net.tr"; ".gov.tr"; ".edu.tr"; ".bel.tr"].

Definition TURKEY_DOMAIN_HINTS : list string :=
  ["turkey"; "turkiye"; "turco"; "turk"; "turkish";
   "istanbul"; "antalya"; "cappadocia"; "kapadokya";
   "bodrum"; "ephesus"; "efes"; "pamukkale"; "goreme";
   "fethiye"; "marmaris"; "kusadasi"; "alanya"; "kemer";
   "belek"; "dalyan"; "oludeniz"; "tursab"].

Definition isTurkeyBasedDomain (domain : string) : bool :=
  if String.eqb domain EmptyString then false
  else
    let d := toLowerCase domain in
    if existsb (fun t => endsWith d t) TURKEY_TLDS then true
    else if existsb (fun h => includes d h) TURKEY_DOMAIN_HINTS then true
    else false.

End Region.

(** ** The streaming extractor (runExtract.js)

    [createStreamingExtractor] closes over the set [processedDomains], the
    limiter [limit = pLimit(concurrency)] and the run log.  JavaScript runs
    one task at a time and changes task only at an [await]; the model has one
    event per stretch of code that runs without suspension:
    - a caller invokes [addDomain(rec)];
    - the limiter starts the oldest thunk it holds, and [processOne] runs up
      to [await crawlDomain(...)]; for a domain in the processed set it
      returns at once, and for a domain the region filter excludes it runs
      up to the write to the skip log;
    - [crawlDomain] settles for a task, which runs on through the snowball
      block up to [await extractEmailsFromPages(...)]; when the crawl was
      rejected or gave no page, up to the write to the skip log;
    - the extraction settles for a task, which runs on through the score
      gate and [allRows.push(...rows)] up to its last [await], a write to
      the skip log or to the CSV file, or returns when there is nothing to
      write;
    - that write settles, and [processOne] returns; when the write failed
      inside the [try], the [catch] block logs the error and the task runs
      up to the write of that block.
    The limiter does not run a thunk inside the call that submits it: it
    keeps the thunk in its queue and starts it, oldest first, once fewer
    than [concurrency] thunks are running.  [Start] may follow
    [AddDomain] at once when a slot is free. *)

Module Scheduler.
Import Js.

Record DomainRecord := mkDomainRecord {
  domain : string;
  sampleUrl : string;
  queryUsed : string;
  title : string;
  snippet : string;
  country : string;
  city : string
}.

(** [rec] is a record or, in a hand-written domain file, a bare host name. *)
Inductive Rec :=
| Obj (r : DomainRecord)
| Str (s : string).

(** [rec.domain || rec] *)
Definition domainOf (rec : Rec) : string :=
  match rec with
  | Obj r => domain r
  | Str s => s
  end.

(** The options read by [createStreamingExtractor].  [enableAiExtract]
    stands for the flag together with the presence of the API key, as
    [extractEmailsFromPages] tests them; [csvPath] tells whether an output
    path was given ([outPath], tested as [rows.length > 0 && csvPath]). *)
Record Config := mkConfig {
  concurrency : nat;
  minScore : Z;
  unrelatedKeywords : list string;
  enableAiExtract : bool;
  snowballEnabled : bool;
  snowballMaxDepth : Z;
  snowballMaxPerSource : Z;
  csvPath : bool
}.

(** The options of [createStreamingExtractor] when the configuration gives
    none (plain HTTP fetch, the key of the external extraction unset), with
    the output path that both entry points pass. *)
Definition defaults : Config :=
  {| concurrency := 10; minScore := 2; unrelatedKeywords := [];
     enableAiExtract := false; snowballEnabled := false;
     snowballMaxDepth := 1; snowballMaxPerSource := 10; csvPath := true |}.

(** A thunk [() => processOne(rec, depth)]. *)
Record Task := mkTask {
  rec : Rec;
  depth : Z
}.

Record Page := mkPage {
  scan : Email.PageScan;
  html : string
}.

Record LeadRow := mkLeadRow {
  row_domain : string;
  row_country : string;
  row_city : string;
  row_email : string;
  row_email_type : Email.EmailType;
  row_confidence : Q;
  relevance_score : Z;
  row_source_url : string;
  discovered_by_query : string
}.

(** How [crawlDomain] settles.  [outbound] is what
    [extractOutboundTravelDomains(pages, domain)] finds in the pages. *)
Inductive CrawlResult :=
| Crawled (pages : list Page) (outbound : list string)
| CrawlFailed (message : string).

(** Where the last [await] of a task stands: inside the [try] of
    [processOne], so that a failed write reaches its [catch], or outside it
    (the skip of a filtered domain, whose failure is swallowed, and the
    write of the [catch] block itself). *)
Inductive WriteKind := InTry | Unguarded.

(** [crawling], [extracting] and [writing] hold the running tasks, by the
    [await] they are suspended at. *)
Record State := mkState {
  processedDomains : gset string;
  waiting : list Task;
  crawling : list Task;
  extracting : list (Task * list Page);
  writing : list (Task * WriteKind);
  crawlLog : list string;
  skipped : list (string * string);
  errors : list (string * string);
  snowballDomains : nat;
  allRows : list LeadRow
}.

Definition init : State :=
  {| processedDomains := ∅; waiting := []; crawling := []; extracting := [];
     writing := [];
     crawlLog := []; skipped := []; errors := []; snowballDomains := 0%nat;
     allRows := [] |}.

Definition enqueue (t : Task) (st : State) : State :=
  {| processedDomains := processedDomains st;
     waiting := (waiting st ++ [t])%list;
     crawling := crawling st; extracting := extracting st;
     writing := writing st;
     crawlLog := crawlLog st; skipped := skipped st; errors := errors st;
     snowballDomains := snowballDomains st; allRows := allRows st |}.

Definition addDomain (st : State) (rec : Rec) : State :=
  let domain := domainOf rec in
  if bool_decide (domain ∈ processedDomains st) then st
  else enqueue {| rec := rec; depth := 0 |} st.

(** [processOne] from its entry to its first suspension: [await
    crawlDomain(...)] or, for a filtered domain, the write to the skip
    log. *)
Definition processOne_start (st : State) (t : Task) : State :=
  let domain := domainOf (rec t) in
  if bool_decide (domain ∈ processedDomains st) then st
  else
    let processed := {[ domain ]} ∪ processedDomains st in
    if Region.isTurkeyBasedDomain domain
    then {| processedDomains := processed;
            waiting := waiting st; crawling := crawling st;
            extracting := extracting st;
            writing := (writing st ++ [(t, Unguarded)])%list;
            crawlLog := crawlLog st;
            skipped := (skipped st ++ [(domain, "turkey-based domain")])%list;
            errors := errors st; snowballDomains := snowballDomains st;
            allRows := allRows st |}
    else {| processedDomains := processed;
            waiting := waiting st;
            crawling := (crawling st ++ [t])%list;
            extracting := extracting st;
            writing := writing st;
            crawlLog := (crawlLog st ++ [domain])%list;
            skipped := skipped st; errors := errors st;
            snowballDomains := snowballDomains st; allRows := allRows st |}.

Definition snowRec (sd source : string) : DomainRecord :=
  {| domain := sd;
     sampleUrl := "https://" ++ sd;
     queryUsed := "snowball:" ++ source;
     title := "";
     snippet := "Discovered via partner link on " ++ source;
     country := "";
     city := "" |}.

(** The thunk [() => processOne(snowRec, depth + 1)] pushed for [sd]. *)
Definition snowTask (source : string) (d : Z) (sd : string) : Task :=
  {| rec := Obj (snowRec sd source); depth := d + 1 |}.

(** One turn of [for (const sd of added)]. *)
Definition snowballOne (source : string) (d : Z) (st : State) (sd : string) : State :=
  if bool_decide (sd ∈ processedDomains st) then st
  else
    let st' := enqueue (snowTask source d sd) st in
    {| processedDomains := processedDomains st';
       waiting := waiting st'; crawling := crawling st';
       extracting := extracting st'; writing := writing st';
       crawlLog := crawlLog st';
       skipped := skipped st'; errors := errors st';
       snowballDomains := S (snowballDomains st'); allRows := allRows st' |}.

(** The snowball block. *)
Definition snowball (cfg : Config) (st : State) (t : Task) (outbound : list string) : State :=
  if snowballEnabled cfg && (depth t <? snowballMaxDepth cfg)
  then
    let added := slice0 (List.filter (fun sd => negb (Region.isTurkeyBasedDomain sd)) outbound)
                        (snowballMaxPerSource cfg) in
    fold_left (snowballOne (domainOf (rec t)) (depth t)) added st
  else st.

Definition logSkip (domain reason : string) (st : State) : State :=
  {| processedDomains := processedDomains st;
     waiting := waiting st; crawling := crawling st;
     extracting := extracting st; writing := writing st;
     crawlLog := crawlLog st;
     skipped := (skipped st ++ [(domain, reason)])%list;
     errors := errors st; snowballDomains := snowballDomains st;
     allRows := allRows st |}.

Definition logError (domain message : string) (st : State) : State :=
  {| processedDomains := processedDomains st;
     waiting := waiting st; crawling := crawling st;
     extracting := extracting st; writing := writing st;
     crawlLog := crawlLog st;
     skipped := skipped st;
     errors := (errors st ++ [(domain, message)])%list;
     snowballDomains := snowballDomains st; allRows := allRows st |}.

Definition suspendOnExtract (t : Task) (pages : list Page) (st : State) : State :=
  {| processedDomains := processedDomains st;
     waiting := waiting st; crawling := crawling st;
     extracting := (extracting st ++ [(t, pages)])%list;
     writing := writing st;
     crawlLog := crawlLog st; skipped := skipped st; errors := errors st;
     snowballDomains := snowballDomains st; allRows := allRows st |}.

(** The task is suspended at [await appendFile(skippedLogPath, ...)] or at
    [await initLeadsCsv(...)] / [await appendLeadsCsv(...)]. *)
Definition suspendOnWrite (t : Task) (k : WriteKind) (st : State) : State :=
  {| processedDomains := processedDomains st;
     waiting := waiting st; crawling := crawling st;
     extracting := extracting st;
     writing := (writing st ++ [(t, k)])%list;
     crawlLog := crawlLog st; skipped := skipped st; errors := errors st;
     snowballDomains := snowballDomains st; allRows := allRows st |}.

(** [processOne] from the return of [crawlDomain] to the next suspension.
    A rejected crawl is logged by the [catch] block. *)
Definition processOne_crawled (cfg : Config) (st : State) (t : Task) (r : CrawlResult) : State :=
  let domain := domainOf (rec t) in
  match r with
  | CrawlFailed message => suspendOnWrite t Unguarded (logError domain message st)
  | Crawled [] _ => suspendOnWrite t InTry (logSkip domain "no pages fetched" st)
  | Crawled pages outbound => suspendOnExtract t pages (snowball cfg st t outbound)
  end.

Definition recCountry (rec : Rec) : string :=
  match rec with Obj r => country r | Str _ => "" end.
Definition recCity (rec : Rec) : string :=
  match rec with Obj r => city r | Str _ => "" end.
Definition recQuery (rec : Rec) : string :=
  match rec with Obj r => queryUsed r | Str _ => "" end.

(** [pages.map((p) => p.html).join(' ')] *)
Fixpoint joinHtml (pages : list Page) : string :=
  match pages with
  | [] => ""
  | [p] => html p
  | p :: rest => html p ++ " " ++ joinHtml rest
  end.

Definition leadRow (t : Task) (relevanceScore : Z) (e : Email.Candidate) : LeadRow :=
  {| row_domain := domainOf (rec t);
     row_country := recCountry (rec t);
     row_city := recCity (rec t);
     row_email := Email.email e;
     row_email_type := Email.email_type e;
     row_confidence := Email.confidence e;
     relevance_score := relevanceScore;
     row_source_url := Email.source_url e;
     discovered_by_query := recQuery (rec t) |}.

(** [allRows.push(...rows)] *)
Definition pushRows (rows : list LeadRow) (st : State) : State :=
  {| processedDomains := processedDomains st;
     waiting := waiting st; crawling := crawling st;
     extracting := extracting st; writing := writing st;
     crawlLog := crawlLog st;
     skipped := skipped st; errors := errors st;
     snowballDomains := snowballDomains st;
     allRows := (allRows st ++ rows)%list |}.

(** [processOne] from the return of [extractEmailsFromPages] to its last
    suspension: the rows are in [allRows] before the CSV file is written.
    [toLowerCase] stands for [String.prototype.toLowerCase]. *)
Definition processOne_extracted (toLowerCase : string -> string) (cfg : Config)
    (st : State) (t : Task) (pages : list Page) : State :=
  let domain := domainOf (rec t) in
  let emails := Email.extractEmailsFromPages (List.map scan pages) (enableAiExtract cfg) 5 in
  let combinedText := joinHtml pages in
  let relevanceScore :=
    Relevance.relevanceScore
      (Relevance.scoreRelevance toLowerCase combinedText (unrelatedKeywords cfg)) in
  if relevanceScore <? minScore cfg
  then suspendOnWrite t InTry (logSkip domain "score below threshold" st)
  else
    let rows := List.map (leadRow t relevanceScore) emails in
    let st' := pushRows rows st in
    if (0 <? List.length rows)%nat && csvPath cfg
    then suspendOnWrite t InTry st'
    else st'.

(** [processOne] from the return of its last write to its end.  A write
    that fails inside the [try] is logged by the [catch] block, which writes
    to the skip log in its turn; the rows pushed before it stay. *)
Definition processOne_written (st : State) (t : Task) (k : WriteKind)
    (failure : option string) : State :=
  match k, failure with
  | InTry, Some message => suspendOnWrite t Unguarded (logError (domainOf (rec t)) message st)
  | _, _ => st
  end.

Inductive Event :=
| AddDomain (rec : Rec)
| Start
| CrawlSettles (i : nat) (r : CrawlResult)
| ExtractSettles (i : nat)
| WriteSettles (i : nat) (failure : option string).

Definition dropWaiting (st : State) : State :=
  {| processedDomains := processedDomains st;
     waiting := List.tl (waiting st); crawling := crawling st;
     extracting := extracting st; writing := writing st;
     crawlLog := crawlLog st;
     skipped := skipped st; errors := errors st;
     snowballDomains := snowballDomains st; allRows := allRows st |}.

Definition dropCrawling (i : nat) (st : State) : State :=
  {| processedDomains := processedDomains st;
     waiting := waiting st; crawling := delete i (crawling st);
     extracting := extracting st; writing := writing st;
     crawlLog := crawlLog st;
     skipped := skipped st; errors := errors st;
     snowballDomains := snowballDomains st; allRows := allRows st |}.

Definition dropExtracting (i : nat) (st : State) : State :=
  {| processedDomains := processedDomains st;
     waiting := waiting st; crawling := crawling st;
     extracting := delete i (extracting st); writing := writing st;
     crawlLog := crawlLog st;
     skipped := skipped st; errors := errors st;
     snowballDomains := snowballDomains st; allRows := allRows st |}.

Definition dropWriting (i : nat) (st : State) : State :=
  {| processedDomains := processedDomains st;
     waiting := waiting st; crawling := crawling st;
     extracting := extracting st; writing := delete i (writing st);
     crawlLog := crawlLog st;
     skipped := skipped st; errors := errors st;
     snowballDomains := snowballDomains st; allRows := allRows st |}.

(** The number of thunks the limiter counts as running. *)
Definition activeCount (st : State) : nat :=
  (List.length (crawling st) + List.length (extracting st)
   + List.length (writing st))%nat.

(** An event that cannot happen in [st] leaves it as it is. *)
Definition step (toLowerCase : string -> string) (cfg : Config) (st : State) (ev : Event)
  : State :=
  match ev with
  | AddDomain rec => addDomain st rec
  | Start =>
      match waiting st with
      | t :: _ =>
          if (activeCount st <? concurrency cfg)%nat
          then processOne_start (dropWaiting st) t
          else st
      | [] => st
      end
  | CrawlSettles i r =>
      match crawling st !! i with
      | Some t => processOne_crawled cfg (dropCrawling i st) t r
      | None => st
      end
  | ExtractSettles i =>
      match extracting st !! i with
      | Some (t, pages) => processOne_extracted toLowerCase cfg (dropExtracting i st) t pages
      | None => st
      end
  | WriteSettles i failure =>
      match writing st !! i with
      | Some (t, k) => processOne_written (dropWriting i st) t k failure
      | None => st
      end
  end.

Definition run (toLowerCase : string -> string) (cfg : Config) (evs : list Event) (st : State)
  : State :=
  fold_left (step toLowerCase cfg) evs st.

(** What every reachable state satisfies: no domain is in the crawl log
    twice, and a domain in the crawl log is in the processed set. *)
Definition crawl_inv (st : State) : Prop :=
  List.NoDup (crawlLog st) /\ forall d, In d (crawlLog st) -> d ∈ processedDomains st.

(** The tasks the snowball block of task [t] hands to the limiter. *)
Definition snowballed (cfg : Config) (st : State) (t : Task) (outbound : list string)
  : list Task :=
  if snowballEnabled cfg && (depth t <? snowballMaxDepth cfg)
  then List.map (snowTask (domainOf (rec t)) (depth t))
         (List.filter (fun sd => negb (bool_decide (sd ∈ processedDomains st)))
            (slice0 (List.filter (fun sd => negb (Region.isTurkeyBasedDomain sd)) outbound)
                    (snowballMaxPerSource cfg)))
  else [].

End Scheduler.

(** ** Vocabulary for further statements about the extraction *)

Module EmailSpec.
Import Js Email.

(** What [push] asks of a normalized address before it records it, apart
    from its not having been seen. *)
Definition pushable (e : string) : bool :=
  negb (String.eqb e EmptyString) && includes e "@" && accepted e.

(** The record [push] builds for a normalized address. *)
Definition regexRecord (sourceUrl e : string) : Candidate :=
  {| email := e;
     source_url := sourceUrl;
     email_type := if isGeneric e then generic else personal;
     confidence := 0.9;
     extracted_by := regex |}.

(** A confidence between 0 and 1. *)
Definition inUnit (q : Q) : Prop := (0 <= q)%Q /\ (q <= 1)%Q.

(** What the loop of [push] keeps true: [seen] is the set of recorded
    addresses, no address is recorded twice, and every record is the one
    [push] builds for its address. *)
Definition push_inv (sourceUrl : string) (st : RegexState) : Prop :=
  (forall e, e ∈ seen st <-> In e (List.map email (out st)))
  /\ List.NoDup (List.map email (out st))
  /\ Forall (fun c => c = regexRecord sourceUrl (email c) /\ pushable (email c) = true) (out st).

End EmailSpec.

(** ** Vocabulary for further statements about the scheduler *)

Module SchedulerSpec.
Import Scheduler.

Definition taskDomain (t : Task) : string := domainOf (rec t).

(** The domains of the tasks that have called the crawler and whose
    extraction has not yet returned. *)
Definition workingDomains (st : State) : list string :=
  (List.map taskDomain (crawling st)
   ++ List.map (fun tp => taskDomain (fst tp)) (extracting st))%list.

(** The domains of the tasks that have started and not yet ended. *)
Definition activeDomains (st : State) : list string :=
  (workingDomains st ++ List.map (fun tk => taskDomain (fst tk)) (writing st))%list.

(** The rows written for the domain [d]. *)
Definition rowsOf (d : string) (rows : list LeadRow) : list LeadRow :=
  List.filter (fun r => String.eqb (row_domain r) d) rows.

(** A task is at a depth between 0 and the maximum depth, and a task below
    the surface is for a domain the region filter lets through. *)
Definition taskOk (cfg : Config) (t : Task) : Prop :=
  0 <= depth t <= Z.max 0 (snowballMaxDepth cfg)
  /\ (0 < depth t -> Region.isTurkeyBasedDomain (taskDomain t) = false).

Definition rowOk (cfg : Config) (st : State) (r : LeadRow) : Prop :=
  minScore cfg <= relevance_score r
  /\ Email.clean (row_email r)
  /\ In (row_domain r) (crawlLog st)
  /\ ~ In (row_domain r) (workingDomains st).

(** What every reachable state satisfies. *)
Record sched_inv (cfg : Config) (st : State) : Prop := mkSchedInv {
  inv_crawl : crawl_inv st;
  inv_waiting : Forall (taskOk cfg) (waiting st);
  inv_crawling : Forall (taskOk cfg) (crawling st);
  inv_extracting : Forall (fun tp => taskOk cfg (fst tp)) (extracting st);
  inv_writing : Forall (fun tk => taskOk cfg (fst tk)) (writing st);
  inv_active : List.NoDup (activeDomains st);
  inv_started : forall d, In d (activeDomains st) -> d ∈ processedDomains st;
  inv_logged : forall d, In d (workingDomains st) -> In d (crawlLog st);
  inv_region : Forall (fun d => Region.isTurkeyBasedDomain d = false) (crawlLog st);
  inv_rows : Forall (rowOk cfg st) (allRows st);
  inv_cap : forall d, (List.length (rowsOf d (allRows st)) <= 5)%nat
}.

End SchedulerSpec.

(** ** A small run, for the examples *)

Module Example.
Import Scheduler.

Definition contactPage : Page :=
  {| scan := {| Email.url := "https://acme-travel.com/contact";
                Email.mailto := ["Info@Acme-Travel.com"];
                Email.matches := ["sales@acme-travel.com"; "noreply@acme-travel.com"];
                Email.hasVisibleText := true;
                Email.llmReply := [] |};
     html := "<html><title>Acme Travel</title>Tours in Turkey: Istanbul and Cappadocia</html>" |}.

Definition snowballConfig : Config :=
  {| concurrency := 10; minScore := 2; unrelatedKeywords := ["casino"];
     enableAiExtract := false; snowballEnabled := true;
     snowballMaxDepth := 1; snowballMaxPerSource := 10; csvPath := true |}.

(** One domain submitted, started, crawled with one partner link, and
    extracted: its task is writing its rows to the CSV file. *)
Definition oneDomain : list Event :=
  [AddDomain (Str "acme-travel.com"); Start;
   CrawlSettles 0 (Crawled [contactPage] ["partner-voyages.com"]);
   ExtractSettles 0].

End Example.

(** ** The CSV sink (csvWriter.js)

    A row is given by the values of its ten columns, each already turned
    into a string ([String(val ?? '')]). *)

Module Csv.
Import Js.

Definition COLUMNS : list string :=
  ["business_name"; "domain"; "country"; "city"; "email"; "email_type";
   "confidence"; "relevance_score"; "source_url"; "discovered_by_query"].

Definition quote : ascii := "034"%char.
Definition comma : ascii := ","%char.
Definition LF : ascii := "010"%char.
Definition CR : ascii := "013"%char.

(** [arr.join(sep)] *)
Fixpoint join (sep : string) (l : list string) : string :=
  match l with
  | [] => EmptyString
  | [x] => x
  | x :: l' => x ++ sep ++ join sep l'
  end.

(** [s.replace] of every quote by two quotes. *)
Fixpoint doubleQuotes (s : string) : string :=
  match s with
  | EmptyString => EmptyString
  | String c s' =>
      if Ascii.eqb c quote then String quote (String quote (doubleQuotes s'))
      else String c (doubleQuotes s')
  end.

Definition needsQuotes (s : string) : bool :=
  includes s (String comma EmptyString) || includes s (String quote EmptyString)
  || includes s (String LF EmptyString) || includes s (String CR EmptyString).

(** A field that is written without quotes holds none of the four
    characters. *)
Definition plain (s : string) : Prop :=
  forall_chars (fun a => negb (Ascii.eqb a comma || Ascii.eqb a quote
                               || Ascii.eqb a LF || Ascii.eqb a CR)) s = true.

Definition csvEscape (s : string) : string :=
  if needsQuotes s
  then String quote (doubleQuotes s ++ String quote EmptyString)
  else s.

Definition rowToCsvLine (row : list string) : string :=
  join (String comma EmptyString) (List.map csvEscape row) ++ String LF EmptyString.

Definition HEADER_LINE : string :=
  join (String comma EmptyString) COLUMNS ++ String LF EmptyString.

(** What [appendLeadsCsv] appends to the file: nothing for no rows. *)
Definition appended (rows : list (list string)) : string :=
  join EmptyString (List.map rowToCsvLine rows).

(** *** A reader of the format, to state what the writer guarantees

    Fields are separated by commas and a record ends with a line feed; a
    field that starts with a quote runs to the next quote that is not
    doubled, and a doubled quote in it stands for one quote. *)

(** The rest of a quoted field, after its opening quote, and what follows
    its closing quote. *)
Fixpoint readQuoted (s : string) : option (string * string) :=
  match s with
  | EmptyString => None
  | String c s' =>
      if Ascii.eqb c quote
      then match s' with
           | String c2 s'' =>
               if Ascii.eqb c2 quote
               then match readQuoted s'' with
                    | Some (f, r) => Some (String quote f, r)
                    | None => None
                    end
               else Some (EmptyString, s')
           | EmptyString => Some (EmptyString, EmptyString)
           end
      else match readQuoted s' with
           | Some (f, r) => Some (String c f, r)
           | None => None
           end
  end.

(** A field without quotes, up to the next comma or line feed. *)
Fixpoint readBare (s : string) : string * string :=
  match s with
  | EmptyString => (EmptyString, EmptyString)
  | String c s' =>
      if Ascii.eqb c comma || Ascii.eqb c LF then (EmptyString, s)
      else let '(f, r) := readBare s' in (String c f, r)
  end.

Definition readField (s : string) : option (string * string) :=
  match s with
  | String c s' => if Ascii.eqb c quote then readQuoted s' else Some (readBare s)
  | EmptyString => Some (readBare s)
  end.

(** One record of at most [S width] fields, and what follows its line
    feed. *)
Fixpoint readRecord (width : nat) (s : string) : option (list string * string) :=
  match readField s with
  | Some (f, String c r) =>
      if Ascii.eqb c LF then Some ([f], r)
      else if Ascii.eqb c comma
           then match width with
                | O => None
                | S width' =>
                    match readRecord width' r with
                    | Some (fs, r') => Some (f :: fs, r')
                    | None => None
                    end
                end
           else None
  | _ => None
  end.

(** [count] records. *)
Fixpoint readRecords (width count : nat) (s : string) : option (list (list string) * string) :=
  match count with
  | O => Some ([], s)
  | S count' =>
      match readRecord width s with
      | Some (row, r) =>
          match readRecords width count' r with
          | Some (rows, r') => Some (row :: rows, r')
          | None => None
          end
      | None => None
      end
  end.

End Csv.

(** * Properties *)

(** ** Validation *)

Section Validation.
Import Js Email.

(** Walks down the chain of early returns of [isValidEmail]. *)
Ltac early_returns :=
  repeat match goal with
         | |- (if ?c then false else _) = false =>
             destruct c eqn:?; [reflexivity | ]
         end.

Lemma last_snoc2 (labels : list string) (label tld : string) :
  List.last (labels ++ [label; tld]) EmptyString = tld.
Proof.
  replace (labels ++ [label; tld])%list with ((labels ++ [label]) ++ [tld])%list
    by (rewrite <- app_assoc; reflexivity).
  apply last_last.
Qed.

Lemma second_last_snoc2 (labels : list string) (label tld : string) :
  nth (List.length (labels ++ [label; tld]) - 2) (labels ++ [label; tld]) EmptyString = label.
Proof.
  rewrite length_app. simpl List.length.
  replace (List.length labels + 2 - 2)%nat with (List.length labels + 0)%nat by lia.
  rewrite app_nth2_plus. reflexivity.
Qed.

Lemma trailing_text_rejected (email local domain : string) (rest : list string) :
  split "@" email = local :: domain :: rest ->
  tldHasTrailingText (List.last (split "." domain) EmptyString) = true ->
  isValidEmail email = false.
Proof.
  intros Hsplit Htld. unfold isValidEmail. rewrite Hsplit. cbv zeta.
  rewrite Htld. early_returns. reflexivity.
Qed.

Lemma strip_prefix_ci_app (p s : string) :
  toLowerCase p = p -> strip_prefix_ci p (p ++ s) = Some s.
Proof.
  induction p as [|a p IH]; intros Hlow; [reflexivity|].
  simpl in Hlow. injection Hlow as Ha Hp.
  change (String a p ++ s) with (String a (p ++ s)).
  cbn [strip_prefix_ci]. rewrite Ha, Ascii.eqb_refl. auto.
Qed.

Lemma append_assoc (a b c : string) : (a ++ b) ++ c = a ++ (b ++ c).
Proof.
  induction a as [|x a IH]; [reflexivity|].
  change (String x (a ++ b) ++ c = String x (a ++ (b ++ c))).
  change (String x ((a ++ b) ++ c) = String x (a ++ (b ++ c))). now rewrite IH.
Qed.

Lemma second_level_pattern (label tld : string) :
  In label SECOND_LEVEL_LABELS ->
  forall_chars is_letter tld = true ->
  (1 <= String.length tld <= 4)%nat ->
  re_second_level (label ++ "." ++ tld) = true.
Proof.
  intros Hin Hletters [Hlo Hhi].
  unfold re_second_level. apply existsb_exists. exists label. split; [assumption|].
  rewrite <- append_assoc, strip_prefix_ci_app.
  - unfold re_short_letters. rewrite Hletters, andb_true_r. apply andb_true_intro.
    split; apply Nat.leb_le; assumption.
  - simpl in Hin. destruct Hin as [<-|[<-|[<-|[<-|[<-|[<-|[]]]]]]]; vm_compute; reflexivity.
Qed.

Lemma second_level_rejected (email local domain : string) (rest labels : list string)
      (label tld : string) :
  split "@" email = local :: domain :: rest ->
  split "." domain = (labels ++ [label; tld])%list ->
  In label SECOND_LEVEL_LABELS ->
  forall_chars is_letter tld = true ->
  (1 <= String.length tld <= 4)%nat ->
  arr_includes realCcTlds (toLowerCase tld) = false ->
  isValidEmail email = false.
Proof.
  intros Hsplit Hparts Hin Hletters Hlen Hcc.
  assert (Hjunk : secondLevelJunk (split "." domain) = true).
  { unfold secondLevelJunk. rewrite Hparts, last_snoc2, second_last_snoc2.
    rewrite second_level_pattern by assumption.
    rewrite Hcc. rewrite length_app. simpl List.length.
    replace (2 <=? List.length labels + 2)%nat with true
      by (symmetry; apply Nat.leb_le; lia).
    replace (String.length tld <=? 4)%nat with true
      by (symmetry; apply Nat.leb_le; lia).
    reflexivity. }
  unfold isValidEmail. rewrite Hsplit. cbv zeta.
  rewrite Hjunk. early_returns. reflexivity.
Qed.

Lemma country_code_spared (parts : list string) :
  arr_includes realCcTlds (toLowerCase (List.last parts EmptyString)) = true ->
  secondLevelJunk parts = false.
Proof.
  intros Hcc. unfold secondLevelJunk. rewrite Hcc. simpl.
  rewrite !andb_false_r. reflexivity.
Qed.

End Validation.

(** ** Retry loop *)

Section Retry.
Import Fetch.

Context {E : Type}.
Variable url : string.
Variable opts : Options.
Variable net : nat -> Outcome E.

Lemma requests_app (a b : list Effect) :
  requests (a ++ b) = (requests a + requests b)%nat.
Proof. unfold requests. rewrite List.filter_app, length_app. reflexivity. Qed.

Lemma requests_backoff (i : nat) : requests (backoff opts i) = 0%nat.
Proof.
  unfold backoff. destruct (_ <? _); [|reflexivity].
  destruct (nth_error _ _); reflexivity.
Qed.

Lemma attempts_bound (todo i : nat) (lastErr : option E) :
  (requests (fst (attempts url opts net todo i lastErr)) <= todo)%nat.
Proof.
  revert i lastErr. induction todo as [|todo IH]; intros i lastErr; simpl.
  - unfold requests. simpl. lia.
  - destruct (net i) as [data|err].
    + unfold requests. simpl. lia.
    + specialize (IH (S i) (Some err)).
      destruct (attempts url opts net todo (S i) (Some err)) as [effects c].
      simpl in *. change (Request url :: backoff opts i ++ effects)%list
        with ([Request url] ++ (backoff opts i ++ effects))%list.
      rewrite !requests_app, requests_backoff. unfold requests at 1. simpl. lia.
Qed.

(** The first request that settles well ends the loop. *)
Lemma attempts_first_success (k : nat) (data : string) :
  forall todo i lastErr,
    (k < todo)%nat ->
    net (i + k) = Resolved data ->
    (forall j, (j < k)%nat -> exists e, net (i + j) = Rejected e) ->
    attempts url opts net todo i lastErr
    = ((failedTurns url opts i k ++ [Request url])%list, Return data).
Proof.
  induction k as [|k IH]; intros todo i lastErr Hk Hok Hfail.
  - destruct todo as [|todo]; [lia|]. simpl.
    rewrite Nat.add_0_r in Hok. rewrite Hok. reflexivity.
  - destruct todo as [|todo]; [lia|]. simpl.
    destruct (Hfail 0%nat ltac:(lia)) as [e He]. rewrite Nat.add_0_r in He. rewrite He.
    rewrite (IH todo (S i) (Some e)).
    + rewrite <- app_assoc. reflexivity.
    + lia.
    + rewrite <- Hok. f_equal. lia.
    + intros j Hj. destruct (Hfail (S j) ltac:(lia)) as [e' He'].
      exists e'. rewrite <- He'. f_equal. lia.
Qed.

(** When every request fails, the error of the last one is thrown as it
    is. *)
Lemma attempts_all_fail :
  forall todo i lastErr,
    (forall j, (j < todo)%nat -> exists e, net (i + j) = Rejected e) ->
    attempts url opts net todo i lastErr
    = (failedTurns url opts i todo,
       Throw (match todo with
              | O => lastErr
              | S n => match net (i + n) with
                       | Rejected e => Some e
                       | Resolved _ => None
                       end
              end)).
Proof.
  induction todo as [|todo IH]; intros i lastErr Hfail; [reflexivity|].
  simpl. destruct (Hfail 0%nat ltac:(lia)) as [e He].
  rewrite Nat.add_0_r in He. rewrite He.
  rewrite (IH (S i) (Some e)).
  - destruct todo as [|n]; simpl.
    + rewrite Nat.add_0_r, He. reflexivity.
    + replace (i + S n)%nat with (S (i + n)) by lia. reflexivity.
  - intros j Hj. destruct (Hfail (S j) ltac:(lia)) as [e' He'].
    exists e'. rewrite <- He'. f_equal. lia.
Qed.

End Retry.

(** ** Relevance *)

Section RelevanceFacts.
Import Js Relevance.

Lemma fold_scoreTerm (text : string) (terms : list string) (acc : Score) :
  relevanceScore (fold_left (scoreTerm text) terms acc)
  = relevanceScore acc
    + Z.of_nat (List.length (List.filter (fun t => includes text t) terms)).
Proof.
  revert acc. induction terms as [|t terms IH]; intros acc; simpl.
  - lia.
  - rewrite IH. unfold scoreTerm. destruct (includes text t); simpl; lia.
Qed.

Lemma scoreRelevance_sum (lower : string -> string)
      (combinedText : string) (unrelatedKeywords : list string) :
  relevanceScore (scoreRelevance lower combinedText unrelatedKeywords)
  = coreBonus (lower combinedText)
    + Z.of_nat (destinationHits (lower combinedText))
    - blockPenalty (lower combinedText) (List.map lower unrelatedKeywords).
Proof.
  unfold scoreRelevance, coreBonus, destinationHits, blockPenalty. cbv zeta.
  destruct (existsb _ (List.map _ _)); cbn [relevanceScore];
    rewrite fold_scoreTerm; destruct (existsb _ TURKEY_TERMS); cbn [relevanceScore]; lia.
Qed.

End RelevanceFacts.

(** ** Scheduler *)

Section SchedulerFacts.
Import Js Scheduler.

Variable cfg : Config.

(** The loop over [added] touches the queue and one counter only; the
    processed set is read, never written. *)
Lemma fold_snowballOne (source : string) (d : Z) (added : list string) (st : State) :
  let st' := fold_left (snowballOne source d) added st in
  processedDomains st' = processedDomains st
  /\ crawlLog st' = crawlLog st
  /\ crawling st' = crawling st
  /\ extracting st' = extracting st
  /\ waiting st'
     = (waiting st
        ++ List.map (snowTask source d)
             (List.filter (fun sd => negb (bool_decide (sd ∈ processedDomains st))) added))%list.
Proof.
  revert st. induction added as [|sd added IH]; intros st; cbn [fold_left].
  - simpl. rewrite app_nil_r. repeat split.
  - specialize (IH (snowballOne source d st sd)). cbv zeta in IH.
    destruct IH as (Hp & Hl & Hc & He & Hw).
    rewrite Hp, Hl, Hc, He, Hw. clear Hp Hl Hc He Hw.
    unfold snowballOne. cbn [List.filter].
    destruct (bool_decide (sd ∈ processedDomains st)); cbn [negb].
    + repeat split.
    + cbn [processedDomains crawlLog crawling extracting waiting enqueue List.map].
      rewrite <- app_assoc. repeat split.
Qed.

Lemma snowball_frame (st : State) (t : Task) (outbound : list string) :
  processedDomains (snowball cfg st t outbound) = processedDomains st
  /\ crawlLog (snowball cfg st t outbound) = crawlLog st.
Proof.
  unfold snowball. destruct (_ && _); [|split; reflexivity].
  pose proof (fold_snowballOne (domainOf (rec t)) (depth t)
                (slice0 (List.filter (fun sd => negb (Region.isTurkeyBasedDomain sd)) outbound)
                        (snowballMaxPerSource cfg)) st) as H.
  cbv zeta in H. destruct H as (Hp & Hl & _). split; assumption.
Qed.

Lemma crawl_inv_init : crawl_inv init.
Proof. split; [constructor | intros d []]. Qed.

Lemma processOne_start_inv (st : State) (t : Task) :
  crawl_inv st -> crawl_inv (processOne_start st t).
Proof.
  intros [Hnd Hsub]. unfold processOne_start.
  destruct (bool_decide (domainOf (rec t) ∈ processedDomains st)) eqn:Hmem;
    [split; assumption|].
  apply bool_decide_eq_false in Hmem.
  destruct (Region.isTurkeyBasedDomain (domainOf (rec t))); split;
    cbn [crawlLog processedDomains].
  - assumption.
  - intros d Hd. apply Hsub in Hd. set_solver.
  - apply List.NoDup_app.
    + assumption.
    + repeat constructor. intros [].
    + intros d Hd [<-|[]]. apply Hmem, Hsub, Hd.
  - intros d [Hd|[<-|[]]]%in_app_or; [apply Hsub in Hd|]; set_solver.
Qed.

Lemma processOne_crawled_frame (st : State) (t : Task) (r : CrawlResult) :
  processedDomains (processOne_crawled cfg st t r) = processedDomains st
  /\ crawlLog (processOne_crawled cfg st t r) = crawlLog st.
Proof.
  unfold processOne_crawled. destruct r as [[|p pages] outbound|message];
    try (split; reflexivity).
  cbn [suspendOnExtract processedDomains crawlLog]. apply snowball_frame.
Qed.

Variable lower : string -> string.

Lemma processOne_extracted_frame (st : State) (t : Task) (pages : list Page) :
  processedDomains (processOne_extracted lower cfg st t pages) = processedDomains st
  /\ crawlLog (processOne_extracted lower cfg st t pages) = crawlLog st.
Proof.
  unfold processOne_extracted. cbv zeta.
  destruct (_ <? _); [split; reflexivity|]. destruct (_ && _); split; reflexivity.
Qed.

Lemma processOne_written_frame (st : State) (t : Task) (k : WriteKind)
      (failure : option string) :
  processedDomains (processOne_written st t k failure) = processedDomains st
  /\ crawlLog (processOne_written st t k failure) = crawlLog st.
Proof. destruct k, failure; split; reflexivity. Qed.

Lemma addDomain_frame (st : State) (r : Rec) :
  processedDomains (addDomain st r) = processedDomains st
  /\ crawlLog (addDomain st r) = crawlLog st.
Proof. unfold addDomain. destruct (bool_decide _); split; reflexivity. Qed.

Lemma step_inv (st : State) (ev : Event) : crawl_inv st -> crawl_inv (step lower cfg st ev).
Proof.
  intros Hinv. destruct ev as [r| |i r|i|i failure]; cbn [step].
  - destruct (addDomain_frame st r) as [Hp Hl]. unfold crawl_inv. rewrite Hp, Hl. exact Hinv.
  - destruct (waiting st) as [|t w]; [exact Hinv|].
    destruct (_ <? _)%nat; [|exact Hinv]. apply processOne_start_inv. exact Hinv.
  - destruct (crawling st !! i) as [t|]; [|exact Hinv].
    destruct (processOne_crawled_frame (dropCrawling i st) t r) as [Hp Hl].
    unfold crawl_inv. rewrite Hp, Hl. exact Hinv.
  - destruct (extracting st !! i) as [[t pages]|]; [|exact Hinv].
    destruct (processOne_extracted_frame (dropExtracting i st) t pages) as [Hp Hl].
    unfold crawl_inv. rewrite Hp, Hl. exact Hinv.
  - destruct (writing st !! i) as [[t k]|]; [|exact Hinv].
    destruct (processOne_written_frame (dropWriting i st) t k failure) as [Hp Hl].
    unfold crawl_inv. rewrite Hp, Hl. exact Hinv.
Qed.

Lemma run_inv (evs : list Event) (st : State) :
  crawl_inv st -> crawl_inv (run lower cfg evs st).
Proof.
  revert st. induction evs as [|ev evs IH]; intros st Hinv; [exact Hinv|].
  apply IH, step_inv, Hinv.
Qed.

(** The processed set only grows. *)
Lemma step_processed_mono (st : State) (ev : Event) :
  processedDomains st ⊆ processedDomains (step lower cfg st ev).
Proof.
  destruct ev as [r| |i r|i|i failure]; cbn [step].
  - destruct (addDomain_frame st r) as [-> _]. reflexivity.
  - destruct (waiting st) as [|t w]; [reflexivity|].
    destruct (_ <? _)%nat; [|reflexivity]. unfold processOne_start.
    cbn [dropWaiting processedDomains].
    destruct (bool_decide _); [reflexivity|].
    destruct (Region.isTurkeyBasedDomain _); cbn [processedDomains]; set_solver.
  - destruct (crawling st !! i) as [t|]; [|reflexivity].
    destruct (processOne_crawled_frame (dropCrawling i st) t r) as [-> _]. reflexivity.
  - destruct (extracting st !! i) as [[t pages]|]; [|reflexivity].
    destruct (processOne_extracted_frame (dropExtracting i st) t pages) as [-> _]. reflexivity.
  - destruct (writing st !! i) as [[t k]|]; [|reflexivity].
    destruct (processOne_written_frame (dropWriting i st) t k failure) as [-> _]. reflexivity.
Qed.

Lemma run_processed_mono (evs : list Event) (st : State) :
  processedDomains st ⊆ processedDomains (run lower cfg evs st).
Proof.
  revert st. induction evs as [|ev evs IH]; intros st; [reflexivity|].
  cbn [run fold_left]. etransitivity; [apply (step_processed_mono st ev)|apply IH].
Qed.

End SchedulerFacts.

(** ** Normalization *)

Section Normalization.
Import Js Email.

Ltac by_cases_on_char c :=
  destruct c as [[] [] [] [] [] [] [] []]; vm_compute; reflexivity.

Lemma lower_char_idem (c : ascii) : lower_char (lower_char c) = lower_char c.
Proof. by_cases_on_char c. Qed.

Lemma is_space_lower_char (c : ascii) : is_space (lower_char c) = is_space c.
Proof. by_cases_on_char c. Qed.

Lemma toLowerCase_idem (s : string) : toLowerCase (toLowerCase s) = toLowerCase s.
Proof.
  induction s as [|c s IH]; simpl; [reflexivity|].
  rewrite lower_char_idem, IH. reflexivity.
Qed.

Lemma all_space_toLowerCase (s : string) : all_space (toLowerCase s) = all_space s.
Proof.
  induction s as [|c s IH]; simpl; [reflexivity|].
  rewrite is_space_lower_char, IH. reflexivity.
Qed.

Lemma trimStart_toLowerCase (s : string) :
  trimStart (toLowerCase s) = toLowerCase (trimStart s).
Proof.
  induction s as [|c s IH]; simpl; [reflexivity|].
  rewrite is_space_lower_char. destruct (is_space c); [exact IH|reflexivity].
Qed.

Lemma trimEnd_toLowerCase (s : string) :
  trimEnd (toLowerCase s) = toLowerCase (trimEnd s).
Proof.
  induction s as [|c s IH]; [reflexivity|].
  cbn [toLowerCase trimEnd].
  change (String (lower_char c) (toLowerCase s)) with (toLowerCase (String c s)).
  rewrite all_space_toLowerCase.
  destruct (all_space (String c s)); [reflexivity|].
  cbn [toLowerCase]. rewrite IH. reflexivity.
Qed.

Lemma trim_toLowerCase (s : string) : trim (toLowerCase s) = toLowerCase (trim s).
Proof. unfold trim. rewrite trimStart_toLowerCase, trimEnd_toLowerCase. reflexivity. Qed.

Lemma trimStart_no_leading_space (s : string) : no_leading_space (trimStart s).
Proof.
  induction s as [|c s IH]; simpl; [exact I|].
  destruct (is_space c) eqn:Hc; [exact IH|exact Hc].
Qed.

Lemma trimStart_fixed (s : string) : no_leading_space s -> trimStart s = s.
Proof. destruct s as [|c s]; simpl; [reflexivity|]. intros ->. reflexivity. Qed.

Lemma trimEnd_no_leading_space (s : string) :
  no_leading_space s -> no_leading_space (trimEnd s).
Proof.
  destruct s as [|c s]; [intros _; exact I|].
  intros Hc. simpl in Hc. cbn [trimEnd all_space]. rewrite Hc. simpl. exact Hc.
Qed.

Lemma all_space_trimEnd (s : string) :
  all_space s = false -> all_space (trimEnd s) = false.
Proof.
  induction s as [|c s IH]; [discriminate|].
  intros Hs. cbn [trimEnd]. rewrite Hs. cbn [all_space] in *.
  destruct (is_space c); [|reflexivity]. simpl in *. auto.
Qed.

Lemma trimEnd_idem (s : string) : trimEnd (trimEnd s) = trimEnd s.
Proof.
  induction s as [|c s IH]; [reflexivity|].
  cbn [trimEnd]. destruct (all_space (String c s)) eqn:Hs; [reflexivity|].
  assert (Hs' : all_space (String c (trimEnd s)) = false).
  { cbn [all_space] in *. destruct (is_space c); [|reflexivity].
    simpl in *. apply all_space_trimEnd, Hs. }
  cbn [trimEnd]. rewrite Hs', IH. reflexivity.
Qed.

Lemma trim_idem (s : string) : trim (trim s) = trim s.
Proof.
  unfold trim. rewrite (trimStart_fixed (trimEnd (trimStart s))).
  - apply trimEnd_idem.
  - apply trimEnd_no_leading_space, trimStart_no_leading_space.
Qed.

Lemma normalizeEmail_idem (s : string) :
  normalizeEmail (normalizeEmail s) = normalizeEmail s.
Proof.
  unfold normalizeEmail.
  rewrite (trim_toLowerCase (trim (toLowerCase s))), trim_idem.
  rewrite <- trim_toLowerCase, toLowerCase_idem. reflexivity.
Qed.

End Normalization.

(** ** Merge *)

Section Merge.
Import Js Email.

Lemma map_get_set (m : EmailMap) (k k' : string) (v : Candidate) :
  map_get (map_set m k v) k' = if String.eqb k k' then Some v else map_get m k'.
Proof.
  induction m as [|[k0 v0] m IH]; cbn [map_set map_get].
  - reflexivity.
  - destruct (String.eqb_spec k0 k) as [->|Hne]; cbn [map_get].
    + destruct (String.eqb k k'); reflexivity.
    + rewrite IH. destruct (String.eqb_spec k0 k') as [->|Hne'].
      * destruct (String.eqb_spec k k') as [->|_]; [contradiction|reflexivity].
      * reflexivity.
Qed.

Lemma map_set_keys (m : EmailMap) (k k' : string) (v : Candidate) :
  In k' (List.map fst (map_set m k v)) -> k' = k \/ In k' (List.map fst m).
Proof.
  induction m as [|[k0 v0] m IH]; cbn [map_set List.map fst In].
  - intros [<-|[]]. left. reflexivity.
  - destruct (String.eqb k0 k); cbn [List.map fst In]; intuition.
Qed.

Lemma wf_map_set (m : EmailMap) (k : string) (v : Candidate) :
  wf_map m -> email v = k -> wf_map (map_set m k v).
Proof.
  intros [Hnd Hall] Hv. induction m as [|[k0 v0] m IH]; cbn [map_set].
  - split; repeat constructor; [intros []|exact Hv].
  - cbn [List.map fst] in Hnd. apply NoDup_cons_iff in Hnd as [Hk0 Hnd].
    apply Forall_cons_iff in Hall as [Hv0 Hall]. cbn [fst snd] in Hv0.
    destruct (String.eqb_spec k0 k) as [->|Hne].
    + split; [constructor; assumption|constructor; [exact Hv|exact Hall]].
    + destruct (IH Hnd Hall) as [Hnd' Hall']. split.
      * cbn [List.map fst]. constructor; [|exact Hnd'].
        intros [Heq|Hin]%map_set_keys; [congruence|contradiction].
      * constructor; assumption.
Qed.

Lemma wf_map_get (m : EmailMap) (k : string) (v : Candidate) :
  wf_map m -> map_get m k = Some v -> email v = k.
Proof.
  intros [_ Hall]. induction m as [|[k0 v0] m IH]; cbn [map_get]; [discriminate|].
  apply Forall_cons_iff in Hall as [Hv0 Hall]. cbn [fst snd] in Hv0.
  destruct (String.eqb_spec k0 k) as [->|_]; [congruence|auto].
Qed.

Lemma map_get_values (m : EmailMap) (k : string) (v : Candidate) :
  map_get m k = Some v -> In v (map_values m).
Proof.
  induction m as [|[k0 v0] m IH]; cbn [map_get map_values List.map snd In];
    [discriminate|].
  destruct (String.eqb k0 k); [intros [= ->]; left; reflexivity|right; auto].
Qed.

Lemma map_values_emails (m : EmailMap) :
  wf_map m -> List.map email (map_values m) = List.map fst m.
Proof.
  intros [_ Hall]. induction Hall as [|[k v] m Hkv _ IH]; [reflexivity|].
  cbn [map_values List.map fst snd] in *. rewrite Hkv. f_equal. exact IH.
Qed.

Lemma map_values_get (m : EmailMap) (c : Candidate) :
  wf_map m -> In c (map_values m) -> map_get m (email c) = Some c.
Proof.
  intros Hwf Hin. pose proof (map_values_emails m Hwf) as Hkeys.
  destruct Hwf as [Hnd Hall].
  induction m as [|[k0 v0] m IH]; [destruct Hin|].
  cbn [List.map fst] in Hnd. apply NoDup_cons_iff in Hnd as [Hk0 Hnd].
  apply Forall_cons_iff in Hall as [Hv0 Hall]. cbn [fst snd] in Hv0.
  cbn [map_values List.map fst snd] in Hkeys. injection Hkeys as _ Hkeys.
  cbn [map_get]. cbn [map_values List.map snd In] in Hin. destruct Hin as [Heq|Hin].
  - subst v0. rewrite Hv0, String.eqb_refl. reflexivity.
  - destruct (String.eqb_spec k0 (email c)) as [->|_]; [|auto].
    exfalso. apply Hk0. rewrite <- Hkeys. apply in_map. exact Hin.
Qed.

Lemma mergeAi_get (m : EmailMap) (a : Candidate) (e : string) :
  map_get (mergeAi m a) e
  = if accepted (email a) && String.eqb (email a) e
    then absorb (map_get m e) a else map_get m e.
Proof.
  unfold mergeAi, accepted.
  destruct (isValidEmail (email a)); cbn [negb orb andb]; [|reflexivity].
  destruct (isJunkPrefix (email a)); cbn [negb andb]; [reflexivity|].
  destruct (String.eqb_spec (email a) e) as [<-|Hne].
  - destruct (map_get m (email a)); rewrite map_get_set, String.eqb_refl; reflexivity.
  - destruct (map_get m (email a)); rewrite map_get_set;
      (destruct (String.eqb_spec (email a) e); [contradiction|reflexivity]).
Qed.

Lemma mergeAi_wf (m : EmailMap) (a : Candidate) : wf_map m -> wf_map (mergeAi m a).
Proof.
  intros Hwf. unfold mergeAi. destruct (_ || _); [exact Hwf|].
  destruct (map_get m (email a)) as [x|] eqn:Hget; apply wf_map_set; try exact Hwf.
  - cbn [corroborate email]. eapply wf_map_get; eassumption.
  - reflexivity.
Qed.

Lemma fold_mergeAi_get (aiList : list Candidate) (m : EmailMap) (e : string) :
  map_get (fold_left mergeAi aiList m) e
  = fold_left absorb (acceptedFor e aiList) (map_get m e).
Proof.
  revert m. induction aiList as [|a aiList IH]; intros m; [reflexivity|].
  cbn [fold_left acceptedFor List.filter]. rewrite IH, mergeAi_get.
  fold (acceptedFor e aiList).
  destruct (accepted (email a) && String.eqb (email a) e); reflexivity.
Qed.

Lemma fold_mergeAi_wf (aiList : list Candidate) (m : EmailMap) :
  wf_map m -> wf_map (fold_left mergeAi aiList m).
Proof.
  revert m. induction aiList as [|a aiList IH]; intros m Hwf; [exact Hwf|].
  apply IH, mergeAi_wf, Hwf.
Qed.

Lemma fold_set_get (regexList : list Candidate) (m : EmailMap) (e : string) :
  map_get (fold_left (fun m r => map_set m (email r) r) regexList m) e
  = fold_left (fun o r => if String.eqb (email r) e then Some r else o)
              regexList (map_get m e).
Proof.
  revert m. induction regexList as [|r regexList IH]; intros m; [reflexivity|].
  cbn [fold_left]. rewrite IH, map_get_set. reflexivity.
Qed.

Lemma fold_set_wf (regexList : list Candidate) (m : EmailMap) :
  wf_map m -> wf_map (fold_left (fun m r => map_set m (email r) r) regexList m).
Proof.
  revert m. induction regexList as [|r regexList IH]; intros m Hwf; [exact Hwf|].
  apply IH, wf_map_set; [exact Hwf|reflexivity].
Qed.

Lemma wf_map_nil : wf_map [].
Proof. split; constructor. Qed.

Lemma merged_get (aiList regexList : list Candidate) (e : string) :
  map_get (fold_left mergeAi aiList
             (fold_left (fun m r => map_set m (email r) r) regexList [])) e
  = fold_left absorb (acceptedFor e aiList) (lastFor e regexList).
Proof. rewrite fold_mergeAi_get, fold_set_get. reflexivity. Qed.

Lemma merged_wf (aiList regexList : list Candidate) :
  wf_map (fold_left mergeAi aiList
            (fold_left (fun m r => map_set m (email r) r) regexList [])).
Proof. apply fold_mergeAi_wf, fold_set_wf, wf_map_nil. Qed.

(** The merged candidate for an address is the last pattern record for it,
    taken through every accepted external record for it in turn. *)
Lemma merged_entry (aiList regexList : list Candidate) (c : Candidate) :
  In c (mergeEmailResults aiList regexList)
  <-> fold_left absorb (acceptedFor (email c) aiList) (lastFor (email c) regexList) = Some c.
Proof.
  rewrite <- merged_get. unfold mergeEmailResults. split.
  - apply map_values_get, merged_wf.
  - apply map_get_values.
Qed.

Lemma merged_entry_for (aiList regexList : list Candidate) (e : string) (c : Candidate) :
  fold_left absorb (acceptedFor e aiList) (lastFor e regexList) = Some c ->
  In c (mergeEmailResults aiList regexList) /\ email c = e.
Proof.
  rewrite <- merged_get. unfold mergeEmailResults. intros H. split.
  - eapply map_get_values; eassumption.
  - eapply wf_map_get; [apply merged_wf|eassumption].
Qed.

Lemma merged_emails_NoDup (aiList regexList : list Candidate) :
  List.NoDup (List.map email (mergeEmailResults aiList regexList)).
Proof.
  unfold mergeEmailResults.
  rewrite (map_values_emails _ (merged_wf aiList regexList)). apply merged_wf.
Qed.

(** Two merged candidates with one address are one candidate. *)
Lemma merged_unique (aiList regexList : list Candidate) (c c' : Candidate) :
  In c (mergeEmailResults aiList regexList) ->
  In c' (mergeEmailResults aiList regexList) ->
  email c' = email c -> c' = c.
Proof.
  intros Hc Hc' He. apply merged_entry in Hc, Hc'. rewrite He in Hc'. congruence.
Qed.

End Merge.

(** ** Ranking *)

Section Ranking.
Import Js Email.

Lemma insertByPriority_perm (x : Candidate) (l : list Candidate) :
  Permutation (insertByPriority x l) (x :: l).
Proof.
  induction l as [|y l IH]; cbn [insertByPriority]; [reflexivity|].
  destruct (_ <=? _)%nat; [reflexivity|].
  rewrite IH. apply perm_swap.
Qed.

Lemma sortByPriority_perm (l : list Candidate) : Permutation (sortByPriority l) l.
Proof.
  induction l as [|x l IH]; cbn [sortByPriority]; [reflexivity|].
  rewrite insertByPriority_perm, IH. reflexivity.
Qed.

Lemma insertByPriority_sorted (x : Candidate) (l : list Candidate) :
  StronglySorted ranksBefore l -> StronglySorted ranksBefore (insertByPriority x l).
Proof.
  induction 1 as [|y l Hl IH Hy]; cbn [insertByPriority].
  - repeat constructor.
  - destruct (Nat.leb_spec (priorityOf x) (priorityOf y)) as [Hle|Hgt].
    + constructor; [constructor; assumption|].
      constructor; [exact Hle|].
      eapply List.Forall_impl; [|exact Hy]. unfold ranksBefore. intros z Hz. lia.
    + constructor; [exact IH|].
      eapply Permutation_Forall; [symmetry; apply insertByPriority_perm|].
      constructor; [unfold ranksBefore; lia|exact Hy].
Qed.

Lemma sortByPriority_sorted (l : list Candidate) :
  StronglySorted ranksBefore (sortByPriority l).
Proof.
  induction l as [|x l IH]; cbn [sortByPriority]; [constructor|].
  apply insertByPriority_sorted, IH.
Qed.

(** Inserting [x] puts it at the head of its own bucket and leaves the
    other buckets alone. *)
Lemma bucket_insertByPriority (p : nat) (x : Candidate) (l : list Candidate) :
  bucket p (insertByPriority x l) = bucket p (x :: l).
Proof.
  unfold bucket. induction l as [|y l IH]; cbn [insertByPriority]; [reflexivity|].
  destruct (Nat.leb_spec (priorityOf x) (priorityOf y)) as [Hle|Hgt]; [reflexivity|].
  cbn [List.filter] in *. rewrite IH.
  destruct (Nat.eqb_spec (priorityOf x) p) as [Hx|Hx]; [|reflexivity].
  destruct (Nat.eqb_spec (priorityOf y) p) as [Hy|Hy]; [lia|reflexivity].
Qed.

Lemma bucket_sortByPriority (p : nat) (l : list Candidate) :
  bucket p (sortByPriority l) = bucket p l.
Proof.
  induction l as [|x l IH]; cbn [sortByPriority]; [reflexivity|].
  rewrite bucket_insertByPriority. unfold bucket in *. cbn [List.filter].
  rewrite IH. reflexivity.
Qed.

Lemma in_firstn {A} (n : nat) (l : list A) (x : A) : In x (firstn n l) -> In x l.
Proof.
  revert n. induction l as [|y l IH]; intros [|n]; cbn [firstn In]; try tauto.
  intros [->|H]; [left; reflexivity|right; eauto].
Qed.

Lemma in_skipn {A} (n : nat) (l : list A) (x : A) : In x (skipn n l) -> In x l.
Proof.
  revert n. induction l as [|y l IH]; intros [|n]; cbn [skipn In]; try tauto.
  intros H. right. eauto.
Qed.

Lemma sorted_split (l : list Candidate) (n : nat) (x y : Candidate) :
  StronglySorted ranksBefore l ->
  In x (firstn n l) -> In y (skipn n l) -> ranksBefore x y.
Proof.
  intros Hs. revert n. induction Hs as [|z l Hl IH Hz]; intros n Hx Hy.
  - destruct n; destruct Hx.
  - destruct n as [|n]; [destruct Hx|].
    cbn [firstn skipn In] in Hx, Hy. destruct Hx as [<-|Hx].
    + rewrite List.Forall_forall in Hz. apply Hz.
      apply (in_skipn n). exact Hy.
    + eapply IH; eassumption.
Qed.

Lemma slice0_nonneg {A} (l : list A) (n : Z) :
  0 <= n -> slice0 l n = firstn (Z.to_nat n) l.
Proof. intros Hn. unfold slice0. destruct (Z.ltb_spec n 0); [lia|reflexivity]. Qed.

Lemma slice0_In {A} (l : list A) (n : Z) (x : A) : In x (slice0 l n) -> In x l.
Proof. unfold slice0. destruct (n <? 0); apply in_firstn. Qed.

Lemma pickBestEmails_In (emails : list Candidate) (n : Z) (c : Candidate) :
  In c (pickBestEmails emails n) -> In c emails.
Proof.
  intros Hin%slice0_In. eapply Permutation_in; [apply sortByPriority_perm|exact Hin].
Qed.

(** The priority of a listed local part is its place in the list. *)
Lemma priorityOf_listed (e : Candidate) (i : nat) (p : string) :
  nth_error priorityOrder i = Some p ->
  localPart (email e) = p ->
  priorityOf e = i.
Proof.
  intros Hnth Hlocal. unfold priorityOf. rewrite Hlocal.
  do 11 (destruct i as [|i]; [injection Hnth as <-; reflexivity|]).
  destruct i; discriminate.
Qed.

End Ranking.

(** ** Extraction *)

Section Extraction.
Import Js Email.

Lemma lastFor_from (e : string) (l : list Candidate) (o : option Candidate) (r : Candidate) :
  fold_left (fun o r => if String.eqb (email r) e then Some r else o) l o = Some r ->
  o = Some r \/ (In r l /\ email r = e).
Proof.
  revert o. induction l as [|x l IH]; intros o; cbn [fold_left]; [auto|].
  intros [H|[H1 H2]]%IH.
  - destruct (String.eqb_spec (email x) e) as [He|_]; [|left; exact H].
    injection H as ->. right. split; [left; reflexivity|exact He].
  - right. split; [right; exact H1|exact H2].
Qed.

Lemma lastFor_In (e : string) (l : list Candidate) (r : Candidate) :
  lastFor e l = Some r -> In r l /\ email r = e.
Proof. intros [H|H]%lastFor_from; [discriminate|exact H]. Qed.

Lemma lastFor_absent (e : string) (l : list Candidate) :
  (forall r, In r l -> email r <> e) -> lastFor e l = None.
Proof.
  intros Habs. destruct (lastFor e l) as [r|] eqn:H; [|reflexivity].
  apply lastFor_In in H as [Hin He]. exfalso. exact (Habs r Hin He).
Qed.

Lemma acceptedFor_absent (e : string) (l : list Candidate) :
  (forall a, In a l -> email a <> e) -> acceptedFor e l = [].
Proof.
  intros Habs. unfold acceptedFor. induction l as [|a l IH]; [reflexivity|].
  cbn [List.filter].
  destruct (String.eqb_spec (email a) e) as [He|_].
  - exfalso. apply (Habs a); [left; reflexivity|exact He].
  - rewrite andb_false_r. apply IH. intros a' Ha'. apply Habs. right. exact Ha'.
Qed.

Lemma acceptedFor_In (e : string) (l : list Candidate) (a : Candidate) :
  In a (acceptedFor e l) -> In a l /\ accepted (email a) = true /\ email a = e.
Proof.
  unfold acceptedFor. rewrite filter_In.
  intros [Hin [Hacc He%String.eqb_eq]%andb_prop]. auto.
Qed.

Lemma accepted_clean (e : string) :
  accepted e = true -> isValidEmail e = true /\ isJunkPrefix e = false.
Proof.
  unfold accepted. intros [Hv Hj%negb_true_iff]%andb_prop. auto.
Qed.

(** The address of an entry is not changed by the records it absorbs. *)
Lemma absorb_email (l : list Candidate) (x c : Candidate) :
  fold_left absorb l (Some x) = Some c -> email c = email x.
Proof.
  revert x. induction l as [|a l IH]; intros x; cbn [fold_left absorb].
  - intros [= ->]. reflexivity.
  - intros H%IH. exact H.
Qed.

Lemma push_clean (sourceUrl : string) (st : RegexState) (raw : string) :
  Forall (fun c => clean (email c)) (out st) ->
  Forall (fun c => clean (email c)) (out (push sourceUrl st raw)).
Proof.
  intros Hall. unfold push. cbv zeta.
  destruct (_ || _); [exact Hall|].
  destruct (isValidEmail (normalizeEmail raw)) eqn:Hvalid; cbn [negb]; [|exact Hall].
  destruct (isJunkPrefix (normalizeEmail raw)) eqn:Hjunk; [exact Hall|].
  cbn [out]. apply Forall_app. split; [exact Hall|].
  constructor; [|constructor]. cbn [email].
  split; [apply normalizeEmail_idem|split; assumption].
Qed.

Lemma fold_push_clean (sourceUrl : string) (raws : list string) (st : RegexState) :
  Forall (fun c => clean (email c)) (out st) ->
  Forall (fun c => clean (email c)) (out (fold_left (push sourceUrl) raws st)).
Proof.
  revert st. induction raws as [|raw raws IH]; intros st Hall; [exact Hall|].
  apply IH, push_clean, Hall.
Qed.

Lemma extractEmailsRegex_clean (mailto matches : list string) (sourceUrl : string) :
  Forall (fun c => clean (email c)) (extractEmailsRegex mailto matches sourceUrl).
Proof.
  unfold extractEmailsRegex. cbv zeta. do 2 apply fold_push_clean. constructor.
Qed.

Lemma llmCandidates_normalized (emails : list LlmEmail) (sourceUrl : string) :
  Forall (fun c => normalizeEmail (email c) = email c) (llmCandidates emails sourceUrl).
Proof.
  induction emails as [|e emails IH]; cbn [llmCandidates]; [constructor|].
  destruct (_ || _); [exact IH|]. constructor; [|exact IH].
  cbn [email]. apply (normalizeEmail_idem (llm_email e)).
Qed.

Lemma collect_clean (enableAi : bool) (pages : list PageScan)
      (allRegex allAi : list Candidate) :
  Forall (fun c => clean (email c)) allRegex ->
  Forall (fun c => normalizeEmail (email c) = email c) allAi ->
  Forall (fun c => clean (email c)) (fst (collect enableAi pages allRegex allAi))
  /\ Forall (fun c => normalizeEmail (email c) = email c)
            (snd (collect enableAi pages allRegex allAi)).
Proof.
  revert allRegex allAi. induction pages as [|p pages IH]; intros allRegex allAi Hr Ha;
    cbn [collect]; [split; assumption|].
  apply IH.
  - apply Forall_app. split; [exact Hr|apply extractEmailsRegex_clean].
  - destruct (_ && _); [|exact Ha].
    apply Forall_app. split; [exact Ha|apply llmCandidates_normalized].
Qed.

(** Whatever the two lists hold, a merged address comes from a pattern
    record or from an external record that passed the two filters. *)
Lemma merged_clean (aiList regexList : list Candidate) (c : Candidate) :
  Forall (fun c => clean (email c)) regexList ->
  Forall (fun c => normalizeEmail (email c) = email c) aiList ->
  In c (mergeEmailResults aiList regexList) -> clean (email c).
Proof.
  intros Hr Ha Hin. apply merged_entry in Hin.
  destruct (acceptedFor (email c) aiList) as [|a rest] eqn:Hacc.
  - cbn [fold_left] in Hin. apply lastFor_In in Hin as [Hin _].
    rewrite List.Forall_forall in Hr. apply Hr, Hin.
  - assert (Ha' : In a (acceptedFor (email c) aiList)) by (rewrite Hacc; left; reflexivity).
    apply acceptedFor_In in Ha' as (Hin' & Hok & He).
    rewrite List.Forall_forall in Ha. specialize (Ha a Hin').
    apply accepted_clean in Hok as [Hv Hj]. rewrite He in *.
    split; [exact Ha|split; assumption].
Qed.

End Extraction.

(** ** Snowball *)

Section SnowballFacts.
Import Js Scheduler.

Variable cfg : Config.

Lemma snowball_waiting (st : State) (t : Task) (outbound : list string) :
  waiting (snowball cfg st t outbound) = (waiting st ++ snowballed cfg st t outbound)%list.
Proof.
  unfold snowball, snowballed. destruct (_ && _); [|rewrite app_nil_r; reflexivity].
  apply fold_snowballOne.
Qed.

Lemma filter_length_le {A} (f : A -> bool) (l : list A) :
  (List.length (List.filter f l) <= List.length l)%nat.
Proof.
  induction l as [|x l IH]; cbn [List.filter List.length]; [lia|].
  destruct (f x); cbn [List.length]; lia.
Qed.

Lemma filter_all {A} (f : A -> bool) (l : list A) :
  Forall (fun x => f x = true) l -> List.filter f l = l.
Proof.
  induction 1 as [|x l Hx _ IH]; cbn [List.filter]; [reflexivity|].
  rewrite Hx, IH. reflexivity.
Qed.

Lemma snowballed_bound (st : State) (t : Task) (outbound : list string) :
  0 <= snowballMaxPerSource cfg ->
  Z.of_nat (List.length (snowballed cfg st t outbound)) <= snowballMaxPerSource cfg.
Proof.
  intros Hmax. unfold snowballed. destruct (_ && _); [|simpl; lia].
  rewrite length_map, slice0_nonneg by exact Hmax.
  etransitivity; [apply inj_le, filter_length_le|].
  rewrite length_firstn. lia.
Qed.

Lemma snowballed_depth (st : State) (t : Task) (outbound : list string) :
  Forall (fun t' => depth t' = depth t + 1) (snowballed cfg st t outbound).
Proof.
  unfold snowballed. destruct (_ && _); [|constructor].
  apply List.Forall_forall. intros t' [sd [<- _]]%in_map_iff. reflexivity.
Qed.

Lemma snowballed_all (st : State) (t : Task) (outbound : list string) :
  0 <= snowballMaxPerSource cfg ->
  snowballEnabled cfg = true ->
  depth t < snowballMaxDepth cfg ->
  Forall (fun sd => Region.isTurkeyBasedDomain sd = false) outbound ->
  Forall (fun sd => sd ∉ processedDomains st) outbound ->
  snowballed cfg st t outbound
  = List.map (snowTask (domainOf (rec t)) (depth t))
             (firstn (Z.to_nat (snowballMaxPerSource cfg)) outbound).
Proof.
  intros Hmax Hen Hdepth Hregion Hfresh. unfold snowballed.
  rewrite Hen. destruct (Z.ltb_spec (depth t) (snowballMaxDepth cfg)); [|lia].
  cbn [andb]. rewrite slice0_nonneg by exact Hmax. f_equal.
  rewrite (filter_all (fun sd => negb (Region.isTurkeyBasedDomain sd)) outbound).
  - apply filter_all. apply List.Forall_forall. intros sd Hsd%in_firstn.
    rewrite List.Forall_forall in Hfresh. apply negb_true_iff, bool_decide_eq_false.
    apply Hfresh, Hsd.
  - eapply List.Forall_impl; [|exact Hregion]. intros sd ->. reflexivity.
Qed.

Lemma snowTask_domains (source : string) (d : Z) (l : list string) :
  List.map (fun t' => domainOf (rec t')) (List.map (snowTask source d) l) = l.
Proof.
  induction l as [|sd l IH]; [reflexivity|].
  cbn [List.map snowTask rec domainOf snowRec domain]. f_equal. exact IH.
Qed.

Lemma snowballed_off (st : State) (t : Task) (outbound : list string) :
  snowballEnabled cfg = false \/ snowballMaxDepth cfg <= depth t ->
  snowballed cfg st t outbound = [].
Proof.
  intros H. unfold snowballed.
  destruct (snowballEnabled cfg); [|reflexivity]. destruct H as [H|H]; [discriminate|].
  destruct (Z.ltb_spec (depth t) (snowballMaxDepth cfg)); [lia|reflexivity].
Qed.

Lemma snowballed_domains (st : State) (t : Task) (outbound : list string) :
  0 <= snowballMaxPerSource cfg ->
  snowballEnabled cfg = true ->
  depth t < snowballMaxDepth cfg ->
  List.map (fun t' => domainOf (rec t')) (snowballed cfg st t outbound)
  = List.filter (fun sd => negb (bool_decide (sd ∈ processedDomains st)))
      (firstn (Z.to_nat (snowballMaxPerSource cfg))
         (List.filter (fun sd => negb (Region.isTurkeyBasedDomain sd)) outbound)).
Proof.
  intros Hmax Hen Hdepth. unfold snowballed.
  rewrite Hen. destruct (Z.ltb_spec (depth t) (snowballMaxDepth cfg)); [|lia].
  cbn [andb]. rewrite slice0_nonneg by exact Hmax. apply snowTask_domains.
Qed.

Lemma snowballed_records (st : State) (t : Task) (outbound : list string) :
  Forall (fun t' =>
            exists sd,
              In sd outbound
              /\ Region.isTurkeyBasedDomain sd = false
              /\ (sd ∉ processedDomains st)
              /\ rec t' = Obj {| domain := sd;
                                 sampleUrl := "https://" ++ sd;
                                 queryUsed := "snowball:" ++ domainOf (rec t);
                                 title := "";
                                 snippet := "Discovered via partner link on "
                                            ++ domainOf (rec t);
                                 country := "";
                                 city := "" |})
         (snowballed cfg st t outbound).
Proof.
  unfold snowballed. destruct (_ && _); [|constructor].
  apply List.Forall_forall. intros t' (sd & <- & Hsd)%in_map_iff.
  apply filter_In in Hsd as [Hsd%slice0_In Hfresh]. apply filter_In in Hsd as [Hin Hregion].
  exists sd. split; [exact Hin|]. split; [apply negb_true_iff, Hregion|].
  split; [|reflexivity]. apply negb_true_iff, bool_decide_eq_false in Hfresh. exact Hfresh.
Qed.

End SnowballFacts.

(** ** Merge, by address *)

Section MergeFacts.
Import Js Email.

Lemma acceptedFor_recordsFor (e : string) (l : list Candidate) :
  accepted e = true -> acceptedFor e l = recordsFor e l.
Proof.
  intros Hacc. unfold acceptedFor, recordsFor.
  induction l as [|a l IH]; [reflexivity|]. cbn [List.filter]. rewrite IH.
  destruct (String.eqb_spec (email a) e) as [->|_]; [rewrite Hacc|rewrite andb_false_r];
    reflexivity.
Qed.

Lemma absorb_fold (l : list Candidate) (x : Candidate) :
  fold_left absorb l (Some x) = Some (fold_left corroborate l x).
Proof.
  revert x. induction l as [|a l IH]; intros x; [reflexivity|].
  cbn [fold_left absorb]. apply IH.
Qed.

Lemma corroborate_type (l : list Candidate) (x : Candidate) :
  email_type (fold_left corroborate l x) = fold_left overrideType l (email_type x).
Proof.
  revert x. induction l as [|a l IH]; intros x; [reflexivity|].
  cbn [fold_left]. rewrite IH. reflexivity.
Qed.

Lemma Math_max_cases (x y : Q) : Math_max x y = x \/ Math_max x y = y.
Proof. unfold Math_max. destruct (Qle_bool x y); auto. Qed.

Lemma Math_max_upper (x y : Q) : (x <= Math_max x y)%Q /\ (y <= Math_max x y)%Q.
Proof.
  unfold Math_max. destruct (Qle_bool x y) eqn:H.
  - apply Qle_bool_iff in H. split; [exact H|apply Qle_refl].
  - split; [apply Qle_refl|].
    apply Qlt_le_weak, Qnot_le_lt. intros Hle. apply Qle_bool_iff in Hle. congruence.
Qed.

Lemma clean_accepted (e : string) : clean e -> accepted e = true.
Proof. intros (_ & Hv & Hj). unfold accepted. rewrite Hv, Hj. reflexivity. Qed.

Lemma regex_record_accepted (regexList : list Candidate) (e : string) (r : Candidate) :
  Forall (fun r => clean (email r)) regexList ->
  lastFor e regexList = Some r -> accepted e = true.
Proof.
  intros Hclean [Hin <-]%lastFor_In. apply clean_accepted.
  rewrite List.Forall_forall in Hclean. apply Hclean, Hin.
Qed.

End MergeFacts.

(** * The stated properties *)

(** C5.  Validation boundary: [info@site.com] and [sales@site.com.tr] are
    accepted, [info@site.comphone] and [office@site.com.you] are rejected.
    An address whose last label has more than six characters, starts with
    one of the common TLDs and goes on after it is rejected; an address
    whose last two labels are one of com, net, org, co, travel, tours and
    a label of one to four letters that is not in the country-code list is
    rejected; a last label in the country-code list is never rejected by
    that second rule. *)
Theorem validation_boundary :
  Email.isValidEmail "info@site.com" = true
  /\ Email.isValidEmail "sales@site.com.tr" = true
  /\ Email.isValidEmail "info@site.comphone" = false
  /\ Email.isValidEmail "office@site.com.you" = false
  /\ (forall email local domain rest tld prefix,
        Js.split "@" email = local :: domain :: rest ->
        tld = List.last (Js.split "." domain) EmptyString ->
        (6 < String.length tld)%nat ->
        In prefix Email.COMMON_TLD_PREFIXES ->
        Js.startsWith tld prefix = true ->
        (String.length prefix < String.length tld)%nat ->
        Email.isValidEmail email = false)
  /\ (forall email local domain rest labels label tld,
        Js.split "@" email = local :: domain :: rest ->
        Js.split "." domain = (labels ++ [label; tld])%list ->
        In label Email.SECOND_LEVEL_LABELS ->
        Js.forall_chars Js.is_letter tld = true ->
        (1 <= String.length tld <= 4)%nat ->
        Js.arr_includes Email.realCcTlds (Js.toLowerCase tld) = false ->
        Email.isValidEmail email = false)
  /\ (forall parts,
        Js.arr_includes Email.realCcTlds (Js.toLowerCase (List.last parts EmptyString)) = true ->
        Email.secondLevelJunk parts = false).
Proof.
  split; [vm_compute; reflexivity|].
  split; [vm_compute; reflexivity|].
  split; [vm_compute; reflexivity|].
  split; [vm_compute; reflexivity|].
  split; [|split].
  - intros email local domain rest tld prefix Hsplit -> Hlen Hin Hstart Hlonger.
    eapply trailing_text_rejected; [exact Hsplit|].
    unfold Email.tldHasTrailingText. apply andb_true_intro. split.
    + apply Nat.ltb_lt. exact Hlen.
    + apply existsb_exists. exists prefix. split; [exact Hin|].
      rewrite Hstart. apply Nat.ltb_lt. exact Hlonger.
  - intros email local domain rest labels label tld.
    apply second_level_rejected.
  - apply country_code_spared.
Qed.

Lemma validation_boundary_witness :
  Email.isValidEmail "book@sunny.travelagency" = false
  /\ Email.isValidEmail "jane@acme.co.xyz" = false
  /\ Email.secondLevelJunk ["acme"; "co"; "uk"] = false.
Proof.
  destruct validation_boundary as (_ & _ & _ & _ & Htrail & Hsecond & Hcc).
  split; [|split].
  - apply (Htrail "book@sunny.travelagency" "book" "sunny.travelagency" []
                  "travelagency" "travel");
      [reflexivity | reflexivity | vm_compute; lia | vm_compute; tauto
      | reflexivity | vm_compute; lia].
  - apply (Hsecond "jane@acme.co.xyz" "jane" "acme.co.xyz" [] ["acme"] "co" "xyz");
      [reflexivity | reflexivity | vm_compute; tauto | reflexivity
      | vm_compute; lia | reflexivity].
  - apply Hcc. reflexivity.
Defined.

(** C8.  Whatever function lower-cases the text and the block list (the
    code uses [String.prototype.toLowerCase]), the relevance score is the
    sum of 2 when a core-region term occurs in the lower-cased text, of 1
    for each of the (pairwise distinct) destination terms that occurs in
    it, and of -2, once, when a lower-cased block-list keyword occurs in it.
    A text with a core-region term, exactly one destination term and no
    block-list keyword scores 3.  The scheduler emits the rows of a domain
    when the score is at least [minScore] and logs a skip when it is below:
    with a score of 3 the domain is kept at [minScore = 2] and skipped at
    [minScore = 4]. *)
Theorem relevance_score_threshold (toLowerCase : string -> string) :
  (forall combinedText unrelatedKeywords,
      let text := toLowerCase combinedText in
      Relevance.relevanceScore
        (Relevance.scoreRelevance toLowerCase combinedText unrelatedKeywords)
      = Relevance.coreBonus text + Z.of_nat (Relevance.destinationHits text)
        - Relevance.blockPenalty text (List.map toLowerCase unrelatedKeywords))
  /\ List.NoDup Relevance.DESTINATION_TERMS
  /\ (forall combinedText unrelatedKeywords,
        let text := toLowerCase combinedText in
        existsb (fun t => Js.includes text t) Relevance.TURKEY_TERMS = true ->
        Relevance.destinationHits text = 1%nat ->
        existsb (fun k => Js.includes text k) (List.map toLowerCase unrelatedKeywords) = false ->
        Relevance.relevanceScore
          (Relevance.scoreRelevance toLowerCase combinedText unrelatedKeywords) = 3)
  /\ (forall cfg st t pages,
        let score := Relevance.relevanceScore
                       (Relevance.scoreRelevance toLowerCase (Scheduler.joinHtml pages)
                                                 (Scheduler.unrelatedKeywords cfg)) in
        let emails := Email.extractEmailsFromPages (List.map Scheduler.scan pages)
                                                   (Scheduler.enableAiExtract cfg) 5 in
        let st' := Scheduler.processOne_extracted toLowerCase cfg st t pages in
        (Scheduler.minScore cfg <= score ->
         Scheduler.allRows st'
         = (Scheduler.allRows st ++ List.map (Scheduler.leadRow t score) emails)%list
         /\ Scheduler.skipped st' = Scheduler.skipped st)
        /\ (score < Scheduler.minScore cfg ->
            Scheduler.allRows st' = Scheduler.allRows st
            /\ Scheduler.skipped st'
               = (Scheduler.skipped st
                  ++ [(Scheduler.domainOf (Scheduler.rec t), "score below threshold")])%list)
        /\ (score = 3 -> Scheduler.minScore cfg = 2 ->
            Scheduler.allRows st'
            = (Scheduler.allRows st ++ List.map (Scheduler.leadRow t 3) emails)%list
            /\ Scheduler.skipped st' = Scheduler.skipped st)
        /\ (score = 3 -> Scheduler.minScore cfg = 4 ->
            Scheduler.allRows st' = Scheduler.allRows st
            /\ Scheduler.skipped st'
               = (Scheduler.skipped st
                  ++ [(Scheduler.domainOf (Scheduler.rec t), "score below threshold")])%list)).
Proof.
  split; [intros; apply scoreRelevance_sum|].
  split; [repeat (constructor; [vm_compute; intuition discriminate|]); constructor|].
  split.
  - intros combinedText unrelatedKeywords text Hcore Hone Hblock.
    rewrite scoreRelevance_sum. fold text.
    unfold Relevance.coreBonus, Relevance.blockPenalty.
    rewrite Hcore, Hone, Hblock. reflexivity.
  - intros cfg st t pages score emails st'.
    assert (Hkeep : Scheduler.minScore cfg <= score ->
                    Scheduler.allRows st'
                    = (Scheduler.allRows st ++ List.map (Scheduler.leadRow t score) emails)%list
                    /\ Scheduler.skipped st' = Scheduler.skipped st).
    { intros Hle. subst st'. unfold Scheduler.processOne_extracted. cbv zeta.
      fold score. destruct (Z.ltb_spec score (Scheduler.minScore cfg)); [lia|].
      destruct (_ && _); split; reflexivity. }
    assert (Hskip : score < Scheduler.minScore cfg ->
                    Scheduler.allRows st' = Scheduler.allRows st
                    /\ Scheduler.skipped st'
                       = (Scheduler.skipped st
                          ++ [(Scheduler.domainOf (Scheduler.rec t),
                               "score below threshold")])%list).
    { intros Hlt. subst st'. unfold Scheduler.processOne_extracted. cbv zeta.
      fold score. destruct (Z.ltb_spec score (Scheduler.minScore cfg)); [|lia].
      split; reflexivity. }
    split; [exact Hkeep|]. split; [exact Hskip|]. split.
    + intros Hs Hmin. rewrite <- Hs. apply Hkeep. lia.
    + intros Hs Hmin. apply Hskip. lia.
Qed.

(** On a text of ASCII characters [String.prototype.toLowerCase] is
    [Js.toLowerCase]. *)
Lemma relevance_score_threshold_witness :
  Relevance.relevanceScore
    (Relevance.scoreRelevance Js.toLowerCase
       "Small-group tours in Turkey, from Antalya" ["casino"]) = 3
  /\ (let cfg := {| Scheduler.concurrency := 10; Scheduler.minScore := 4;
                    Scheduler.unrelatedKeywords := ["casino"];
                    Scheduler.enableAiExtract := false;
                    Scheduler.snowballEnabled := false;
                    Scheduler.snowballMaxDepth := 1;
                    Scheduler.snowballMaxPerSource := 10;
                    Scheduler.csvPath := true |} in
      let t := {| Scheduler.rec := Scheduler.Str "sunny-tours.co.uk"; Scheduler.depth := 0 |} in
      let pages := [ {| Scheduler.scan := {| Email.url := "https://sunny-tours.co.uk/";
                                             Email.mailto := ["info@sunny-tours.co.uk"];
                                             Email.matches := [];
                                             Email.hasVisibleText := true;
                                             Email.llmReply := [] |};
                        Scheduler.html := "Small-group tours in Turkey, from Antalya" |} ] in
      Scheduler.allRows
        (Scheduler.processOne_extracted Js.toLowerCase cfg Scheduler.init t pages) = []).
Proof.
  destruct (relevance_score_threshold Js.toLowerCase) as (_ & _ & Hthree & Hgate).
  split.
  - apply Hthree; vm_compute; reflexivity.
  - intros cfg t pages.
    destruct (Hgate cfg Scheduler.init t pages) as (_ & _ & _ & Hskip).
    apply Hskip; [|reflexivity].
    apply Hthree; vm_compute; reflexivity.
Defined.

(** C7 (amended).  [fetchWithRetry] issues at most [retries] requests.  The
    first request that succeeds ends it with the body of that response,
    after one request and one pause for each failed turn before it.  When
    [retries] is at least 1 and every request fails, it throws the value
    the last request was rejected with, that very value and nothing built
    around it, after [retries] requests.  The pause after the failed turn
    [i] is one sleep of [retryDelaysMs[i]] when [i < retries - 1] and that
    entry exists, and nothing otherwise; so there is no pause after the last
    turn. *)
Theorem fetchWithRetry_outcomes {E : Type} (url : string) (opts : Fetch.Options)
        (net : nat -> Fetch.Outcome E) :
  let n := Z.to_nat (Fetch.retries opts) in
  let r := Fetch.fetchWithRetry url opts net in
  (Fetch.requests (fst r) <= n)%nat
  /\ (forall k data,
        (k < n)%nat ->
        net k = Fetch.Resolved data ->
        (forall j, (j < k)%nat -> exists e, net j = Fetch.Rejected e) ->
        r = ((Fetch.failedTurns url opts 0 k ++ [Fetch.Request url])%list, Fetch.Return data))
  /\ (1 <= Fetch.retries opts ->
      (forall j, (j < n)%nat -> exists e, net j = Fetch.Rejected e) ->
      exists e, net (n - 1)%nat = Fetch.Rejected e
                /\ r = (Fetch.failedTurns url opts 0 n, Fetch.Throw (Some e)))
  /\ (forall i d,
        Z.of_nat i < Fetch.retries opts - 1 ->
        nth_error (Fetch.retryDelaysMs opts) i = Some d ->
        Fetch.backoff opts i = [Fetch.Sleep d])
  /\ (forall i,
        Fetch.retries opts - 1 <= Z.of_nat i \/ nth_error (Fetch.retryDelaysMs opts) i = None ->
        Fetch.backoff opts i = []).
Proof.
  intros n r. split; [apply attempts_bound|]. split; [|split; [|split]].
  - intros k data Hk Hok Hfail. subst r. unfold Fetch.fetchWithRetry. fold n.
    apply attempts_first_success; [exact Hk|exact Hok|exact Hfail].
  - intros Hone Hfail. subst r. unfold Fetch.fetchWithRetry. fold n.
    rewrite (attempts_all_fail url opts net n 0 None Hfail).
    destruct n as [|m] eqn:Hn; [lia|].
    destruct (Hfail m ltac:(lia)) as [e He].
    exists e. cbn [Nat.add]. replace (S m - 1)%nat with m by lia.
    rewrite He. split; reflexivity.
  - intros i d Hi Hd. unfold Fetch.backoff.
    destruct (Z.ltb_spec (Z.of_nat i) (Fetch.retries opts - 1)); [|lia].
    rewrite Hd. reflexivity.
  - intros i [Hi|Hd]; unfold Fetch.backoff.
    + destruct (Z.ltb_spec (Z.of_nat i) (Fetch.retries opts - 1)); [lia|reflexivity].
    + rewrite Hd. destruct (_ <? _); reflexivity.
Qed.

Lemma fetchWithRetry_outcomes_witness :
  let opts := {| Fetch.retries := 3; Fetch.retryDelaysMs := [1000; 2000; 4000] |} in
  Fetch.fetchWithRetry "https://acme.example/contact" opts
    (fun i => if (i <? 2)%nat then Fetch.Rejected "timeout" else Fetch.Resolved "<html/>")
  = ([Fetch.Request "https://acme.example/contact"; Fetch.Sleep 1000;
      Fetch.Request "https://acme.example/contact"; Fetch.Sleep 2000;
      Fetch.Request "https://acme.example/contact"], Fetch.Return "<html/>")
  /\ Fetch.fetchWithRetry "https://acme.example/contact" opts
       (fun i => Fetch.Rejected (if (i =? 2)%nat then "ECONNRESET" else "timeout"))
     = ([Fetch.Request "https://acme.example/contact"; Fetch.Sleep 1000;
         Fetch.Request "https://acme.example/contact"; Fetch.Sleep 2000;
         Fetch.Request "https://acme.example/contact"], Fetch.Throw (Some "ECONNRESET")).
Proof.
  intros opts. split.
  - destruct (fetchWithRetry_outcomes "https://acme.example/contact" opts
                (fun i => if (i <? 2)%nat then Fetch.Rejected "timeout"
                          else Fetch.Resolved "<html/>"))
      as (_ & Hfirst & _).
    apply (Hfirst 2%nat "<html/>"); [vm_compute; lia|reflexivity|].
    intros j Hj. exists "timeout".
    destruct j as [|[|j]]; [reflexivity|reflexivity|lia].
  - destruct (fetchWithRetry_outcomes "https://acme.example/contact" opts
                (fun i => Fetch.Rejected (if (i =? 2)%nat then "ECONNRESET" else "timeout")))
      as (_ & _ & Hall & _).
    destruct Hall as [e [He Hr]].
    + vm_compute. discriminate.
    + intros j _. eexists. reflexivity.
    + cbv zeta in Hr. rewrite Hr. vm_compute in He. injection He as <-. reflexivity.
Defined.

(** C7, as first stated, fails.  With [retries = 1] and a request that
    times out, one request is made and what is thrown is the error of the
    HTTP client itself: an [AxiosError], which is no [FetchError] and wraps
    no cause.  With [retries = 0] no request is made and what is thrown is
    [undefined]. *)
Lemma fetchWithRetry_rethrows_cause :
  let url := "https://acme.example/contact" in
  let cause := Fetch.axiosError url "timeout of 15000ms exceeded" in
  let once := {| Fetch.retries := 1; Fetch.retryDelaysMs := [1000; 2000; 4000] |} in
  let never := {| Fetch.retries := 0; Fetch.retryDelaysMs := [1000; 2000; 4000] |} in
  (Fetch.fetchWithRetry url once (fun _ => Fetch.Rejected cause)
   = ([Fetch.Request url], Fetch.Throw (Some cause))
   /\ ~ Fetch.isFetchError url cause cause
   /\ ~ exists e, snd (Fetch.fetchWithRetry url once (fun _ => Fetch.Rejected cause))
                  = Fetch.Throw (Some e)
                  /\ Fetch.isFetchError url cause e)
  /\ (Fetch.fetchWithRetry url never (fun _ => Fetch.Rejected cause) = ([], Fetch.Throw None)
      /\ ~ exists e, snd (Fetch.fetchWithRetry url never (fun _ => Fetch.Rejected cause))
                     = Fetch.Throw (Some e)).
Proof.
  intros url cause once never. split; [split; [reflexivity|split]|split; [reflexivity|]].
  - intros (Hname & _). vm_compute in Hname. discriminate.
  - intros (e & He & Hname & _). vm_compute in He. injection He as <-.
    vm_compute in Hname. discriminate.
  - intros [e He]. vm_compute in He. discriminate.
Qed.

(** C1.  Whatever the sequence of submissions, task starts and
    completions (and whatever function lower-cases the page text), no host
    name is in the log of crawl calls more than once, and a host name that
    is in it is in the processed set.  Once a host name is in the processed
    set it stays there, and a task for it that starts later returns at once:
    the state, and with it the crawl log, is as it was. *)
Theorem crawl_at_most_once (toLowerCase : string -> string) (cfg : Scheduler.Config)
        (evs : list Scheduler.Event) :
  let st := Scheduler.run toLowerCase cfg evs Scheduler.init in
  (forall d, (count_occ string_dec (Scheduler.crawlLog st) d <= 1)%nat)
  /\ (forall d, In d (Scheduler.crawlLog st) -> d ∈ Scheduler.processedDomains st)
  /\ (forall d later t,
        d ∈ Scheduler.processedDomains st ->
        Scheduler.domainOf (Scheduler.rec t) = d ->
        let st' := Scheduler.run toLowerCase cfg later st in
        Scheduler.processOne_start st' t = st')
  /\ (forall later t w,
        let st' := Scheduler.run toLowerCase cfg later st in
        Scheduler.waiting st' = t :: w ->
        Scheduler.domainOf (Scheduler.rec t) ∈ Scheduler.processedDomains st ->
        Scheduler.crawlLog (Scheduler.step toLowerCase cfg st' Scheduler.Start)
        = Scheduler.crawlLog st'
        /\ Scheduler.crawling (Scheduler.step toLowerCase cfg st' Scheduler.Start)
           = Scheduler.crawling st').
Proof.
  intros st.
  destruct (run_inv cfg toLowerCase evs Scheduler.init crawl_inv_init) as [Hnd Hsub].
  fold st in Hnd, Hsub.
  split; [apply NoDup_count_occ, Hnd|]. split; [exact Hsub|]. split.
  - intros d later t Hd Ht st'. unfold Scheduler.processOne_start. rewrite Ht.
    rewrite bool_decide_eq_true_2; [reflexivity|].
    apply (run_processed_mono cfg toLowerCase later st), Hd.
  - intros later t w st' Hw Hd. cbn [Scheduler.step]. rewrite Hw.
    destruct (_ <? _)%nat; [|split; reflexivity].
    unfold Scheduler.processOne_start. cbn [Scheduler.dropWaiting Scheduler.processedDomains].
    rewrite bool_decide_eq_true_2; [split; reflexivity|].
    apply (run_processed_mono cfg toLowerCase later st), Hd.
Qed.

Lemma crawl_at_most_once_witness :
  let st := Scheduler.run Js.toLowerCase Scheduler.defaults
              [Scheduler.AddDomain (Scheduler.Str "acme-travel.com");
               Scheduler.AddDomain (Scheduler.Str "acme-travel.com");
               Scheduler.Start] Scheduler.init in
  Scheduler.crawlLog st = ["acme-travel.com"]
  /\ Scheduler.waiting st
     = [ {| Scheduler.rec := Scheduler.Str "acme-travel.com"; Scheduler.depth := 0 |} ]
  /\ Scheduler.crawlLog (Scheduler.step Js.toLowerCase Scheduler.defaults st Scheduler.Start)
     = Scheduler.crawlLog st.
Proof.
  intros st. split; [vm_compute; reflexivity|]. split; [vm_compute; reflexivity|].
  destruct (crawl_at_most_once Js.toLowerCase Scheduler.defaults
              [Scheduler.AddDomain (Scheduler.Str "acme-travel.com");
               Scheduler.AddDomain (Scheduler.Str "acme-travel.com");
               Scheduler.Start]) as (_ & _ & _ & Hlater).
  refine (proj1 (Hlater [] {| Scheduler.rec := Scheduler.Str "acme-travel.com";
                              Scheduler.depth := 0 |} [] _ _)).
  - vm_compute. reflexivity.
  - refine (bool_decide_eq_true_1 _ _). vm_compute. reflexivity.
Defined.

(** C2 (amended).  [addDomain(record)] changes nothing when the domain of
    the record is in the processed set; otherwise it hands one task at
    depth 0 to the limiter and leaves the processed set and the crawl log
    as they are.  The domain enters the processed set when its task starts:
    after the first stretch of [processOne] the domain is in the set, and
    that stretch calls the crawler for the domain only if the domain was
    not in the set before. *)
Theorem addDomain_enqueues_start_marks (st : Scheduler.State) (rec : Scheduler.Rec) :
  let domain := Scheduler.domainOf rec in
  (domain ∈ Scheduler.processedDomains st -> Scheduler.addDomain st rec = st)
  /\ (domain ∉ Scheduler.processedDomains st ->
      Scheduler.processedDomains (Scheduler.addDomain st rec) = Scheduler.processedDomains st
      /\ Scheduler.crawlLog (Scheduler.addDomain st rec) = Scheduler.crawlLog st
      /\ Scheduler.waiting (Scheduler.addDomain st rec)
         = (Scheduler.waiting st
            ++ [ {| Scheduler.rec := rec; Scheduler.depth := 0 |} ])%list)
  /\ (forall st' depth,
        let st'' := Scheduler.processOne_start st'
                      {| Scheduler.rec := rec; Scheduler.depth := depth |} in
        domain ∈ Scheduler.processedDomains st''
        /\ (domain ∈ Scheduler.processedDomains st' ->
            Scheduler.crawlLog st'' = Scheduler.crawlLog st')
        /\ (domain ∉ Scheduler.processedDomains st' ->
            Region.isTurkeyBasedDomain domain = false ->
            Scheduler.crawlLog st'' = (Scheduler.crawlLog st' ++ [domain])%list)).
Proof.
  intros domain. split; [|split].
  - intros Hin. unfold Scheduler.addDomain. fold domain.
    rewrite bool_decide_eq_true_2 by exact Hin. reflexivity.
  - intros Hout. unfold Scheduler.addDomain. fold domain.
    rewrite bool_decide_eq_false_2 by exact Hout. repeat split.
  - intros st' depth st''. subst st''. unfold Scheduler.processOne_start.
    cbn [Scheduler.rec]. fold domain.
    destruct (decide (domain ∈ Scheduler.processedDomains st')) as [Hin|Hout].
    + rewrite bool_decide_eq_true_2 by exact Hin.
      split; [exact Hin|]. split; [reflexivity|]. intros Hout. contradiction.
    + rewrite bool_decide_eq_false_2 by exact Hout.
      destruct (Region.isTurkeyBasedDomain domain) eqn:Hregion;
        cbn [Scheduler.processedDomains Scheduler.crawlLog].
      * split; [set_solver|]. split; [intros Hin; contradiction|discriminate].
      * split; [set_solver|]. split; [intros Hin; contradiction|reflexivity].
Qed.

Lemma addDomain_enqueues_start_marks_witness :
  let r := Scheduler.Str "acme-travel.com" in
  let t := {| Scheduler.rec := r; Scheduler.depth := 0 |} in
  Scheduler.waiting (Scheduler.addDomain Scheduler.init r) = [t]
  /\ Scheduler.processedDomains (Scheduler.addDomain Scheduler.init r) = ∅
  /\ Scheduler.crawlLog (Scheduler.processOne_start Scheduler.init t) = ["acme-travel.com"].
Proof.
  intros r t.
  destruct (addDomain_enqueues_start_marks Scheduler.init r) as (_ & Hnew & Hstart).
  destruct Hnew as (Hp & _ & Hw); [set_solver|].
  split; [exact Hw|]. split; [exact Hp|].
  destruct (Hstart Scheduler.init 0) as (_ & _ & Hlog).
  apply Hlog; [set_solver|vm_compute; reflexivity].
Defined.

(** C2, as first stated, fails: when [addDomain] returns, the domain it was
    given is not in the processed set -- not on a fresh extractor, and not
    when the only slot of the limiter is taken by another task. *)
Lemma addDomain_does_not_mark :
  ("acme-travel.com"
     ∉ Scheduler.processedDomains
         (Scheduler.addDomain Scheduler.init (Scheduler.Str "acme-travel.com")))
  /\ (let cfg := {| Scheduler.concurrency := 1; Scheduler.minScore := 2;
                    Scheduler.unrelatedKeywords := [];
                    Scheduler.enableAiExtract := false;
                    Scheduler.snowballEnabled := false;
                    Scheduler.snowballMaxDepth := 1;
                    Scheduler.snowballMaxPerSource := 10;
                    Scheduler.csvPath := true |} in
      let st := Scheduler.run Js.toLowerCase cfg
                  [Scheduler.AddDomain (Scheduler.Str "first-voyages.com");
                   Scheduler.Start;
                   Scheduler.AddDomain (Scheduler.Str "acme-travel.com")] Scheduler.init in
      Scheduler.waiting st
      = [ {| Scheduler.rec := Scheduler.Str "acme-travel.com"; Scheduler.depth := 0 |} ]
      /\ "acme-travel.com" ∉ Scheduler.processedDomains st).
Proof.
  split; [|split].
  - refine (bool_decide_eq_false_1 _ _). vm_compute. reflexivity.
  - vm_compute. reflexivity.
  - refine (bool_decide_eq_false_1 _ _). vm_compute. reflexivity.
Qed.

(** C9.  The snowball block of a task whose crawl returned pages appends
    tasks to the queue of the limiter: at most [maxNewDomainsPerSource] of
    them (when that number is not negative), each at the depth of the task
    plus one, and each for a candidate domain that the region filter lets
    through and that is not in the processed set, with a record naming that
    domain, its address and the source.  When snowball is off or the task
    is at the maximum depth, nothing is appended.  Otherwise the domains of
    the appended tasks are, in order, the candidates that pass the region
    filter, cut to the first [maxNewDomainsPerSource], less those in the
    processed set.  When none of the candidates is excluded by the region
    filter or in the processed set, these are the first
    [maxNewDomainsPerSource] candidates: for 15 candidates and a maximum of
    10, exactly 10 tasks, for the first 10 candidates. *)
Theorem snowball_bound (cfg : Scheduler.Config) (st : Scheduler.State) (t : Scheduler.Task)
        (p : Scheduler.Page) (pages : list Scheduler.Page) (outbound : list string) :
  let st' := Scheduler.processOne_crawled cfg st t (Scheduler.Crawled (p :: pages) outbound) in
  let source := Scheduler.domainOf (Scheduler.rec t) in
  let domains := fun new => List.map (fun t' => Scheduler.domainOf (Scheduler.rec t')) new in
  exists new,
    Scheduler.waiting st' = (Scheduler.waiting st ++ new)%list
    /\ (0 <= Scheduler.snowballMaxPerSource cfg ->
        Z.of_nat (List.length new) <= Scheduler.snowballMaxPerSource cfg)
    /\ Forall (fun t' => Scheduler.depth t' = Scheduler.depth t + 1) new
    /\ Forall (fun t' =>
                 exists sd,
                   In sd outbound
                   /\ Region.isTurkeyBasedDomain sd = false
                   /\ (sd ∉ Scheduler.processedDomains st)
                   /\ Scheduler.rec t'
                      = Scheduler.Obj
                          {| Scheduler.domain := sd;
                             Scheduler.sampleUrl := "https://" ++ sd;
                             Scheduler.queryUsed := "snowball:" ++ source;
                             Scheduler.title := "";
                             Scheduler.snippet := "Discovered via partner link on " ++ source;
                             Scheduler.country := "";
                             Scheduler.city := "" |}) new
    /\ (Scheduler.snowballEnabled cfg = false
        \/ Scheduler.snowballMaxDepth cfg <= Scheduler.depth t -> new = [])
    /\ (Scheduler.snowballEnabled cfg = true ->
        Scheduler.depth t < Scheduler.snowballMaxDepth cfg ->
        0 <= Scheduler.snowballMaxPerSource cfg ->
        domains new
        = List.filter (fun sd => negb (bool_decide (sd ∈ Scheduler.processedDomains st)))
            (firstn (Z.to_nat (Scheduler.snowballMaxPerSource cfg))
               (List.filter (fun sd => negb (Region.isTurkeyBasedDomain sd)) outbound)))
    /\ (Scheduler.snowballEnabled cfg = true ->
        Scheduler.depth t < Scheduler.snowballMaxDepth cfg ->
        0 <= Scheduler.snowballMaxPerSource cfg ->
        Forall (fun sd => Region.isTurkeyBasedDomain sd = false) outbound ->
        Forall (fun sd => sd ∉ Scheduler.processedDomains st) outbound ->
        new = List.map (Scheduler.snowTask source (Scheduler.depth t))
                       (firstn (Z.to_nat (Scheduler.snowballMaxPerSource cfg)) outbound)
        /\ domains new = firstn (Z.to_nat (Scheduler.snowballMaxPerSource cfg)) outbound
        /\ (List.length outbound = 15%nat ->
            Scheduler.snowballMaxPerSource cfg = 10 ->
            List.length new = 10%nat /\ domains new = firstn 10 outbound)).
Proof.
  intros st' source domains. subst source domains. cbv beta.
  exists (Scheduler.snowballed cfg st t outbound).
  split; [|split; [|split; [|split; [|split; [|split]]]]].
  - subst st'. cbn [Scheduler.processOne_crawled Scheduler.suspendOnExtract Scheduler.waiting].
    apply snowball_waiting.
  - apply snowballed_bound.
  - apply snowballed_depth.
  - apply snowballed_records.
  - apply snowballed_off.
  - intros Hen Hdepth Hmax. apply snowballed_domains; assumption.
  - intros Hen Hdepth Hmax Hregion Hfresh.
    rewrite (snowballed_all cfg st t outbound Hmax Hen Hdepth Hregion Hfresh).
    split; [reflexivity|].
    pose proof (snowTask_domains (Scheduler.domainOf (Scheduler.rec t)) (Scheduler.depth t)
                  (firstn (Z.to_nat (Scheduler.snowballMaxPerSource cfg)) outbound)) as Hdom.
    split; [exact Hdom|].
    intros Hlen Hten. split.
    + rewrite length_map, length_firstn, Hlen, Hten. reflexivity.
    + rewrite Hdom, Hten. reflexivity.
Qed.

Lemma snowball_bound_witness :
  let cfg := {| Scheduler.concurrency := 10; Scheduler.minScore := 2;
                Scheduler.unrelatedKeywords := [];
                Scheduler.enableAiExtract := false;
                Scheduler.snowballEnabled := true;
                Scheduler.snowballMaxDepth := 1;
                Scheduler.snowballMaxPerSource := 10;
                Scheduler.csvPath := true |} in
  let t := {| Scheduler.rec := Scheduler.Str "acme-travel.com"; Scheduler.depth := 0 |} in
  let p := {| Scheduler.scan := {| Email.url := "https://acme-travel.com/partners";
                                   Email.mailto := []; Email.matches := [];
                                   Email.hasVisibleText := true; Email.llmReply := [] |};
              Scheduler.html := "<html>Our partners</html>" |} in
  let outbound :=
    ["peer01-travel.com"; "peer02-travel.com"; "peer03-travel.com"; "peer04-travel.com";
     "peer05-travel.com"; "peer06-travel.com"; "peer07-travel.com"; "peer08-travel.com";
     "peer09-travel.com"; "peer10-travel.com"; "peer11-travel.com"; "peer12-travel.com";
     "peer13-travel.com"; "peer14-travel.com"; "peer15-travel.com"] in
  exists new,
    Scheduler.waiting (Scheduler.processOne_crawled cfg Scheduler.init t
                         (Scheduler.Crawled [p] outbound)) = new
    /\ List.length new = 10%nat
    /\ Forall (fun t' => Scheduler.depth t' = 1) new
    /\ List.map (fun t' => Scheduler.domainOf (Scheduler.rec t')) new
       = ["peer01-travel.com"; "peer02-travel.com"; "peer03-travel.com"; "peer04-travel.com";
          "peer05-travel.com"; "peer06-travel.com"; "peer07-travel.com"; "peer08-travel.com";
          "peer09-travel.com"; "peer10-travel.com"].
Proof.
  intros cfg t p outbound.
  destruct (snowball_bound cfg Scheduler.init t p [] outbound)
    as (new & Hw & _ & Hd & _ & _ & _ & Hall).
  exists new. split; [exact Hw|].
  destruct Hall as (_ & _ & Hten).
  - reflexivity.
  - vm_compute. reflexivity.
  - vm_compute. discriminate.
  - repeat (constructor; [vm_compute; reflexivity|]). constructor.
  - apply List.Forall_forall. intros sd _. apply not_elem_of_empty.
  - destruct Hten as [Hlen Hdom]; [reflexivity|reflexivity|].
    split; [exact Hlen|]. split; [exact Hd|exact Hdom].
Defined.

(** C3 (amended).  The merged list holds no address twice.  Let [e] be an
    address.  When the pattern list (every address of which passed the two
    filters) holds a record for [e], [r] being the last of them, and the
    external list holds exactly one record [a] for [e], the one merged
    candidate for [e] is [r] with [extracted_by = both] and the larger of
    the two confidences.  When the pattern list holds no record for [e],
    [e] passes the two filters and the external list holds exactly one
    record [a] for [e], the one merged candidate for [e] is [a] as it is.
    When the external list holds no record for [e], the one merged candidate
    for [e] is [r] as it is.  Confidences 0.9 and 0.95 merge to 0.95. *)
Theorem merge_single_external_record (regexList aiList : list Email.Candidate) (e : string) :
  let merged := Email.mergeEmailResults aiList regexList in
  List.NoDup (List.map Email.email merged)
  /\ (forall r a,
        Forall (fun r => Email.clean (Email.email r)) regexList ->
        Email.lastFor e regexList = Some r ->
        Email.recordsFor e aiList = [a] ->
        let c := Email.corroborate r a in
        In c merged
        /\ Email.email c = e
        /\ Email.extracted_by c = Email.both
        /\ Email.confidence c = Email.Math_max (Email.confidence r) (Email.confidence a)
        /\ (Email.confidence r <= Email.confidence c)%Q
        /\ (Email.confidence a <= Email.confidence c)%Q
        /\ (Email.confidence c = Email.confidence r \/ Email.confidence c = Email.confidence a)
        /\ Email.source_url c = Email.source_url r
        /\ (forall c', In c' merged -> Email.email c' = e -> c' = c))
  /\ (forall a,
        (forall r, In r regexList -> Email.email r <> e) ->
        Email.accepted e = true ->
        Email.recordsFor e aiList = [a] ->
        In a merged /\ (forall c', In c' merged -> Email.email c' = e -> c' = a))
  /\ (forall r,
        Email.lastFor e regexList = Some r ->
        (forall a, In a aiList -> Email.email a <> e) ->
        In r merged /\ (forall c', In c' merged -> Email.email c' = e -> c' = r))
  /\ Email.Math_max 0.9 0.95 = 0.95%Q.
Proof.
  intros merged. split; [apply merged_emails_NoDup|].
  assert (Hone : forall c, In c merged -> Email.email c = e ->
                           forall c', In c' merged -> Email.email c' = e -> c' = c).
  { intros c Hc He c' Hc' He'. eapply merged_unique; [exact Hc|exact Hc'|congruence]. }
  split; [|split; [|split]].
  - intros r a Hclean Hr Ha c.
    assert (Hacc : Email.accepted e = true) by (eapply regex_record_accepted; eassumption).
    destruct (merged_entry_for aiList regexList e c) as [Hin He].
    { rewrite (acceptedFor_recordsFor e aiList Hacc), Ha, Hr. reflexivity. }
    split; [exact Hin|]. split; [exact He|]. split; [reflexivity|]. split; [reflexivity|].
    split; [apply Math_max_upper|]. split; [apply Math_max_upper|].
    split; [apply Math_max_cases|]. split; [reflexivity|]. apply Hone; assumption.
  - intros a Habsent Hacc Ha.
    destruct (merged_entry_for aiList regexList e a) as [Hin He].
    { rewrite (acceptedFor_recordsFor e aiList Hacc), Ha, (lastFor_absent e regexList Habsent).
      reflexivity. }
    split; [exact Hin|]. apply Hone; assumption.
  - intros r Hr Habsent.
    destruct (merged_entry_for aiList regexList e r) as [Hin He].
    { rewrite (acceptedFor_absent e aiList Habsent), Hr. reflexivity. }
    split; [exact Hin|]. apply Hone; assumption.
  - reflexivity.
Qed.

Lemma merge_single_external_record_witness :
  let r := {| Email.email := "info@acme-travel.com";
              Email.source_url := "https://acme-travel.com/contact";
              Email.email_type := Email.generic;
              Email.confidence := 0.9; Email.extracted_by := Email.regex |} in
  let a := {| Email.email := "info@acme-travel.com";
              Email.source_url := "https://acme-travel.com/";
              Email.email_type := Email.unknown;
              Email.confidence := 0.95; Email.extracted_by := Email.ai |} in
  In {| Email.email := "info@acme-travel.com";
        Email.source_url := "https://acme-travel.com/contact";
        Email.email_type := Email.generic;
        Email.confidence := 0.95; Email.extracted_by := Email.both |}
     (Email.mergeEmailResults [a] [r]).
Proof.
  intros r a.
  destruct (merge_single_external_record [r] [a] "info@acme-travel.com") as (_ & Hboth & _).
  destruct (Hboth r a) as (Hin & _).
  - repeat constructor; vm_compute; reflexivity.
  - reflexivity.
  - reflexivity.
  - exact Hin.
Defined.

(** C3, as first stated, fails: an address that only the external source
    reports, but reports for two pages, is not inserted as it is; the one
    merged candidate for it is marked [both]. *)
Lemma merge_external_twice :
  let a1 := {| Email.email := "jane@acme-travel.com";
               Email.source_url := "https://acme-travel.com/";
               Email.email_type := Email.personal;
               Email.confidence := 0.8; Email.extracted_by := Email.ai |} in
  let a2 := {| Email.email := "jane@acme-travel.com";
               Email.source_url := "https://acme-travel.com/about";
               Email.email_type := Email.personal;
               Email.confidence := 0.8; Email.extracted_by := Email.ai |} in
  let merged := Email.mergeEmailResults [a1; a2] [] in
  Email.accepted "jane@acme-travel.com" = true
  /\ merged = [ {| Email.email := "jane@acme-travel.com";
                   Email.source_url := "https://acme-travel.com/";
                   Email.email_type := Email.personal;
                   Email.confidence := 0.8; Email.extracted_by := Email.both |} ]
  /\ ~ In a1 merged /\ ~ In a2 merged.
Proof.
  intros a1 a2 merged.
  assert (Hm : merged = [ {| Email.email := "jane@acme-travel.com";
                             Email.source_url := "https://acme-travel.com/";
                             Email.email_type := Email.personal;
                             Email.confidence := 0.8; Email.extracted_by := Email.both |} ])
    by (vm_compute; reflexivity).
  split; [vm_compute; reflexivity|]. split; [exact Hm|].
  rewrite Hm. split; intros [H|[]]; discriminate.
Qed.

(** C10.  When the pattern list (every address of which passed the two
    filters) holds a record for [e], [r] being the last of them, there is
    exactly one merged candidate for [e], and its type is the type of [r]
    overridden in turn by the type of every external record for [e] that is
    not [unknown].  With one external record [a] for [e]: the type is that
    of [a] when it is not [unknown], and that of [r] when it is. *)
Theorem merged_type_from_external (regexList aiList : list Email.Candidate) (e : string)
        (r : Email.Candidate) :
  Forall (fun r => Email.clean (Email.email r)) regexList ->
  Email.lastFor e regexList = Some r ->
  let merged := Email.mergeEmailResults aiList regexList in
  exists c,
    In c merged
    /\ Email.email c = e
    /\ (forall c', In c' merged -> Email.email c' = e -> c' = c)
    /\ Email.email_type c
       = fold_left Email.overrideType (Email.recordsFor e aiList) (Email.email_type r)
    /\ (forall a,
          Email.recordsFor e aiList = [a] ->
          Email.extracted_by c = Email.both
          /\ (Email.email_type a <> Email.unknown -> Email.email_type c = Email.email_type a)
          /\ (Email.email_type a = Email.unknown -> Email.email_type c = Email.email_type r)).
Proof.
  intros Hclean Hr merged.
  assert (Hacc : Email.accepted e = true) by (eapply regex_record_accepted; eassumption).
  exists (fold_left Email.corroborate (Email.recordsFor e aiList) r).
  destruct (merged_entry_for aiList regexList e
              (fold_left Email.corroborate (Email.recordsFor e aiList) r)) as [Hin He].
  { rewrite (acceptedFor_recordsFor e aiList Hacc), Hr. apply absorb_fold. }
  split; [exact Hin|]. split; [exact He|]. split.
  - intros c' Hc' He'. eapply merged_unique; [exact Hin|exact Hc'|congruence].
  - split; [apply corroborate_type|].
    intros a Ha. rewrite Ha. cbn [fold_left Email.corroborate Email.extracted_by Email.email_type].
    split; [reflexivity|].
    destruct (Email.email_type a); cbn [Email.EmailType_eqb]; split; congruence.
Qed.

Lemma merged_type_from_external_witness :
  let r := {| Email.email := "jane.doe@acme-travel.com";
              Email.source_url := "https://acme-travel.com/team";
              Email.email_type := Email.personal;
              Email.confidence := 0.9; Email.extracted_by := Email.regex |} in
  let a := {| Email.email := "jane.doe@acme-travel.com";
              Email.source_url := "https://acme-travel.com/team";
              Email.email_type := Email.generic;
              Email.confidence := 0.7; Email.extracted_by := Email.ai |} in
  exists c, In c (Email.mergeEmailResults [a] [r])
            /\ Email.email c = "jane.doe@acme-travel.com"
            /\ Email.email_type c = Email.generic.
Proof.
  intros r a.
  destruct (merged_type_from_external [r] [a] "jane.doe@acme-travel.com" r)
    as (c & Hin & He & _ & _ & Hone).
  - repeat constructor; vm_compute; reflexivity.
  - reflexivity.
  - exists c. split; [exact Hin|]. split; [exact He|].
    destruct (Hone a) as (_ & Htype & _); [reflexivity|].
    apply Htype. discriminate.
Defined.

(** C6.  Every candidate returned by [extractEmailsFromPages] carries an
    address that is normalized (lower-casing and trimming leave it as it
    is), passes [isValidEmail] and is not caught by [isJunkPrefix] --
    whatever the pages hold and whatever the external source replies. *)
Theorem extracted_emails_clean (pages : list Email.PageScan) (enableAi : bool)
        (maxEmails : Z) (c : Email.Candidate) :
  In c (Email.extractEmailsFromPages pages enableAi maxEmails) ->
  Email.normalizeEmail (Email.email c) = Email.email c
  /\ Email.isValidEmail (Email.email c) = true
  /\ Email.isJunkPrefix (Email.email c) = false.
Proof.
  unfold Email.extractEmailsFromPages.
  pose proof (collect_clean enableAi pages [] [] (List.Forall_nil _) (List.Forall_nil _))
    as [Hr Ha].
  destruct (Email.collect enableAi pages [] []) as [allRegex allAi]. cbn [fst snd] in Hr, Ha.
  intros Hin%pickBestEmails_In. exact (merged_clean allAi allRegex c Hr Ha Hin).
Qed.

Lemma extracted_emails_clean_witness :
  let page :=
    {| Email.url := "https://acme-travel.com/contact";
       Email.mailto := ["Sales@Acme-Travel.com "];
       Email.matches := ["privacy@acme-travel.com"; "info@acme-travel.comphone"];
       Email.hasVisibleText := true;
       Email.llmReply :=
         [ {| Email.llm_email := " Hello@Acme-Travel.com"; Email.llm_type := "Generic";
              Email.llm_confidence := Some 0.95%Q |};
           {| Email.llm_email := "noreply@acme-travel.com"; Email.llm_type := "generic";
              Email.llm_confidence := Some 0.9%Q |};
           {| Email.llm_email := "5794info@acme-travel.com"; Email.llm_type := "";
              Email.llm_confidence := None |};
           {| Email.llm_email := "office@acme-travel.com.you"; Email.llm_type := "generic";
              Email.llm_confidence := Some 2%Q |} ] |} in
  Email.extractEmailsFromPages [page] true 5
  = [ {| Email.email := "sales@acme-travel.com";
         Email.source_url := "https://acme-travel.com/contact";
         Email.email_type := Email.generic;
         Email.confidence := 0.9; Email.extracted_by := Email.regex |};
      {| Email.email := "hello@acme-travel.com";
         Email.source_url := "https://acme-travel.com/contact";
         Email.email_type := Email.generic;
         Email.confidence := 0.95; Email.extracted_by := Email.ai |} ]
  /\ Email.isValidEmail "hello@acme-travel.com" = true.
Proof.
  intros page.
  assert (Hout : Email.extractEmailsFromPages [page] true 5
                 = [ {| Email.email := "sales@acme-travel.com";
                        Email.source_url := "https://acme-travel.com/contact";
                        Email.email_type := Email.generic;
                        Email.confidence := 0.9; Email.extracted_by := Email.regex |};
                     {| Email.email := "hello@acme-travel.com";
                        Email.source_url := "https://acme-travel.com/contact";
                        Email.email_type := Email.generic;
                        Email.confidence := 0.95; Email.extracted_by := Email.ai |} ])
    by (vm_compute; reflexivity).
  split; [exact Hout|].
  refine (proj1 (proj2 (extracted_emails_clean [page] true 5
                          {| Email.email := "hello@acme-travel.com";
                             Email.source_url := "https://acme-travel.com/contact";
                             Email.email_type := Email.generic;
                             Email.confidence := 0.95; Email.extracted_by := Email.ai |} _))).
  rewrite Hout. right. left. reflexivity.
Defined.

(** C4.  For a maximum that is not negative, [pickBestEmails] returns the
    first [maxPerDomain] elements of a ranking of its input that is a
    rearrangement of it, in which no candidate stands before one of smaller
    priority number, and in which the candidates of one priority stand in
    the order of the input.  So it returns [min maxPerDomain (length
    emails)] candidates, none of which ranks behind one that is left out.
    The priority number of a local part in the list info, contact, sales,
    booking, bookings, reservations, office, hello, enquiry, enquiries,
    support is its place in that list; failing that, the place of the first
    entry the local part starts with; failing that, 50 for a generic and
    100 for any other candidate.  [sales@x, info@x, random@x] come out as
    [info@x, sales@x, random@x], and of eight candidates with a maximum of
    five the five of smallest priority number are returned. *)
Theorem pickBestEmails_ranking :
  (forall (emails : list Email.Candidate) (maxPerDomain : Z),
      0 <= maxPerDomain ->
      let picked := Email.pickBestEmails emails maxPerDomain in
      exists ranked,
        picked = firstn (Z.to_nat maxPerDomain) ranked
        /\ Permutation ranked emails
        /\ StronglySorted Email.ranksBefore ranked
        /\ (forall p, Email.bucket p ranked = Email.bucket p emails)
        /\ List.length picked = Nat.min (Z.to_nat maxPerDomain) (List.length emails)
        /\ (forall x y, In x picked -> In y (skipn (Z.to_nat maxPerDomain) ranked) ->
                        (Email.priorityOf x <= Email.priorityOf y)%nat))
  /\ Email.priorityOrder
     = ["info"; "contact"; "sales"; "booking"; "bookings"; "reservations";
        "office"; "hello"; "enquiry"; "enquiries"; "support"]
  /\ (forall e i p,
        nth_error Email.priorityOrder i = Some p ->
        Email.localPart (Email.email e) = p ->
        Email.priorityOf e = i)
  /\ (forall e i,
        Js.indexOf Email.priorityOrder (Email.localPart (Email.email e)) = None ->
        Js.findIndex (fun p => Js.startsWith (Email.localPart (Email.email e)) p)
                     Email.priorityOrder = Some i ->
        Email.priorityOf e = i /\ (i < 11)%nat)
  /\ (forall e,
        Js.indexOf Email.priorityOrder (Email.localPart (Email.email e)) = None ->
        Js.findIndex (fun p => Js.startsWith (Email.localPart (Email.email e)) p)
                     Email.priorityOrder = None ->
        Email.priorityOf e
        = match Email.email_type e with Email.generic => 50%nat | _ => 100%nat end)
  /\ (let mk e t := {| Email.email := e; Email.source_url := "https://x.com/";
                       Email.email_type := t; Email.confidence := 0.9;
                       Email.extracted_by := Email.regex |} in
      Email.pickBestEmails [mk "sales@x.com" Email.generic; mk "info@x.com" Email.generic;
                            mk "random@x.com" Email.personal] 5
      = [mk "info@x.com" Email.generic; mk "sales@x.com" Email.generic;
         mk "random@x.com" Email.personal]
      /\ Email.pickBestEmails
           [mk "jane@x.com" Email.personal; mk "support@x.com" Email.generic;
            mk "bookings@x.com" Email.generic; mk "reservation@x.com" Email.generic;
            mk "booking@x.com" Email.generic; mk "john@x.com" Email.personal;
            mk "info@x.com" Email.generic; mk "contact@x.com" Email.generic] 5
         = [mk "info@x.com" Email.generic; mk "contact@x.com" Email.generic;
            mk "booking@x.com" Email.generic; mk "bookings@x.com" Email.generic;
            mk "support@x.com" Email.generic]).
Proof.
  split; [|split; [reflexivity|split; [|split; [|split]]]].
  - intros emails maxPerDomain Hmax picked.
    exists (Email.sortByPriority emails).
    assert (Hpicked : picked = firstn (Z.to_nat maxPerDomain) (Email.sortByPriority emails))
      by (apply slice0_nonneg, Hmax).
    split; [exact Hpicked|]. split; [apply sortByPriority_perm|].
    split; [apply sortByPriority_sorted|]. split; [intros p; apply bucket_sortByPriority|].
    split.
    + rewrite Hpicked, length_firstn.
      rewrite (Permutation_length (sortByPriority_perm emails)). reflexivity.
    + intros x y Hx Hy. rewrite Hpicked in Hx.
      exact (sorted_split _ _ x y (sortByPriority_sorted emails) Hx Hy).
  - apply priorityOf_listed.
  - intros e i Hexact Hprefix. unfold Email.priorityOf. rewrite Hexact, Hprefix.
    split; [reflexivity|].
    revert Hprefix. generalize (Email.localPart (Email.email e)). intros local.
    unfold Email.priorityOrder. cbn [Js.findIndex].
    repeat (destruct (Js.startsWith local _); [intros [= <-]; lia|]).
    discriminate.
  - intros e Hexact Hprefix. unfold Email.priorityOf. rewrite Hexact, Hprefix.
    destruct (Email.email_type e); reflexivity.
  - split; vm_compute; reflexivity.
Qed.

Lemma pickBestEmails_ranking_witness :
  let mk e t := {| Email.email := e; Email.source_url := "https://x.com/";
                   Email.email_type := t; Email.confidence := 0.9%Q;
                   Email.extracted_by := Email.regex |} in
  let eight := [mk "jane@x.com" Email.personal; mk "support@x.com" Email.generic;
                mk "bookings@x.com" Email.generic; mk "reservation@x.com" Email.generic;
                mk "booking@x.com" Email.generic; mk "john@x.com" Email.personal;
                mk "info@x.com" Email.generic; mk "contact@x.com" Email.generic] in
  List.length (Email.pickBestEmails eight 5) = 5%nat
  /\ Email.priorityOf (mk "enquiries@x.com" Email.generic) = 9%nat.
Proof.
  intros mk eight.
  destruct pickBestEmails_ranking as (Hrank & _ & Hlisted & _).
  split.
  - destruct (Hrank eight 5) as (ranked & _ & _ & _ & _ & Hlen & _); [lia|].
    exact Hlen.
  - apply (Hlisted _ 9%nat "enquiries"); reflexivity.
Defined.

(** * Further properties *)

(** ** Normalization and pattern extraction *)

Section MoreNormalization.
Import Js Email EmailSpec.

Lemma toLowerCase_app (a b : string) :
  toLowerCase (a ++ b) = toLowerCase a ++ toLowerCase b.
Proof.
  induction a as [|c a IH]; [reflexivity|].
  change (String c a ++ b) with (String c (a ++ b)). cbn [toLowerCase].
  rewrite IH. reflexivity.
Qed.

Lemma trimStart_spaces (pre s : string) :
  all_space pre = true -> trimStart (pre ++ s) = trimStart s.
Proof.
  induction pre as [|c pre IH]; [reflexivity|].
  cbn [all_space]. intros [Hc Hpre]%andb_prop.
  change (String c pre ++ s) with (String c (pre ++ s)). cbn [trimStart].
  rewrite Hc. auto.
Qed.

Lemma all_space_app (s post : string) :
  all_space post = true -> all_space (s ++ post) = all_space s.
Proof.
  intros Hpost. induction s as [|c s IH]; [exact Hpost|].
  change (String c s ++ post) with (String c (s ++ post)). cbn [all_space].
  rewrite IH. reflexivity.
Qed.

Lemma trimEnd_all_space (s : string) : all_space s = true -> trimEnd s = EmptyString.
Proof. destruct s as [|c s]; [reflexivity|]. intros H. cbn [trimEnd]. rewrite H. reflexivity. Qed.

Lemma trimEnd_spaces (s post : string) :
  all_space post = true -> trimEnd (s ++ post) = trimEnd s.
Proof.
  intros Hpost. induction s as [|c s IH]; [apply trimEnd_all_space, Hpost|].
  change (String c s ++ post) with (String c (s ++ post)). cbn [trimEnd].
  change (String c (s ++ post)) with (String c s ++ post).
  rewrite (all_space_app (String c s) post Hpost), IH. reflexivity.
Qed.

Lemma trim_spaces_after (s post : string) :
  all_space post = true -> trim (s ++ post) = trim s.
Proof.
  intros Hpost. unfold trim. induction s as [|c s IH].
  - change (EmptyString ++ post) with post.
    assert (Hstart : trimStart post = EmptyString).
    { clear -Hpost. induction post as [|c post IH]; [reflexivity|].
      cbn [all_space] in Hpost. apply andb_prop in Hpost as [Hc Hpost].
      cbn [trimStart]. rewrite Hc. auto. }
    rewrite Hstart. reflexivity.
  - change (String c s ++ post) with (String c (s ++ post)). cbn [trimStart].
    destruct (is_space c); [exact IH|].
    change (String c (s ++ post)) with (String c s ++ post).
    apply trimEnd_spaces, Hpost.
Qed.

End MoreNormalization.

(** X1.  Normalizing an address twice is normalizing it once, and neither
    the case of its letters nor white space around it changes the result. *)
Theorem normalizeEmail_identity (s pre post : string) :
  Js.all_space pre = true ->
  Js.all_space post = true ->
  Email.normalizeEmail (Email.normalizeEmail s) = Email.normalizeEmail s
  /\ Email.normalizeEmail (Js.toLowerCase s) = Email.normalizeEmail s
  /\ Email.normalizeEmail (pre ++ s ++ post) = Email.normalizeEmail s.
Proof.
  intros Hpre Hpost. split; [apply normalizeEmail_idem|]. split.
  - unfold Email.normalizeEmail. rewrite toLowerCase_idem. reflexivity.
  - unfold Email.normalizeEmail. rewrite !toLowerCase_app.
    unfold Js.trim at 1. rewrite trimStart_spaces
      by (rewrite all_space_toLowerCase; exact Hpre).
    fold (Js.trim (Js.toLowerCase s ++ Js.toLowerCase post)).
    apply trim_spaces_after. rewrite all_space_toLowerCase. exact Hpost.
Qed.

Lemma normalizeEmail_identity_witness :
  Email.normalizeEmail ("  " ++ "Info@Acme-Travel.COM" ++ " ")
  = Email.normalizeEmail "Info@Acme-Travel.COM".
Proof.
  apply (normalizeEmail_identity "Info@Acme-Travel.COM" "  " " "); reflexivity.
Defined.

Section MoreExtraction.
Import Js Email EmailSpec.

Lemma push_cases (sourceUrl : string) (st : RegexState) (raw : string) :
  let e := normalizeEmail raw in
  (pushable e = true /\ (e ∉ seen st)
   /\ push sourceUrl st raw
      = {| seen := {[ e ]} ∪ seen st; out := (out st ++ [regexRecord sourceUrl e])%list |})
  \/ ((pushable e = false \/ e ∈ seen st) /\ push sourceUrl st raw = st).
Proof.
  intros e. unfold push, pushable, accepted. fold e. cbv zeta.
  destruct (String.eqb e EmptyString); cbn [negb orb andb]; [right; auto|].
  destruct (includes e "@"); cbn [negb orb andb]; [|right; auto].
  destruct (decide (e ∈ seen st)) as [Hin|Hout].
  - rewrite bool_decide_eq_true_2 by exact Hin. right. auto.
  - rewrite bool_decide_eq_false_2 by exact Hout.
    destruct (isValidEmail e); cbn [negb andb]; [|right; auto].
    destruct (isJunkPrefix e); cbn [negb]; [right; auto|].
    left. repeat split; assumption.
Qed.

Lemma push_keeps_inv (sourceUrl : string) (st : RegexState) (raw : string) :
  push_inv sourceUrl st -> push_inv sourceUrl (push sourceUrl st raw).
Proof.
  intros (Hseen & Hnd & Hshape).
  destruct (push_cases sourceUrl st raw) as [(Hok & Hnew & ->)|[_ ->]];
    [|repeat split; assumption || apply Hseen].
  cbv zeta in *. set (e := normalizeEmail raw) in *.
  split; [|split]; cbn [seen out].
  - intros e'. rewrite map_app, in_app_iff. cbn [List.map In regexRecord email].
    rewrite elem_of_union, elem_of_singleton, Hseen. intuition.
  - rewrite map_app. apply List.NoDup_app; [exact Hnd|repeat constructor; intros []|].
    intros e' He' [<-|[]]. apply Hnew, Hseen, He'.
  - apply Forall_app. split; [exact Hshape|].
    constructor; [|constructor]. split; [reflexivity|exact Hok].
Qed.

Lemma fold_push_inv (sourceUrl : string) (raws : list string) (st : RegexState) :
  push_inv sourceUrl st -> push_inv sourceUrl (fold_left (push sourceUrl) raws st).
Proof.
  revert st. induction raws as [|raw raws IH]; intros st Hinv; [exact Hinv|].
  apply IH, push_keeps_inv, Hinv.
Qed.

(** An address is recorded after the loop exactly when it was recorded
    before or one of the raw matches normalizes to it and may be pushed. *)
Lemma fold_push_emails (sourceUrl : string) (raws : list string) (st : RegexState) (e : string) :
  push_inv sourceUrl st ->
  In e (List.map email (out (fold_left (push sourceUrl) raws st)))
  <-> In e (List.map email (out st))
      \/ exists raw, In raw raws /\ normalizeEmail raw = e /\ pushable e = true.
Proof.
  revert st. induction raws as [|raw raws IH]; intros st Hinv; cbn [fold_left].
  - split; [auto|]. intros [H|(raw & [] & _)]. exact H.
  - rewrite (IH _ (push_keeps_inv sourceUrl st raw Hinv)).
    destruct Hinv as (Hseen & _ & _).
    destruct (push_cases sourceUrl st raw) as [(Hok & Hnew & ->)|[Hwhy ->]]; cbv zeta in *.
    + cbn [out]. rewrite map_app, in_app_iff. cbn [List.map In regexRecord email]. split.
      * intros [[H|[<-|[]]]|(raw' & Hin & Hn & Hp)]; [auto| |].
        -- right. exists raw. split; [left; reflexivity|auto].
        -- right. exists raw'. split; [right; exact Hin|auto].
      * intros [H|(raw' & [->|Hin] & Hn & Hp)]; [auto| |].
        -- left. right. left. exact Hn.
        -- right. exists raw'. auto.
    + split.
      * intros [H|(raw' & Hin & Hn & Hp)]; [auto|].
        right. exists raw'. split; [right; exact Hin|auto].
      * intros [H|(raw' & [->|Hin] & Hn & Hp)]; [auto| |].
        -- destruct Hwhy as [Hno|Hseen']; [congruence|].
           left. apply Hseen. rewrite <- Hn. exact Hseen'.
        -- right. exists raw'. auto.
Qed.

Lemma push_inv_empty (sourceUrl : string) :
  push_inv sourceUrl {| seen := ∅; out := [] |}.
Proof.
  split; [|split]; cbn [seen out List.map]; [|constructor|constructor].
  intros e. split; [intros H; exact (not_elem_of_empty e H)|intros []].
Qed.

End MoreExtraction.

(** X2.  The pattern extraction of one page records no address twice;
    every record carries the page address, confidence 0.9, the mark
    [regex] and the type [generic] exactly when [isGeneric] holds of its
    address; and an address is recorded exactly when some mailto address or
    text match normalizes to it, is not empty, contains [@] and passes the
    two filters. *)
Theorem extractEmailsRegex_records (mailto matches : list string) (sourceUrl : string) :
  let out := Email.extractEmailsRegex mailto matches sourceUrl in
  List.NoDup (List.map Email.email out)
  /\ (forall c, In c out ->
        Email.source_url c = sourceUrl
        /\ Email.confidence c = 0.9%Q
        /\ Email.extracted_by c = Email.regex
        /\ Email.email_type c
           = (if Email.isGeneric (Email.email c) then Email.generic else Email.personal))
  /\ (forall e, In e (List.map Email.email out)
                <-> exists raw, In raw (mailto ++ matches)%list
                                /\ Email.normalizeEmail raw = e
                                /\ EmailSpec.pushable e = true).
Proof.
  intros out.
  pose proof (fold_push_inv sourceUrl mailto _ (push_inv_empty sourceUrl)) as Hinv1.
  pose proof (fold_push_inv sourceUrl matches _ Hinv1) as Hinv2.
  destruct Hinv2 as (_ & Hnd & Hshape).
  split; [exact Hnd|]. split.
  - intros c Hc. rewrite List.Forall_forall in Hshape. destruct (Hshape c Hc) as [-> _].
    repeat split.
  - intros e. subst out. unfold Email.extractEmailsRegex. cbv zeta.
    rewrite (fold_push_emails sourceUrl matches _ e Hinv1).
    rewrite (fold_push_emails sourceUrl mailto _ e (push_inv_empty sourceUrl)).
    cbn [Email.out List.map In]. split.
    + intros [[[]|(raw & Hin & H)]|(raw & Hin & H)]; exists raw;
        (split; [apply in_or_app; auto|exact H]).
    + intros (raw & [Hin|Hin]%in_app_or & H); [left; right|right]; exists raw; auto.
Qed.

(** X3.  Whatever the external model replies, the wrapper returns at most
    one candidate per entry of the reply, each with a confidence between 0
    and 1, the mark [ai], the page address, and an address that is
    normalized and contains [@]. *)
Theorem llmCandidates_sanitized (reply : list Email.LlmEmail) (sourceUrl : string) :
  (List.length (Email.llmCandidates reply sourceUrl) <= List.length reply)%nat
  /\ (forall c, In c (Email.llmCandidates reply sourceUrl) ->
        EmailSpec.inUnit (Email.confidence c)
        /\ Email.extracted_by c = Email.ai
        /\ Email.source_url c = sourceUrl
        /\ Email.normalizeEmail (Email.email c) = Email.email c
        /\ Js.includes (Email.email c) "@" = true).
Proof.
  induction reply as [|e reply [IHlen IH]]; cbn [Email.llmCandidates].
  - split; [reflexivity|intros c []].
  - destruct (String.eqb _ _ || negb (Js.includes _ "@")) eqn:Hskip.
    + split; [cbn [List.length]; lia|exact IH].
    + split; [cbn [List.length]; lia|].
      intros c [<-|Hc]; [|exact (IH c Hc)].
      apply orb_false_elim in Hskip as [_ Hat%negb_false_iff].
      cbn [Email.confidence Email.extracted_by Email.source_url Email.email].
      split; [|split; [reflexivity|split; [reflexivity|split;
               [apply (normalizeEmail_idem (Email.llm_email e))|exact Hat]]]].
      unfold Email.llmConfidence, EmailSpec.inUnit.
      destruct (Email.llm_confidence e) as [q|]; [|split; discriminate].
      destruct (Qlt_le_dec q 0); [split; discriminate|].
      destruct (Qlt_le_dec 1 q); [split; discriminate|]. split; assumption.
Qed.

(** ** Merge and ranking, as a whole *)

Section MoreMerge.
Import Js Email EmailSpec.

Lemma lastFor_none_from (e : string) (l : list Candidate) (o : option Candidate) :
  fold_left (fun o r => if String.eqb (email r) e then Some r else o) l o = None ->
  o = None /\ forall r, In r l -> email r <> e.
Proof.
  revert o. induction l as [|x l IH]; intros o; cbn [fold_left].
  - intros ->. split; [reflexivity|intros r []].
  - intros [Ho Hl]%IH. destruct (String.eqb_spec (email x) e) as [He|He]; [discriminate|].
    split; [exact Ho|]. intros r [<-|Hr]; [exact He|exact (Hl r Hr)].
Qed.

Lemma lastFor_present (e : string) (l : list Candidate) :
  In e (List.map email l) -> exists r, lastFor e l = Some r.
Proof.
  intros (r & He & Hr)%in_map_iff. destruct (lastFor e l) as [r'|] eqn:H; [eauto|].
  apply lastFor_none_from in H as [_ H]. exfalso. exact (H r Hr He).
Qed.

Lemma acceptedFor_present (e : string) (l : list Candidate) :
  accepted e = true -> In e (List.map email l) -> acceptedFor e l <> [].
Proof.
  intros Hacc (a & He & Ha)%in_map_iff Hnil.
  assert (Hin : In a (acceptedFor e l)).
  { unfold acceptedFor. apply filter_In. split; [exact Ha|].
    rewrite He, Hacc. apply String.eqb_refl. }
  rewrite Hnil in Hin. destruct Hin.
Qed.

Lemma absorb_some (l : list Candidate) (o : option Candidate) :
  l <> [] \/ o <> None -> exists c, fold_left absorb l o = Some c.
Proof.
  destruct l as [|a l].
  - intros [H|H]; [contradiction|]. destruct o as [x|]; [eauto|contradiction].
  - intros _. cbn [fold_left]. destruct o as [x|]; cbn [absorb]; rewrite absorb_fold; eauto.
Qed.

Lemma merged_email_iff (aiList regexList : list Candidate) (e : string) :
  In e (List.map email (mergeEmailResults aiList regexList))
  <-> In e (List.map email regexList)
      \/ (accepted e = true /\ In e (List.map email aiList)).
Proof.
  split.
  - intros (c & <- & Hc)%in_map_iff. apply merged_entry in Hc.
    destruct (lastFor (email c) regexList) as [r|] eqn:Hr.
    + left. apply lastFor_In in Hr as [Hin <-]. apply in_map, Hin.
    + right. destruct (acceptedFor (email c) aiList) as [|a l] eqn:Ha; [discriminate|].
      assert (Hin : In a (acceptedFor (email c) aiList)) by (rewrite Ha; left; reflexivity).
      apply acceptedFor_In in Hin as (Hin & Hacc & He). rewrite <- He.
      split; [exact Hacc|apply in_map, Hin].
  - intros H.
    destruct (absorb_some (acceptedFor e aiList) (lastFor e regexList)) as [c Hc].
    { destruct H as [(r & Hr)%lastFor_present|[Hacc Hin]].
      - right. rewrite Hr. discriminate.
      - left. apply acceptedFor_present; assumption. }
    apply merged_entry_for in Hc as [Hin <-]. apply in_map, Hin.
Qed.

Lemma map_set_fresh (m : EmailMap) (k : string) (v : Candidate) :
  ~ In k (List.map fst m) -> map_set m k v = (m ++ [(k, v)])%list.
Proof.
  induction m as [|[k0 v0] m IH]; cbn [map_set List.map fst In]; [reflexivity|].
  intros Hk. destruct (String.eqb_spec k0 k) as [->|_]; [tauto|].
  rewrite IH by tauto. reflexivity.
Qed.

Lemma fold_set_distinct (regexList : list Candidate) (m : EmailMap) :
  List.NoDup (List.map fst m ++ List.map email regexList) ->
  fold_left (fun m r => map_set m (email r) r) regexList m
  = (m ++ List.map (fun r => (email r, r)) regexList)%list.
Proof.
  revert m. induction regexList as [|r l IH]; intros m Hnd; cbn [fold_left List.map].
  - rewrite app_nil_r. reflexivity.
  - cbn [List.map] in Hnd. rewrite map_set_fresh.
    + rewrite IH; [rewrite <- app_assoc; reflexivity|].
      rewrite map_app, <- app_assoc. exact Hnd.
    + apply NoDup_remove_2 in Hnd. intros Hin. apply Hnd, in_or_app. left. exact Hin.
Qed.

(** A property of candidates that holds of both lists and is kept when an
    entry takes in an external record holds of every merged candidate. *)
Lemma merged_Forall (P : Candidate -> Prop) (aiList regexList : list Candidate) :
  (forall x a, P x -> P a -> P (corroborate x a)) ->
  Forall P regexList -> Forall P aiList ->
  Forall P (mergeEmailResults aiList regexList).
Proof.
  intros Hstep Hr Ha. apply List.Forall_forall. intros c Hc%merged_entry.
  assert (Hstart : match lastFor (email c) regexList with Some r => P r | None => True end).
  { destruct (lastFor (email c) regexList) as [r|] eqn:H; [|exact I].
    apply lastFor_In in H as [H _]. rewrite List.Forall_forall in Hr. exact (Hr r H). }
  assert (Hl : Forall P (acceptedFor (email c) aiList)).
  { apply List.Forall_forall. intros a [Hin _]%acceptedFor_In.
    rewrite List.Forall_forall in Ha. exact (Ha a Hin). }
  revert Hc Hstart. generalize (lastFor (email c) regexList).
  induction Hl as [|a l Pa _ IH]; intros o; cbn [fold_left].
  - intros -> Hp. exact Hp.
  - intros Hc Ho. apply (IH _ Hc). destruct o as [x|]; cbn [absorb]; auto.
Qed.

Lemma NoDup_firstn {A} (n : nat) (l : list A) : List.NoDup l -> List.NoDup (firstn n l).
Proof.
  intros Hnd. revert n. induction Hnd as [|x l Hx _ IH]; intros [|n]; cbn [firstn];
    try constructor; [|apply IH].
  intros Hin%in_firstn. contradiction.
Qed.

Lemma slice0_NoDup {A} (l : list A) (n : Z) : List.NoDup l -> List.NoDup (slice0 l n).
Proof. unfold slice0. destruct (n <? 0); apply NoDup_firstn. Qed.

Lemma slice0_map {A B} (f : A -> B) (l : list A) (n : Z) :
  List.map f (slice0 l n) = slice0 (List.map f l) n.
Proof. unfold slice0. rewrite length_map. destruct (n <? 0); symmetry; apply firstn_map. Qed.

Lemma pickBestEmails_NoDup (emails : list Candidate) (n : Z) :
  List.NoDup (List.map email emails) -> List.NoDup (List.map email (pickBestEmails emails n)).
Proof.
  intros Hnd. unfold pickBestEmails. rewrite slice0_map. apply slice0_NoDup.
  eapply Permutation_NoDup; [|exact Hnd].
  apply Permutation_map, Permutation_sym, sortByPriority_perm.
Qed.

Lemma pickBestEmails_length (emails : list Candidate) (n : Z) :
  0 <= n -> Z.of_nat (List.length (pickBestEmails emails n)) <= n.
Proof.
  intros Hn. unfold pickBestEmails. rewrite slice0_nonneg, length_firstn by exact Hn. lia.
Qed.

Lemma sortByPriority_sorted_id (l : list Candidate) :
  StronglySorted ranksBefore l -> sortByPriority l = l.
Proof.
  induction 1 as [|x l Hl IH Hx]; [reflexivity|].
  cbn [sortByPriority]. rewrite IH. destruct l as [|y l]; [reflexivity|].
  cbn [insertByPriority]. apply Forall_cons_iff in Hx as [Hxy _].
  unfold ranksBefore in Hxy. destruct (Nat.leb_spec (priorityOf x) (priorityOf y)); [reflexivity|lia].
Qed.

Lemma StronglySorted_firstn (n : nat) (l : list Candidate) :
  StronglySorted ranksBefore l -> StronglySorted ranksBefore (firstn n l).
Proof.
  intros Hs. revert n. induction Hs as [|x l Hl IH Hx]; intros [|n]; cbn [firstn];
    try constructor; [apply IH|].
  apply List.Forall_forall. intros y Hy%in_firstn.
  rewrite List.Forall_forall in Hx. exact (Hx y Hy).
Qed.

Lemma collect_app (enableAi : bool) (pages : list PageScan) (allRegex allAi : list Candidate) :
  collect enableAi pages allRegex allAi
  = ((allRegex ++ fst (collect enableAi pages [] []))%list,
     (allAi ++ snd (collect enableAi pages [] []))%list).
Proof.
  revert allRegex allAi. induction pages as [|p pages IH]; intros allRegex allAi; cbn [collect].
  - rewrite !app_nil_r. reflexivity.
  - rewrite IH. rewrite (IH ([] ++ _)%list). cbn [fst snd app].
    destruct (enableAi && hasVisibleText p); cbn [app]; rewrite <- ?app_assoc; reflexivity.
Qed.

Lemma collect_no_ai (pages : list PageScan) : snd (collect false pages [] []) = [].
Proof.
  induction pages as [|p pages IH]; [reflexivity|].
  cbn [collect andb app]. rewrite collect_app. cbn [snd app]. exact IH.
Qed.

Lemma collect_regex_shape (enableAi : bool) (pages : list PageScan) :
  Forall (fun c => exists p, In p pages /\ c = regexRecord (url p) (email c))
         (fst (collect enableAi pages [] [])).
Proof.
  induction pages as [|p pages IH]; [constructor|].
  cbn [collect app]. rewrite collect_app. cbn [fst]. apply Forall_app. split.
  - pose proof (fold_push_inv (url p) (matches p) _
                  (fold_push_inv (url p) (mailto p) _ (push_inv_empty (url p))))
      as (_ & _ & Hshape).
    eapply List.Forall_impl; [|exact Hshape].
    intros c [Hc _]. exists p. split; [left; reflexivity|exact Hc].
  - eapply List.Forall_impl; [|exact IH]. intros c (p' & Hp' & Hc). exists p'. split; [right|]; auto.
Qed.

Lemma llmConfidence_unit (c : option Q) : inUnit (llmConfidence c).
Proof.
  unfold llmConfidence, inUnit. destruct c as [q|]; [|split; discriminate].
  destruct (Qlt_le_dec q 0); [split; discriminate|].
  destruct (Qlt_le_dec 1 q); [split; discriminate|]. split; assumption.
Qed.

Lemma llmCandidates_unit (reply : list LlmEmail) (sourceUrl : string) :
  Forall (fun c => inUnit (confidence c)) (llmCandidates reply sourceUrl).
Proof.
  induction reply as [|e reply IH]; cbn [llmCandidates]; [constructor|].
  destruct (_ || _); [exact IH|]. constructor; [apply llmConfidence_unit|exact IH].
Qed.

Lemma collect_ai_unit (enableAi : bool) (pages : list PageScan) :
  Forall (fun c => inUnit (confidence c)) (snd (collect enableAi pages [] [])).
Proof.
  induction pages as [|p pages IH]; [constructor|].
  cbn [collect app]. rewrite collect_app. cbn [snd]. apply Forall_app. split; [|exact IH].
  destruct (enableAi && hasVisibleText p); [|constructor].
  apply llmCandidates_unit.
Qed.

End MoreMerge.

Section MoreCollect.
Import Js Email EmailSpec.

Lemma llmCandidates_ai (reply : list LlmEmail) (sourceUrl : string) :
  Forall (fun c => extracted_by c = ai) (llmCandidates reply sourceUrl).
Proof.
  induction reply as [|e reply IH]; cbn [llmCandidates]; [constructor|].
  destruct (_ || _); [exact IH|]. constructor; [reflexivity|exact IH].
Qed.

Lemma collect_ai_mark (enableAi : bool) (pages : list PageScan) :
  Forall (fun c => extracted_by c = ai) (snd (collect enableAi pages [] [])).
Proof.
  induction pages as [|p pages IH]; [constructor|].
  cbn [collect app]. rewrite collect_app. cbn [snd]. apply Forall_app. split; [|exact IH].
  destruct (enableAi && hasVisibleText p); [apply llmCandidates_ai|constructor].
Qed.

Lemma collect_pair (enableAi : bool) (pages : list PageScan) :
  extractEmailsFromPages pages enableAi
  = fun maxEmails =>
      pickBestEmails (mergeEmailResults (snd (collect enableAi pages [] []))
                                        (fst (collect enableAi pages [] []))) maxEmails.
Proof.
  unfold extractEmailsFromPages. destruct (collect enableAi pages [] []). reflexivity.
Qed.

End MoreCollect.

(** X4.  The addresses of the merged list are those of the pattern list
    together with those of the external list that pass the two filters:
    no pattern address is lost and no rejected external address gets in.
    With no external record at all, a pattern list free of repeated
    addresses comes back as it is. *)
Theorem merge_addresses (aiList regexList : list Email.Candidate) :
  (forall e,
      In e (List.map Email.email (Email.mergeEmailResults aiList regexList))
      <-> In e (List.map Email.email regexList)
          \/ (Email.accepted e = true /\ In e (List.map Email.email aiList)))
  /\ (List.NoDup (List.map Email.email regexList) ->
      Email.mergeEmailResults [] regexList = regexList).
Proof.
  split; [intros e; apply merged_email_iff|].
  intros Hnd. unfold Email.mergeEmailResults. cbn [fold_left].
  rewrite (fold_set_distinct regexList []) by exact Hnd.
  unfold Email.map_values. cbn [app]. rewrite map_map. cbn [snd]. apply map_id.
Qed.

Lemma merge_addresses_witness :
  let r1 := EmailSpec.regexRecord "https://acme-travel.com/" "info@acme-travel.com" in
  let r2 := EmailSpec.regexRecord "https://acme-travel.com/" "jane@acme-travel.com" in
  Email.mergeEmailResults [] [r1; r2] = [r1; r2].
Proof.
  intros r1 r2. apply (proj2 (merge_addresses [] [r1; r2])).
  repeat constructor; cbn; intuition discriminate.
Defined.

(** X5.  [extractEmailsFromPages] never returns an address twice, and for
    a maximum that is not negative it returns at most that many
    candidates. *)
Theorem extractEmailsFromPages_distinct_capped (pages : list Email.PageScan)
        (enableAi : bool) (maxEmails : Z) :
  let out := Email.extractEmailsFromPages pages enableAi maxEmails in
  List.NoDup (List.map Email.email out)
  /\ (0 <= maxEmails -> Z.of_nat (List.length out) <= maxEmails).
Proof.
  intros out. subst out. rewrite collect_pair. split.
  - apply pickBestEmails_NoDup, merged_emails_NoDup.
  - apply pickBestEmails_length.
Qed.

Lemma extractEmailsFromPages_distinct_capped_witness :
  let page := {| Email.url := "https://acme-travel.com/contact";
                 Email.mailto := ["info@acme-travel.com"; "Info@Acme-Travel.com"];
                 Email.matches := ["sales@acme-travel.com"; "jane@acme-travel.com"];
                 Email.hasVisibleText := true; Email.llmReply := [] |} in
  (Z.of_nat (List.length (Email.extractEmailsFromPages [page; page] false 2)) <= 2).
Proof.
  intros page.
  apply (proj2 (extractEmailsFromPages_distinct_capped [page; page] false 2)). lia.
Defined.

(** X6.  Every candidate returned by [extractEmailsFromPages] has a
    confidence between 0 and 1.  A returned candidate marked [regex] is the
    record the pattern extraction builds for its address on one of the
    pages: confidence 0.9 and the type given by [isGeneric].  When the
    external extraction is off, every returned candidate is such a
    record. *)
Theorem extractEmailsFromPages_confidence_provenance (pages : list Email.PageScan)
        (enableAi : bool) (maxEmails : Z) (c : Email.Candidate) :
  In c (Email.extractEmailsFromPages pages enableAi maxEmails) ->
  EmailSpec.inUnit (Email.confidence c)
  /\ (Email.extracted_by c = Email.regex \/ enableAi = false ->
      exists p, In p pages /\ c = EmailSpec.regexRecord (Email.url p) (Email.email c)).
Proof.
  rewrite collect_pair. intros Hin%pickBestEmails_In.
  pose proof (collect_regex_shape enableAi pages) as Hshape.
  split.
  - revert c Hin. apply List.Forall_forall. apply merged_Forall.
    + intros x a Hx Ha. cbn [Email.corroborate Email.confidence].
      destruct (Math_max_cases (Email.confidence x) (Email.confidence a)) as [-> | ->];
        assumption.
    + eapply List.Forall_impl; [|exact Hshape]. intros r (p & _ & ->).
      cbn [EmailSpec.regexRecord Email.confidence]. split; discriminate.
    + apply collect_ai_unit.
  - intros [Hmark|Hoff].
    + assert (Hall : Forall
               (fun c => Email.extracted_by c = Email.regex ->
                         exists p, In p pages
                                   /\ c = EmailSpec.regexRecord (Email.url p) (Email.email c))
               (Email.mergeEmailResults (snd (Email.collect enableAi pages [] []))
                                        (fst (Email.collect enableAi pages [] []))));
        [apply merged_Forall|exact (proj1 (List.Forall_forall _ _) Hall c Hin Hmark)].
      * intros x a _ _. cbn [Email.corroborate Email.extracted_by]. discriminate.
      * eapply List.Forall_impl; [|exact Hshape]. intros r H _. exact H.
      * eapply List.Forall_impl; [|apply collect_ai_mark]. intros a -> . discriminate.
    + subst enableAi. rewrite collect_no_ai in Hin. apply merged_entry in Hin.
      unfold Email.acceptedFor in Hin. cbn [List.filter fold_left] in Hin.
      apply lastFor_In in Hin as [Hin _].
      rewrite List.Forall_forall in Hshape. exact (Hshape c Hin).
Qed.

Lemma extractEmailsFromPages_confidence_provenance_witness :
  let page := {| Email.url := "https://acme-travel.com/contact";
                 Email.mailto := ["info@acme-travel.com"];
                 Email.matches := []; Email.hasVisibleText := true;
                 Email.llmReply := [ {| Email.llm_email := "info@acme-travel.com";
                                        Email.llm_type := "generic";
                                        Email.llm_confidence := Some 7%Q |} ] |} in
  EmailSpec.inUnit 1%Q.
Proof.
  intros page.
  refine (proj1 (extractEmailsFromPages_confidence_provenance [page] true 5
                   {| Email.email := "info@acme-travel.com";
                      Email.source_url := "https://acme-travel.com/contact";
                      Email.email_type := Email.generic;
                      Email.confidence := 1; Email.extracted_by := Email.both |} _)).
  vm_compute. left. reflexivity.
Defined.

(** X7.  For a maximum that is not negative, ranking the result of a
    ranking again changes nothing, and the result for a smaller maximum is
    the head of the result for a larger one. *)
Theorem pickBestEmails_idempotent_prefix (emails : list Email.Candidate) (n m : Z) :
  0 <= n -> n <= m ->
  Email.pickBestEmails (Email.pickBestEmails emails n) n = Email.pickBestEmails emails n
  /\ Email.pickBestEmails emails n = firstn (Z.to_nat n) (Email.pickBestEmails emails m).
Proof.
  intros Hn Hm. unfold Email.pickBestEmails.
  rewrite !slice0_nonneg by lia. split.
  - rewrite sortByPriority_sorted_id
      by apply StronglySorted_firstn, sortByPriority_sorted.
    rewrite firstn_firstn. f_equal. lia.
  - rewrite firstn_firstn. f_equal. lia.
Qed.

Lemma pickBestEmails_idempotent_prefix_witness :
  let l := [EmailSpec.regexRecord "https://x.com/" "jane@x.com";
            EmailSpec.regexRecord "https://x.com/" "sales@x.com";
            EmailSpec.regexRecord "https://x.com/" "info@x.com"] in
  Email.pickBestEmails (Email.pickBestEmails l 2) 2 = Email.pickBestEmails l 2.
Proof.
  intros l. apply (proj1 (pickBestEmails_idempotent_prefix l 2 5 ltac:(lia) ltac:(lia))).
Defined.

(** ** Relevance and region filter, further *)

Section MoreRelevance.
Import Js Relevance.

Lemma fold_scoreTerm_matched (text : string) (terms : list string) (acc : Score) :
  matchedTerms (fold_left (scoreTerm text) terms acc)
  = (matchedTerms acc ++ List.filter (fun t => includes text t) terms)%list.
Proof.
  revert acc. induction terms as [|t terms IH]; intros acc; cbn [fold_left List.filter].
  - rewrite app_nil_r. reflexivity.
  - rewrite IH. unfold scoreTerm. destruct (includes text t); cbn [matchedTerms].
    + rewrite <- app_assoc. reflexivity.
    + reflexivity.
Qed.

Lemma includes_empty (s : string) : includes s EmptyString = true.
Proof. destruct s; reflexivity. Qed.

Lemma includes_app_l (a b h : string) : includes b h = true -> includes (a ++ b) h = true.
Proof.
  intros H. induction a as [|c a IH]; [exact H|].
  change (String c a ++ b) with (String c (a ++ b)). cbn [includes].
  rewrite IH. apply orb_true_r.
Qed.

Lemma endsWith_app_l (a b t : string) : endsWith b t = true -> endsWith (a ++ b) t = true.
Proof.
  intros H. induction a as [|c a IH]; [exact H|].
  change (String c a ++ b) with (String c (a ++ b)). cbn [endsWith].
  rewrite IH. apply orb_true_r.
Qed.

Lemma existsb_impl {A} (f g : A -> bool) (l : list A) :
  (forall x, f x = true -> g x = true) -> existsb f l = true -> existsb g l = true.
Proof.
  intros Hfg (x & Hx & Hf)%existsb_exists. apply existsb_exists. exists x. auto.
Qed.

Lemma toLowerCase_empty (s : string) :
  String.eqb (toLowerCase s) EmptyString = String.eqb s EmptyString.
Proof. destruct s; reflexivity. Qed.

End MoreRelevance.

(** X8.  Whatever function lower-cases the text and the block list, the
    matched terms reported with the score are, in this order: the label of
    the core region when one of its terms occurs in the lower-cased text,
    the destination terms that occur in it, in the order of the fixed list,
    and the label [unrelated] when a lower-cased block-list keyword occurs
    in it.  The score lies between -2 and 8. *)
Theorem scoreRelevance_matched_bounds (toLowerCase : string -> string)
        (combinedText : string) (unrelatedKeywords : list string) :
  let text := toLowerCase combinedText in
  let r := Relevance.scoreRelevance toLowerCase combinedText unrelatedKeywords in
  Relevance.matchedTerms r
  = ((if existsb (fun t => Js.includes text t) Relevance.TURKEY_TERMS
      then ["Turkey/Türkiye"] else [])
     ++ List.filter (fun t => Js.includes text t) Relevance.DESTINATION_TERMS
     ++ (if existsb (fun k => Js.includes text k) (List.map toLowerCase unrelatedKeywords)
         then ["unrelated"] else []))%list
  /\ -2 <= Relevance.relevanceScore r <= 8.
Proof.
  intros text r. split.
  - subst r. unfold Relevance.scoreRelevance. cbv zeta. fold text.
    destruct (existsb _ (List.map _ _)); cbn [Relevance.matchedTerms];
      rewrite fold_scoreTerm_matched;
      destruct (existsb _ Relevance.TURKEY_TERMS); cbn [Relevance.matchedTerms app];
      rewrite ?app_nil_r, <- ?app_assoc; reflexivity.
  - subst r. rewrite scoreRelevance_sum. fold text.
    assert (Hhits : (Relevance.destinationHits text <= 6)%nat)
      by apply (filter_length_le _ Relevance.DESTINATION_TERMS).
    unfold Relevance.coreBonus, Relevance.blockPenalty.
    destruct (existsb _ Relevance.TURKEY_TERMS); destruct (existsb _ (List.map _ _)); lia.
Qed.

(** X9.  Whatever function lower-cases the text and the block list, the
    result depends on them through their lower-cased forms only: two texts
    that lower-case alike, scored against two block lists whose keywords
    lower-case alike, get the same score and the same matched terms.  A
    block list with a keyword that lower-cases to the empty string takes 2
    off the score of every text. *)
Theorem scoreRelevance_case_and_empty_keyword (toLowerCase : string -> string)
        (text1 text2 : string) (keywords1 keywords2 : list string) :
  (toLowerCase text1 = toLowerCase text2 ->
   List.map toLowerCase keywords1 = List.map toLowerCase keywords2 ->
   Relevance.scoreRelevance toLowerCase text1 keywords1
   = Relevance.scoreRelevance toLowerCase text2 keywords2)
  /\ (In EmptyString (List.map toLowerCase keywords1) ->
      Relevance.relevanceScore (Relevance.scoreRelevance toLowerCase text1 keywords1)
      = Relevance.coreBonus (toLowerCase text1)
        + Z.of_nat (Relevance.destinationHits (toLowerCase text1)) - 2).
Proof.
  split.
  - intros Htext Hkeys. unfold Relevance.scoreRelevance. rewrite Htext, Hkeys. reflexivity.
  - intros Hin. rewrite scoreRelevance_sum. unfold Relevance.blockPenalty.
    replace (existsb _ (List.map toLowerCase keywords1)) with true; [reflexivity|].
    symmetry. apply existsb_exists. exists EmptyString. split; [exact Hin|apply includes_empty].
Qed.

Lemma scoreRelevance_case_and_empty_keyword_witness :
  Relevance.scoreRelevance Js.toLowerCase "Tours in TURKEY" ["Casino"; ""]
  = Relevance.scoreRelevance Js.toLowerCase "tours in Turkey" ["casino"; ""]
  /\ Relevance.relevanceScore
       (Relevance.scoreRelevance Js.toLowerCase "Tours in TURKEY" ["Casino"; ""]) = 0.
Proof.
  destruct (scoreRelevance_case_and_empty_keyword Js.toLowerCase
              "Tours in TURKEY" "tours in Turkey" ["Casino"; ""] ["casino"; ""])
    as [Hsame Hempty].
  split.
  - apply Hsame; vm_compute; reflexivity.
  - apply Hempty. vm_compute. right. left. reflexivity.
Defined.

(** X10.  The region filter does not depend on the case of the letters of
    the domain, rejects nothing for the empty domain, and excludes every
    domain obtained by writing something in front of an excluded domain
    (so every subdomain of an excluded domain). *)
Theorem isTurkeyBasedDomain_closed (front domain : string) :
  Region.isTurkeyBasedDomain (Js.toLowerCase domain) = Region.isTurkeyBasedDomain domain
  /\ Region.isTurkeyBasedDomain EmptyString = false
  /\ (Region.isTurkeyBasedDomain domain = true ->
      Region.isTurkeyBasedDomain (front ++ domain) = true).
Proof.
  split; [|split; [reflexivity|]].
  - unfold Region.isTurkeyBasedDomain. rewrite toLowerCase_empty, toLowerCase_idem. reflexivity.
  - unfold Region.isTurkeyBasedDomain.
    destruct (String.eqb_spec domain EmptyString) as [->|Hne]; [discriminate|].
    destruct (String.eqb_spec (front ++ domain) EmptyString) as [Hempty|_].
    { destruct front; [contradiction|discriminate]. }
    rewrite toLowerCase_app.
    set (d := Js.toLowerCase domain). set (fd := Js.toLowerCase front ++ d).
    pose proof (existsb_impl (fun t => Js.endsWith d t) (fun t => Js.endsWith fd t)
                  Region.TURKEY_TLDS (fun t => endsWith_app_l _ _ t)) as Htld.
    pose proof (existsb_impl (fun h => Js.includes d h) (fun h => Js.includes fd h)
                  Region.TURKEY_DOMAIN_HINTS (fun h => includes_app_l _ _ h)) as Hhint.
    destruct (existsb (fun t => Js.endsWith d t) Region.TURKEY_TLDS).
    + intros _. rewrite Htld; reflexivity.
    + destruct (existsb (fun h => Js.includes d h) Region.TURKEY_DOMAIN_HINTS); [|discriminate].
      intros _. rewrite Hhint by reflexivity.
      destruct (existsb (fun t => Js.endsWith fd t) Region.TURKEY_TLDS); reflexivity.
Qed.

Lemma isTurkeyBasedDomain_closed_witness :
  Region.isTurkeyBasedDomain ("booking." ++ "Istanbul-Tours.com") = true.
Proof.
  apply (proj2 (proj2 (isTurkeyBasedDomain_closed "booking." "Istanbul-Tours.com"))).
  vm_compute. reflexivity.
Defined.

(** ** Scheduler, further *)

Section MoreScheduler.
Import Js Scheduler SchedulerSpec.

Variable cfg : Config.

Lemma fold_snowballOne_rows (source : string) (d : Z) (added : list string) (st : State) :
  allRows (fold_left (snowballOne source d) added st) = allRows st.
Proof.
  revert st. induction added as [|sd added IH]; intros st; cbn [fold_left]; [reflexivity|].
  rewrite IH. unfold snowballOne. destruct (bool_decide _); reflexivity.
Qed.

Lemma fold_snowballOne_writing (source : string) (d : Z) (added : list string) (st : State) :
  writing (fold_left (snowballOne source d) added st) = writing st.
Proof.
  revert st. induction added as [|sd added IH]; intros st; cbn [fold_left]; [reflexivity|].
  rewrite IH. unfold snowballOne. destruct (bool_decide _); reflexivity.
Qed.

Lemma snowball_frame_full (st : State) (t : Task) (outbound : list string) :
  let st' := snowball cfg st t outbound in
  processedDomains st' = processedDomains st /\ crawlLog st' = crawlLog st
  /\ crawling st' = crawling st /\ extracting st' = extracting st
  /\ writing st' = writing st /\ allRows st' = allRows st.
Proof.
  unfold snowball. destruct (_ && _); [|repeat split].
  pose proof (fold_snowballOne (domainOf (rec t)) (depth t)
                (slice0 (List.filter (fun sd => negb (Region.isTurkeyBasedDomain sd)) outbound)
                        (snowballMaxPerSource cfg)) st) as H.
  cbv zeta in *. destruct H as (Hp & Hl & Hc & He & _).
  repeat split; try assumption; [apply fold_snowballOne_writing|apply fold_snowballOne_rows].
Qed.

Lemma snowballed_ok (st : State) (t : Task) (outbound : list string) :
  taskOk cfg t -> Forall (taskOk cfg) (snowballed cfg st t outbound).
Proof.
  intros [[Hlo Hhi] _]. unfold snowballed.
  destruct (snowballEnabled cfg && (depth t <? snowballMaxDepth cfg)) eqn:Hguard; [|constructor].
  apply andb_prop in Hguard as [_ Hdepth%Z.ltb_lt].
  apply List.Forall_forall. intros t' (sd & <- & Hsd)%in_map_iff.
  apply filter_In in Hsd as [Hsd%slice0_In _]. apply filter_In in Hsd as [_ Hregion].
  split; cbn [snowTask depth]; [lia|]. intros _.
  unfold taskDomain. cbn [snowTask rec domainOf snowRec domain].
  apply negb_true_iff, Hregion.
Qed.

(** A task that leaves one of the lists of running tasks leaves the other
    tasks in order. *)
Lemma delete_perm {A B} (f : A -> B) (l : list A) (i : nat) (x : A) :
  l !! i = Some x -> Permutation (List.map f l) (f x :: List.map f (delete i l)).
Proof.
  intros Hi. rewrite delete_take_drop. rewrite <- (take_drop_middle _ _ _ Hi) at 1.
  rewrite !map_app. cbn [List.map]. symmetry. apply Permutation_middle.
Qed.

Lemma perm_tail {A} (x : A) (a a' b : list A) :
  Permutation a (x :: a') -> Permutation (a ++ b) (x :: a' ++ b).
Proof. intros H. apply (Permutation_app_tail b) in H. exact H. Qed.

Lemma perm_head {A} (x : A) (a b b' : list A) :
  Permutation b (x :: b') -> Permutation (a ++ b) (x :: a ++ b').
Proof.
  intros H. etransitivity; [apply Permutation_app_head, H|].
  symmetry. apply Permutation_middle.
Qed.

Lemma working_split_crawling (st : State) (i : nat) (t : Task) :
  crawling st !! i = Some t ->
  Permutation (workingDomains st) (taskDomain t :: workingDomains (dropCrawling i st)).
Proof. intros Hi. apply perm_tail, delete_perm, Hi. Qed.

Lemma active_split_crawling (st : State) (i : nat) (t : Task) :
  crawling st !! i = Some t ->
  Permutation (activeDomains st) (taskDomain t :: activeDomains (dropCrawling i st)).
Proof. intros Hi. apply perm_tail, working_split_crawling, Hi. Qed.

Lemma working_split_extracting (st : State) (i : nat) (t : Task) (pages : list Page) :
  extracting st !! i = Some (t, pages) ->
  Permutation (workingDomains st) (taskDomain t :: workingDomains (dropExtracting i st)).
Proof.
  intros Hi. apply perm_head.
  apply (delete_perm (fun tp => taskDomain (fst tp)) _ _ _ Hi).
Qed.

Lemma active_split_extracting (st : State) (i : nat) (t : Task) (pages : list Page) :
  extracting st !! i = Some (t, pages) ->
  Permutation (activeDomains st) (taskDomain t :: activeDomains (dropExtracting i st)).
Proof. intros Hi. apply perm_tail, (working_split_extracting st i t pages), Hi. Qed.

Lemma active_split_writing (st : State) (i : nat) (t : Task) (k : WriteKind) :
  writing st !! i = Some (t, k) ->
  Permutation (activeDomains st) (taskDomain t :: activeDomains (dropWriting i st)).
Proof.
  intros Hi. apply perm_head.
  apply (delete_perm (fun tk => taskDomain (fst tk)) _ _ _ Hi).
Qed.

Lemma rowOk_weaken (st st' : State) (r : LeadRow) :
  (forall d, In d (crawlLog st) -> In d (crawlLog st')) ->
  (forall d, In d (workingDomains st') -> In d (workingDomains st) \/ ~ In d (crawlLog st)) ->
  rowOk cfg st r -> rowOk cfg st' r.
Proof.
  intros Hlog Hact (Hs & Hc & Hin & Hout).
  split; [exact Hs|]. split; [exact Hc|]. split; [apply Hlog, Hin|].
  intros H. destruct (Hact _ H); contradiction.
Qed.

Lemma sched_inv_init : sched_inv cfg init.
Proof.
  constructor.
  - apply crawl_inv_init.
  - constructor.
  - constructor.
  - constructor.
  - constructor.
  - constructor.
  - intros d [].
  - intros d [].
  - constructor.
  - constructor.
  - intros d. cbn. lia.
Qed.

Lemma inv_addDomain (st : State) (r : Rec) :
  sched_inv cfg st -> sched_inv cfg (addDomain st r).
Proof.
  intros H. unfold addDomain. destruct (bool_decide _); [exact H|].
  destruct H. constructor; try assumption.
  cbn [enqueue waiting]. apply Forall_app. split; [assumption|].
  constructor; [|constructor]. split; cbn [depth]; lia.
Qed.

Lemma inv_dropWaiting (st : State) : sched_inv cfg st -> sched_inv cfg (dropWaiting st).
Proof.
  intros H. destruct H. constructor; try assumption.
  cbn [dropWaiting waiting]. destruct (waiting st); [constructor|].
  eapply Forall_inv_tail; eassumption.
Qed.

(** A task that reaches its last write stays among the running tasks. *)
Lemma inv_suspendOnWrite (st : State) (t : Task) (k : WriteKind) :
  taskOk cfg t ->
  taskDomain t ∈ processedDomains st ->
  ~ In (taskDomain t) (activeDomains st) ->
  sched_inv cfg st -> sched_inv cfg (suspendOnWrite t k st).
Proof.
  intros Ht Hp Hout H.
  assert (Hactive : activeDomains (suspendOnWrite t k st)
                    = (activeDomains st ++ [taskDomain t])%list).
  { unfold activeDomains. cbn [suspendOnWrite writing]. rewrite map_app, app_assoc.
    reflexivity. }
  destruct H. constructor; try assumption.
  - cbn [suspendOnWrite writing]. apply Forall_app. split; [assumption|].
    constructor; [exact Ht|constructor].
  - rewrite Hactive. apply List.NoDup_app; [assumption|repeat constructor; intros []|].
    intros d Hd [<-|[]]. exact (Hout Hd).
  - rewrite Hactive. intros d [Hd|[<-|[]]]%in_app_or; [apply inv_started0, Hd|exact Hp].
Qed.

Lemma inv_logs (st : State) (d x : string) :
  sched_inv cfg st -> sched_inv cfg (logSkip d x st) /\ sched_inv cfg (logError d x st).
Proof. intros H. destruct H. split; constructor; assumption. Qed.

Lemma inv_start (st : State) (t : Task) :
  taskOk cfg t -> sched_inv cfg st -> sched_inv cfg (processOne_start st t).
Proof.
  intros Ht H. pose proof (processOne_start_inv st t (inv_crawl _ _ H)) as Hcrawl.
  revert Hcrawl. unfold processOne_start. fold (taskDomain t).
  destruct (bool_decide (taskDomain t ∈ processedDomains st)) eqn:Hmem; [intros _; exact H|].
  apply bool_decide_eq_false in Hmem.
  assert (Hfresh : ~ In (taskDomain t) (crawlLog st)).
  { intros Hin. apply Hmem. apply (proj2 (inv_crawl _ _ H)), Hin. }
  assert (Hidle : ~ In (taskDomain t) (activeDomains st)).
  { intros Hin. apply Hmem. apply (inv_started _ _ H), Hin. }
  destruct (Region.isTurkeyBasedDomain (taskDomain t)) eqn:Hregion; intros Hcrawl.
  - set (st' := {| processedDomains := _ |}) in *.
    assert (Hactive : activeDomains st' = (activeDomains st ++ [taskDomain t])%list).
    { unfold activeDomains. subst st'. cbn [writing]. rewrite map_app, app_assoc.
      reflexivity. }
    destruct H. constructor; try assumption.
    + subst st'. cbn [writing]. apply Forall_app. split; [assumption|].
      constructor; [exact Ht|constructor].
    + rewrite Hactive. apply List.NoDup_app; [assumption|repeat constructor; intros []|].
      intros d Hd [<-|[]]. exact (Hidle Hd).
    + rewrite Hactive. subst st'. cbn [processedDomains].
      intros d [Hd%inv_started0|[<-|[]]]%in_app_or; set_solver.
  - set (st' := {| processedDomains := _ |}) in *.
    assert (Hworking : Permutation (workingDomains st') (taskDomain t :: workingDomains st)).
    { unfold workingDomains. subst st'. cbn [crawling extracting]. rewrite map_app.
      cbn [List.map]. rewrite <- app_assoc. cbn [app]. symmetry. apply Permutation_middle. }
    assert (Hactive : Permutation (activeDomains st') (taskDomain t :: activeDomains st)).
    { apply (perm_tail _ _ _ _ Hworking). }
    destruct H. constructor; try assumption.
    + subst st'. cbn [crawling]. apply Forall_app. split; [assumption|].
      constructor; [exact Ht|constructor].
    + eapply Permutation_NoDup; [symmetry; exact Hactive|].
      constructor; [exact Hidle|exact inv_active0].
    + intros d Hd. apply (Permutation_in _ Hactive) in Hd. subst st'. cbn [processedDomains].
      destruct Hd as [<-|Hd%inv_started0]; set_solver.
    + intros d Hd. apply (Permutation_in _ Hworking) in Hd. subst st'. cbn [crawlLog].
      apply in_or_app. destruct Hd as [<-|Hd]; [right; left; reflexivity|left].
      apply inv_logged0, Hd.
    + subst st'. cbn [crawlLog]. apply Forall_app. split; [assumption|].
      constructor; [exact Hregion|constructor].
    + change (allRows st') with (allRows st). eapply List.Forall_impl; [|exact inv_rows0].
      intros r. apply rowOk_weaken.
      * subst st'. cbn [crawlLog]. intros d Hd. apply in_or_app. left. exact Hd.
      * intros d Hd. apply (Permutation_in _ Hworking) in Hd.
        destruct Hd as [<-|Hd]; [right; exact Hfresh|left; exact Hd].
Qed.

Lemma inv_dropCrawling (st : State) (i : nat) (t : Task) :
  crawling st !! i = Some t ->
  sched_inv cfg st ->
  sched_inv cfg (dropCrawling i st)
  /\ taskOk cfg t
  /\ taskDomain t ∈ processedDomains st
  /\ In (taskDomain t) (crawlLog st)
  /\ ~ In (taskDomain t) (activeDomains (dropCrawling i st))
  /\ Forall (fun r => row_domain r <> taskDomain t) (allRows st).
Proof.
  intros Hi H. pose proof (active_split_crawling st i t Hi) as Hperm.
  pose proof (working_split_crawling st i t Hi) as Hwork.
  assert (Hnd : List.NoDup (taskDomain t :: activeDomains (dropCrawling i st)))
    by (eapply Permutation_NoDup; [exact Hperm|apply (inv_active _ _ H)]).
  apply NoDup_cons_iff in Hnd as [Hout Hnd].
  assert (Hsub : forall d, In d (activeDomains (dropCrawling i st)) -> In d (activeDomains st)).
  { intros d Hd. eapply Permutation_in; [symmetry; exact Hperm|right; exact Hd]. }
  assert (Hsubw : forall d, In d (workingDomains (dropCrawling i st))
                            -> In d (workingDomains st)).
  { intros d Hd. eapply Permutation_in; [symmetry; exact Hwork|right; exact Hd]. }
  assert (Hact : In (taskDomain t) (activeDomains st))
    by (eapply Permutation_in; [symmetry; exact Hperm|left; reflexivity]).
  assert (Hworking : In (taskDomain t) (workingDomains st))
    by (eapply Permutation_in; [symmetry; exact Hwork|left; reflexivity]).
  split; [|split; [|split; [|split; [|split; [exact Hout|]]]]].
  - destruct H. constructor; try assumption.
    + cbn [dropCrawling crawling]. apply Forall_delete. assumption.
    + intros d Hd. apply inv_started0, Hsub, Hd.
    + intros d Hd. apply inv_logged0, Hsubw, Hd.
    + cbn [dropCrawling allRows]. eapply List.Forall_impl; [|exact inv_rows0].
      intros r. apply rowOk_weaken; [auto|]. intros d Hd. left. apply Hsubw, Hd.
  - pose proof (inv_crawling _ _ H) as Hall. rewrite List.Forall_forall in Hall.
    apply Hall. apply list_elem_of_In. eapply list_elem_of_lookup_2. exact Hi.
  - apply (inv_started _ _ H), Hact.
  - apply (inv_logged _ _ H), Hworking.
  - eapply List.Forall_impl; [|exact (inv_rows _ _ H)].
    intros r (_ & _ & _ & Hno) He. apply Hno. rewrite He. exact Hworking.
Qed.

Lemma inv_dropExtracting (st : State) (i : nat) (t : Task) (pages : list Page) :
  extracting st !! i = Some (t, pages) ->
  sched_inv cfg st ->
  sched_inv cfg (dropExtracting i st)
  /\ taskOk cfg t
  /\ taskDomain t ∈ processedDomains st
  /\ In (taskDomain t) (crawlLog st)
  /\ ~ In (taskDomain t) (activeDomains (dropExtracting i st))
  /\ rowsOf (taskDomain t) (allRows st) = [].
Proof.
  intros Hi H. pose proof (active_split_extracting st i t pages Hi) as Hperm.
  pose proof (working_split_extracting st i t pages Hi) as Hwork.
  assert (Hnd : List.NoDup (taskDomain t :: activeDomains (dropExtracting i st)))
    by (eapply Permutation_NoDup; [exact Hperm|apply (inv_active _ _ H)]).
  apply NoDup_cons_iff in Hnd as [Hout Hnd].
  assert (Hsub : forall d, In d (activeDomains (dropExtracting i st))
                           -> In d (activeDomains st)).
  { intros d Hd. eapply Permutation_in; [symmetry; exact Hperm|right; exact Hd]. }
  assert (Hsubw : forall d, In d (workingDomains (dropExtracting i st))
                            -> In d (workingDomains st)).
  { intros d Hd. eapply Permutation_in; [symmetry; exact Hwork|right; exact Hd]. }
  assert (Hact : In (taskDomain t) (activeDomains st))
    by (eapply Permutation_in; [symmetry; exact Hperm|left; reflexivity]).
  assert (Hworking : In (taskDomain t) (workingDomains st))
    by (eapply Permutation_in; [symmetry; exact Hwork|left; reflexivity]).
  split; [|split; [|split; [|split; [|split; [exact Hout|]]]]].
  - destruct H. constructor; try assumption.
    + cbn [dropExtracting extracting]. apply Forall_delete. assumption.
    + intros d Hd. apply inv_started0, Hsub, Hd.
    + intros d Hd. apply inv_logged0, Hsubw, Hd.
    + cbn [dropExtracting allRows]. eapply List.Forall_impl; [|exact inv_rows0].
      intros r. apply rowOk_weaken; [auto|]. intros d Hd. left. apply Hsubw, Hd.
  - pose proof (inv_extracting _ _ H) as Hall. rewrite List.Forall_forall in Hall.
    apply (Hall (t, pages)). apply list_elem_of_In. eapply list_elem_of_lookup_2. exact Hi.
  - apply (inv_started _ _ H), Hact.
  - apply (inv_logged _ _ H), Hworking.
  - pose proof (inv_rows _ _ H) as Hrows. unfold rowsOf.
    induction Hrows as [|r rows Hr _ IH]; [reflexivity|]. cbn [List.filter].
    destruct (String.eqb_spec (row_domain r) (taskDomain t)) as [He|_]; [|exact IH].
    exfalso. destruct Hr as (_ & _ & _ & Hno). apply Hno. rewrite He. exact Hworking.
Qed.

Lemma inv_dropWriting (st : State) (i : nat) (t : Task) (k : WriteKind) :
  writing st !! i = Some (t, k) ->
  sched_inv cfg st ->
  sched_inv cfg (dropWriting i st)
  /\ taskOk cfg t
  /\ taskDomain t ∈ processedDomains st
  /\ ~ In (taskDomain t) (activeDomains (dropWriting i st)).
Proof.
  intros Hi H. pose proof (active_split_writing st i t k Hi) as Hperm.
  assert (Hnd : List.NoDup (taskDomain t :: activeDomains (dropWriting i st)))
    by (eapply Permutation_NoDup; [exact Hperm|apply (inv_active _ _ H)]).
  apply NoDup_cons_iff in Hnd as [Hout Hnd].
  assert (Hsub : forall d, In d (activeDomains (dropWriting i st)) -> In d (activeDomains st)).
  { intros d Hd. eapply Permutation_in; [symmetry; exact Hperm|right; exact Hd]. }
  assert (Hact : In (taskDomain t) (activeDomains st))
    by (eapply Permutation_in; [symmetry; exact Hperm|left; reflexivity]).
  split; [|split; [|split; [|exact Hout]]].
  - destruct H. constructor; try assumption.
    + cbn [dropWriting writing]. apply Forall_delete. assumption.
    + intros d Hd. apply inv_started0, Hsub, Hd.
  - pose proof (inv_writing _ _ H) as Hall. rewrite List.Forall_forall in Hall.
    apply (Hall (t, k)). apply list_elem_of_In. eapply list_elem_of_lookup_2. exact Hi.
  - apply (inv_started _ _ H), Hact.
Qed.

Lemma inv_crawled (st : State) (t : Task) (r : CrawlResult) :
  taskOk cfg t ->
  taskDomain t ∈ processedDomains st ->
  In (taskDomain t) (crawlLog st) ->
  ~ In (taskDomain t) (activeDomains st) ->
  Forall (fun r => row_domain r <> taskDomain t) (allRows st) ->
  sched_inv cfg st -> sched_inv cfg (processOne_crawled cfg st t r).
Proof.
  intros Ht Hproc Hlogged Hout Hnorow H. unfold processOne_crawled.
  destruct r as [[|p pages] outbound|message];
    try (apply inv_suspendOnWrite; [exact Ht|exact Hproc|exact Hout|apply inv_logs, H]).
  destruct (snowball_frame_full st t outbound) as (Hp & Hl & Hc & He & Hwr & Hr).
  pose proof (snowball_waiting cfg st t outbound) as Hw.
  cbv zeta in *. set (st' := snowball cfg st t outbound) in *.
  assert (Hworking : workingDomains (suspendOnExtract t (p :: pages) st')
                     = (workingDomains st ++ [taskDomain t])%list).
  { unfold workingDomains. cbn [suspendOnExtract crawling extracting].
    rewrite Hc, He, map_app, app_assoc. reflexivity. }
  assert (Hactive : Permutation (activeDomains (suspendOnExtract t (p :: pages) st'))
                                (taskDomain t :: activeDomains st)).
  { unfold activeDomains at 1. rewrite Hworking. cbn [suspendOnExtract writing]. rewrite Hwr.
    apply perm_tail. symmetry. apply Permutation_cons_append. }
  destruct H. constructor.
  - unfold crawl_inv. cbn [suspendOnExtract crawlLog processedDomains]. rewrite Hl, Hp. assumption.
  - cbn [suspendOnExtract waiting]. rewrite Hw. apply Forall_app.
    split; [assumption|apply snowballed_ok, Ht].
  - cbn [suspendOnExtract crawling]. rewrite Hc. assumption.
  - cbn [suspendOnExtract extracting]. rewrite He. apply Forall_app.
    split; [assumption|]. constructor; [exact Ht|constructor].
  - cbn [suspendOnExtract writing]. rewrite Hwr. assumption.
  - eapply Permutation_NoDup; [symmetry; exact Hactive|].
    constructor; [exact Hout|assumption].
  - intros d Hd. apply (Permutation_in _ Hactive) in Hd.
    cbn [suspendOnExtract processedDomains]. rewrite Hp.
    destruct Hd as [<-|Hd]; [exact Hproc|apply inv_started0, Hd].
  - rewrite Hworking. cbn [suspendOnExtract crawlLog]. rewrite Hl.
    intros d [Hd|[<-|[]]]%in_app_or; [apply inv_logged0, Hd|exact Hlogged].
  - cbn [suspendOnExtract crawlLog]. rewrite Hl. assumption.
  - cbn [suspendOnExtract allRows]. rewrite Hr.
    rewrite List.Forall_forall in Hnorow, inv_rows0. apply List.Forall_forall.
    intros r Hrow. destruct (inv_rows0 r Hrow) as (Hs & Hcl & Hin & Hno).
    split; [exact Hs|]. split; [exact Hcl|]. split.
    + cbn [suspendOnExtract crawlLog]. rewrite Hl. exact Hin.
    + rewrite Hworking. intros [Hd|[Hd|[]]]%in_app_or; [exact (Hno Hd)|].
      exact (Hnorow r Hrow (eq_sym Hd)).
  - cbn [suspendOnExtract allRows]. rewrite Hr. assumption.
Qed.

Lemma extracted_clean (pages : list Email.PageScan) (enableAi : bool) (n : Z)
      (c : Email.Candidate) :
  In c (Email.extractEmailsFromPages pages enableAi n) -> Email.clean (Email.email c).
Proof.
  rewrite collect_pair. intros Hin%pickBestEmails_In.
  pose proof (collect_clean enableAi pages [] [] (List.Forall_nil _) (List.Forall_nil _))
    as [Hr Ha].
  exact (merged_clean _ _ c Hr Ha Hin).
Qed.

Lemma rowsOf_app (d : string) (a b : list LeadRow) :
  rowsOf d (a ++ b) = (rowsOf d a ++ rowsOf d b)%list.
Proof. apply List.filter_app. Qed.

Lemma rowsOf_other (d : string) (t : Task) (score : Z) (emails : list Email.Candidate) :
  d <> taskDomain t -> rowsOf d (List.map (leadRow t score) emails) = [].
Proof.
  intros Hne. unfold rowsOf. induction emails as [|e emails IH]; [reflexivity|].
  cbn [List.map List.filter leadRow row_domain].
  destruct (String.eqb_spec (domainOf (rec t)) d) as [He|_]; [|exact IH].
  exfalso. apply Hne. symmetry. exact He.
Qed.

(** The rows of a task whose extraction has returned. *)
Lemma inv_pushRows (st : State) (t : Task) (score : Z) (emails : list Email.Candidate) :
  minScore cfg <= score ->
  Forall (fun e => Email.clean (Email.email e)) emails ->
  (List.length emails <= 5)%nat ->
  In (taskDomain t) (crawlLog st) ->
  ~ In (taskDomain t) (workingDomains st) ->
  rowsOf (taskDomain t) (allRows st) = [] ->
  sched_inv cfg st -> sched_inv cfg (pushRows (List.map (leadRow t score) emails) st).
Proof.
  intros Hkeep Hclean Hlen Hlogged Hout Hnone H.
  destruct H. constructor; try assumption.
  - cbn [pushRows allRows]. apply Forall_app. split; [assumption|].
    rewrite List.Forall_forall in Hclean.
    apply List.Forall_forall. intros r (e & <- & He)%in_map_iff.
    split; [exact Hkeep|]. split; [exact (Hclean e He)|].
    split; [exact Hlogged|exact Hout].
  - intros d. cbn [pushRows allRows]. rewrite rowsOf_app, length_app.
    destruct (String.eqb_spec d (taskDomain t)) as [->|Hne].
    + rewrite Hnone. cbn [List.length Nat.add].
      etransitivity; [apply filter_length_le|]. rewrite length_map. exact Hlen.
    + rewrite (rowsOf_other d t score emails Hne), Nat.add_0_r. apply inv_cap0.
Qed.

Variable lower : string -> string.

Lemma inv_extracted (st : State) (t : Task) (pages : list Page) :
  taskOk cfg t ->
  taskDomain t ∈ processedDomains st ->
  In (taskDomain t) (crawlLog st) ->
  ~ In (taskDomain t) (activeDomains st) ->
  rowsOf (taskDomain t) (allRows st) = [] ->
  sched_inv cfg st -> sched_inv cfg (processOne_extracted lower cfg st t pages).
Proof.
  intros Ht Hproc Hlogged Hout Hnone H. unfold processOne_extracted. cbv zeta.
  set (score := Relevance.relevanceScore _).
  set (emails := Email.extractEmailsFromPages _ _ _).
  destruct (Z.ltb_spec score (minScore cfg)) as [_|Hkeep].
  { apply inv_suspendOnWrite; [exact Ht|exact Hproc|exact Hout|apply inv_logs, H]. }
  assert (Hrows : sched_inv cfg (pushRows (List.map (leadRow t score) emails) st)).
  { apply inv_pushRows; try assumption.
    - apply List.Forall_forall. intros e He. exact (extracted_clean _ _ _ e He).
    - pose proof (pickBestEmails_length
                    (Email.mergeEmailResults
                       (snd (Email.collect (enableAiExtract cfg) (List.map scan pages) [] []))
                       (fst (Email.collect (enableAiExtract cfg) (List.map scan pages) [] [])))
                    5 ltac:(lia)) as Hlen.
      subst emails. rewrite collect_pair. lia.
    - intros Hin. apply Hout. apply in_or_app. left. exact Hin. }
  destruct (_ && _); [|exact Hrows].
  apply inv_suspendOnWrite; [exact Ht|exact Hproc|exact Hout|exact Hrows].
Qed.

Lemma inv_written (st : State) (t : Task) (k : WriteKind) (failure : option string) :
  taskOk cfg t ->
  taskDomain t ∈ processedDomains st ->
  ~ In (taskDomain t) (activeDomains st) ->
  sched_inv cfg st -> sched_inv cfg (processOne_written st t k failure).
Proof.
  intros Ht Hproc Hout H. destruct k, failure as [message|]; cbn [processOne_written];
    try exact H.
  apply inv_suspendOnWrite; [exact Ht|exact Hproc|exact Hout|apply inv_logs, H].
Qed.

Lemma step_sched_inv (st : State) (ev : Event) :
  sched_inv cfg st -> sched_inv cfg (step lower cfg st ev).
Proof.
  intros H. destruct ev as [r| |i r|i|i failure]; cbn [step].
  - apply inv_addDomain, H.
  - destruct (waiting st) as [|t w] eqn:Hw; [exact H|].
    destruct (_ <? _)%nat; [|exact H].
    apply inv_start; [|apply inv_dropWaiting, H].
    pose proof (inv_waiting _ _ H) as Hall. rewrite Hw in Hall.
    apply Forall_cons_iff in Hall. apply Hall.
  - destruct (crawling st !! i) as [t|] eqn:Hi; [|exact H].
    destruct (inv_dropCrawling st i t Hi H) as (H' & Ht & Hproc & Hlog & Hout & Hnorow).
    apply inv_crawled; assumption.
  - destruct (extracting st !! i) as [[t pages]|] eqn:Hi; [|exact H].
    destruct (inv_dropExtracting st i t pages Hi H) as (H' & Ht & Hproc & Hlog & Hout & Hnone).
    apply inv_extracted; assumption.
  - destruct (writing st !! i) as [[t k]|] eqn:Hi; [|exact H].
    destruct (inv_dropWriting st i t k Hi H) as (H' & Ht & Hproc & Hout).
    apply inv_written; assumption.
Qed.

Lemma run_sched_inv (evs : list Event) (st : State) :
  sched_inv cfg st -> sched_inv cfg (run lower cfg evs st).
Proof.
  revert st. induction evs as [|ev evs IH]; intros st H; [exact H|].
  apply IH, step_sched_inv, H.
Qed.

End MoreScheduler.

(** X11.  In every state the scheduler can reach, no domain that the
    region filter excludes is in the log of crawl calls, no lead row is for
    such a domain, and no task below the surface (a snowball task) is for
    such a domain. *)
Theorem region_filter_holds (toLowerCase : string -> string) (cfg : Scheduler.Config)
        (evs : list Scheduler.Event) :
  let st := Scheduler.run toLowerCase cfg evs Scheduler.init in
  (forall d, In d (Scheduler.crawlLog st) -> Region.isTurkeyBasedDomain d = false)
  /\ (forall r, In r (Scheduler.allRows st) ->
        Region.isTurkeyBasedDomain (Scheduler.row_domain r) = false)
  /\ (forall t, In t (Scheduler.waiting st ++ Scheduler.crawling st
                      ++ List.map fst (Scheduler.extracting st)
                      ++ List.map fst (Scheduler.writing st))%list ->
        0 < Scheduler.depth t ->
        Region.isTurkeyBasedDomain (Scheduler.domainOf (Scheduler.rec t)) = false).
Proof.
  intros st. pose proof (run_sched_inv cfg toLowerCase evs _ (sched_inv_init cfg)) as H.
  fold st in H.
  destruct H as [_ Hw Hc He Hwr _ _ _ Hregion Hrows _].
  rewrite List.Forall_forall in Hregion, Hrows, Hw, Hc, He, Hwr.
  split; [exact Hregion|]. split.
  - intros r Hr. destruct (Hrows r Hr) as (_ & _ & Hin & _). exact (Hregion _ Hin).
  - intros t [Ht|[Ht|[Ht|Ht]%in_app_or]%in_app_or]%in_app_or.
    + exact (proj2 (Hw t Ht)).
    + exact (proj2 (Hc t Ht)).
    + apply in_map_iff in Ht as ([t' pages] & <- & Ht). exact (proj2 (He _ Ht)).
    + apply in_map_iff in Ht as ([t' k] & <- & Ht). exact (proj2 (Hwr _ Ht)).
Qed.

Lemma region_filter_holds_witness :
  let st := Scheduler.run Js.toLowerCase Example.snowballConfig
              [Scheduler.AddDomain (Scheduler.Str "istanbul-tours.com"); Scheduler.Start;
               Scheduler.AddDomain (Scheduler.Str "acme-travel.com"); Scheduler.Start]
              Scheduler.init in
  Scheduler.crawlLog st = ["acme-travel.com"]
  /\ Region.isTurkeyBasedDomain "acme-travel.com" = false.
Proof.
  intros st. split; [vm_compute; reflexivity|].
  apply (proj1 (region_filter_holds Js.toLowerCase Example.snowballConfig
                  [Scheduler.AddDomain (Scheduler.Str "istanbul-tours.com"); Scheduler.Start;
                   Scheduler.AddDomain (Scheduler.Str "acme-travel.com"); Scheduler.Start])).
  vm_compute. left. reflexivity.
Defined.

(** X12.  In every state the scheduler can reach, every task, whether it
    waits in the limiter, crawls, extracts or writes, is at a depth between
    0 and the configured maximum depth (0 when that maximum is negative). *)
Theorem snowball_depth_capped (toLowerCase : string -> string) (cfg : Scheduler.Config)
        (evs : list Scheduler.Event) (t : Scheduler.Task) :
  let st := Scheduler.run toLowerCase cfg evs Scheduler.init in
  In t (Scheduler.waiting st ++ Scheduler.crawling st
        ++ List.map fst (Scheduler.extracting st)
        ++ List.map fst (Scheduler.writing st))%list ->
  0 <= Scheduler.depth t <= Z.max 0 (Scheduler.snowballMaxDepth cfg).
Proof.
  intros st. pose proof (run_sched_inv cfg toLowerCase evs _ (sched_inv_init cfg)) as H.
  fold st in H.
  destruct H as [_ Hw Hc He Hwr _ _ _ _ _ _].
  rewrite List.Forall_forall in Hw, Hc, He, Hwr.
  intros [Ht|[Ht|[Ht|Ht]%in_app_or]%in_app_or]%in_app_or.
  - exact (proj1 (Hw t Ht)).
  - exact (proj1 (Hc t Ht)).
  - apply in_map_iff in Ht as ([t' pages] & <- & Ht). exact (proj1 (He _ Ht)).
  - apply in_map_iff in Ht as ([t' k] & <- & Ht). exact (proj1 (Hwr _ Ht)).
Qed.

Lemma snowball_depth_capped_witness :
  let st := Scheduler.run Js.toLowerCase Example.snowballConfig Example.oneDomain
              Scheduler.init in
  Scheduler.waiting st
  = [Scheduler.snowTask "acme-travel.com" 0 "partner-voyages.com"]
  /\ 0 <= 1 <= 1.
Proof.
  intros st. split; [vm_compute; reflexivity|].
  apply (snowball_depth_capped Js.toLowerCase Example.snowballConfig Example.oneDomain
           (Scheduler.snowTask "acme-travel.com" 0 "partner-voyages.com")).
  vm_compute. left. reflexivity.
Defined.

(** X13.  In every state the scheduler can reach, every lead row has a
    relevance score of at least [minScore], an address that is normalized
    and passes the two filters, and a domain for which the crawler was
    called and for which no task is crawling or extracting any more.  (The
    task of the domain may still be running: it pushes its rows before it
    writes them to the CSV file.) *)
Theorem lead_rows_sound (toLowerCase : string -> string) (cfg : Scheduler.Config)
        (evs : list Scheduler.Event) (r : Scheduler.LeadRow) :
  let st := Scheduler.run toLowerCase cfg evs Scheduler.init in
  In r (Scheduler.allRows st) ->
  Scheduler.minScore cfg <= Scheduler.relevance_score r
  /\ Email.normalizeEmail (Scheduler.row_email r) = Scheduler.row_email r
  /\ Email.isValidEmail (Scheduler.row_email r) = true
  /\ Email.isJunkPrefix (Scheduler.row_email r) = false
  /\ In (Scheduler.row_domain r) (Scheduler.crawlLog st)
  /\ ~ In (Scheduler.row_domain r) (SchedulerSpec.workingDomains st).
Proof.
  intros st Hr. pose proof (run_sched_inv cfg toLowerCase evs _ (sched_inv_init cfg)) as H.
  fold st in H.
  pose proof (SchedulerSpec.inv_rows _ _ H) as Hrows. rewrite List.Forall_forall in Hrows.
  destruct (Hrows r Hr) as (Hs & (Hn & Hv & Hj) & Hin & Hout). repeat split; assumption.
Qed.

(** After the extraction of its one page the task of the domain is
    suspended at the CSV write, and its rows are in place. *)
Lemma lead_rows_sound_witness :
  let st := Scheduler.run Js.toLowerCase Example.snowballConfig Example.oneDomain
              Scheduler.init in
  List.map Scheduler.row_email (Scheduler.allRows st)
  = ["info@acme-travel.com"; "sales@acme-travel.com"]
  /\ SchedulerSpec.activeDomains st = ["acme-travel.com"]
  /\ SchedulerSpec.workingDomains st = []
  /\ 2 <= 4.
Proof.
  intros st. split; [vm_compute; reflexivity|].
  split; [vm_compute; reflexivity|]. split; [vm_compute; reflexivity|].
  refine (proj1 (lead_rows_sound Js.toLowerCase Example.snowballConfig Example.oneDomain
                   {| Scheduler.row_domain := "acme-travel.com";
                      Scheduler.row_country := ""; Scheduler.row_city := "";
                      Scheduler.row_email := "info@acme-travel.com";
                      Scheduler.row_email_type := Email.generic;
                      Scheduler.row_confidence := 0.9;
                      Scheduler.relevance_score := 4;
                      Scheduler.row_source_url := "https://acme-travel.com/contact";
                      Scheduler.discovered_by_query := "" |} _)).
  vm_compute. left. reflexivity.
Defined.

(** X14.  In every state the scheduler can reach, no domain is held by two
    running tasks, and no domain has more than five lead rows. *)
Theorem one_task_five_rows_per_domain (toLowerCase : string -> string)
        (cfg : Scheduler.Config) (evs : list Scheduler.Event) :
  let st := Scheduler.run toLowerCase cfg evs Scheduler.init in
  List.NoDup (SchedulerSpec.activeDomains st)
  /\ (forall d, (List.length (SchedulerSpec.rowsOf d (Scheduler.allRows st)) <= 5)%nat).
Proof.
  intros st. pose proof (run_sched_inv cfg toLowerCase evs _ (sched_inv_init cfg)) as H.
  fold st in H.
  split; [apply (SchedulerSpec.inv_active _ _ H)|apply (SchedulerSpec.inv_cap _ _ H)].
Qed.

(** ** CSV sink *)

Section CsvFacts.
Import Js Csv.

Lemma append_cons (c : ascii) (a b : string) : String c a ++ b = String c (a ++ b).
Proof. reflexivity. Qed.

Lemma append_nil_l (b : string) : EmptyString ++ b = b.
Proof. reflexivity. Qed.

Lemma startsWith_empty (s : string) : startsWith s EmptyString = true.
Proof. destruct s; reflexivity. Qed.

Lemma includes_char_false (s : string) (c : ascii) :
  includes s (String c EmptyString) = false ->
  forall_chars (fun a => negb (Ascii.eqb a c)) s = true.
Proof.
  induction s as [|a s IH]; [reflexivity|].
  cbn [includes startsWith forall_chars]. rewrite startsWith_empty, andb_true_r.
  intros [Ha Hs]%orb_false_elim. rewrite Ha. cbn [negb andb]. auto.
Qed.

Lemma needsQuotes_false (s : string) : needsQuotes s = false -> plain s.
Proof.
  unfold needsQuotes, plain.
  intros [[[H1 H2]%orb_false_elim H3]%orb_false_elim H4]%orb_false_elim.
  apply includes_char_false in H1, H2, H3, H4.
  induction s as [|a s IH]; [reflexivity|]. cbn [forall_chars] in *.
  apply andb_prop in H1 as [A1 H1], H2 as [A2 H2], H3 as [A3 H3], H4 as [A4 H4].
  apply negb_true_iff in A1, A2, A3, A4. rewrite A1, A2, A3, A4. cbn [orb negb andb]. auto.
Qed.

Lemma readBare_plain (s : string) (c : ascii) (rest : string) :
  plain s -> Ascii.eqb c comma || Ascii.eqb c LF = true ->
  readBare (s ++ String c rest) = (s, String c rest).
Proof.
  intros Hs Hc. induction s as [|a s IH].
  - rewrite append_nil_l. cbn [readBare]. rewrite Hc. reflexivity.
  - unfold plain in Hs. cbn [forall_chars] in Hs. apply andb_prop in Hs as [Ha Hs].
    rewrite append_cons. cbn [readBare]. rewrite (IH Hs).
    apply negb_true_iff in Ha.
    destruct (Ascii.eqb a comma); [discriminate|].
    destruct (Ascii.eqb a quote); [discriminate|].
    destruct (Ascii.eqb a LF); [discriminate|]. reflexivity.
Qed.

Lemma readQuoted_doubleQuotes (s : string) (c : ascii) (rest : string) :
  Ascii.eqb c quote = false ->
  readQuoted (doubleQuotes s ++ String quote (String c rest)) = Some (s, String c rest).
Proof.
  intros Hc. induction s as [|a s IH].
  - rewrite append_nil_l. cbn [doubleQuotes readQuoted]. rewrite Ascii.eqb_refl, Hc. reflexivity.
  - cbn [doubleQuotes]. destruct (Ascii.eqb a quote) eqn:Ha.
    + apply Ascii.eqb_eq in Ha. subst a. rewrite !append_cons. cbn [readQuoted].
      rewrite !Ascii.eqb_refl, IH. reflexivity.
    + rewrite append_cons. cbn [readQuoted]. rewrite Ha, IH. reflexivity.
Qed.

Lemma append_assoc' (a b c : string) : (a ++ b) ++ c = a ++ (b ++ c).
Proof.
  induction a as [|x a IH]; [reflexivity|]. rewrite !append_cons, IH. reflexivity.
Qed.

(** Reading back one written field that is followed by a comma or a line
    feed. *)
Lemma readField_csvEscape (s : string) (c : ascii) (rest : string) :
  Ascii.eqb c comma || Ascii.eqb c LF = true ->
  readField (csvEscape s ++ String c rest) = Some (s, String c rest).
Proof.
  intros Hc.
  assert (Hq : Ascii.eqb c quote = false).
  { apply orb_prop in Hc as [->%Ascii.eqb_eq | ->%Ascii.eqb_eq]; reflexivity. }
  unfold csvEscape. destruct (needsQuotes s) eqn:Hneeds.
  - rewrite append_cons. cbn [readField]. rewrite Ascii.eqb_refl.
    rewrite append_assoc'. rewrite append_cons, append_nil_l.
    apply readQuoted_doubleQuotes, Hq.
  - apply needsQuotes_false in Hneeds.
    destruct s as [|a s].
    + rewrite append_nil_l. cbn [readField]. rewrite Hq.
      rewrite <- (append_nil_l (String c rest)) at 1.
      rewrite readBare_plain by (exact Hc || reflexivity). reflexivity.
    + pose proof Hneeds as Hplain. unfold plain in Hneeds. cbn [forall_chars] in Hneeds.
      apply andb_prop in Hneeds as [Ha _]. apply negb_true_iff in Ha.
      rewrite append_cons. cbn [readField].
      replace (Ascii.eqb a quote) with false
        by (destruct (Ascii.eqb a comma); [discriminate|];
            destruct (Ascii.eqb a quote); [discriminate|reflexivity]).
      rewrite <- append_cons, readBare_plain by assumption. reflexivity.
Qed.

Lemma join_cons (sep x : string) (y : string) (l : list string) :
  join sep (x :: y :: l) = x ++ sep ++ join sep (y :: l).
Proof. reflexivity. Qed.

Lemma readRecord_rowToCsvLine (row : list string) (width : nat) (rest : string) :
  row <> [] -> (List.length row <= S width)%nat ->
  readRecord width (rowToCsvLine row ++ rest) = Some (row, rest).
Proof.
  unfold rowToCsvLine. revert width.
  induction row as [|x row IH]; intros width Hne Hlen; [contradiction|].
  destruct row as [|y row].
  - cbn [List.map join]. rewrite append_assoc', append_cons, append_nil_l.
    destruct width; cbn [readRecord];
      rewrite readField_csvEscape by reflexivity; reflexivity.
  - cbn [List.map]. rewrite join_cons. rewrite !append_assoc'.
    rewrite append_cons, append_nil_l.
    cbn [List.length] in Hlen. destruct width as [|width]; [lia|].
    cbn [readRecord]. rewrite readField_csvEscape by reflexivity.
    change (Ascii.eqb comma LF) with false. change (Ascii.eqb comma comma) with true.
    cbv iota. rewrite <- append_assoc'.
    change (join (String comma EmptyString) (csvEscape y :: List.map csvEscape row))
      with (join (String comma EmptyString) (List.map csvEscape (y :: row))).
    rewrite IH; [reflexivity|discriminate|cbn [List.length]; lia].
Qed.

Lemma appended_cons (row : list string) (rows : list (list string)) :
  appended (row :: rows) = rowToCsvLine row ++ appended rows.
Proof.
  unfold appended. cbn [List.map]. destruct rows as [|r rows]; cbn [List.map join].
  - induction (rowToCsvLine row) as [|c s IH]; [reflexivity|].
    rewrite append_cons, <- IH. reflexivity.
  - reflexivity.
Qed.

Lemma readRecords_appended (width : nat) (rows : list (list string)) (rest : string) :
  Forall (fun row => row <> [] /\ (List.length row <= S width)%nat) rows ->
  readRecords width (List.length rows) (appended rows ++ rest) = Some (rows, rest).
Proof.
  induction 1 as [|row rows [Hne Hlen] _ IH]; [reflexivity|].
  rewrite appended_cons, append_assoc'. cbn [List.length readRecords].
  rewrite readRecord_rowToCsvLine by assumption. rewrite IH. reflexivity.
Qed.

End CsvFacts.

(** X15.  A value without comma, quote, line feed or carriage return is
    written as it is, and any other value between two quotes with its
    quotes doubled.  Read back up to the comma or the line feed that
    follows it, a written field gives the value it was written from. *)
Theorem csvEscape_read_back (s : string) (c : ascii) (rest : string) :
  (Csv.needsQuotes s = false -> Csv.plain s /\ Csv.csvEscape s = s)
  /\ (Csv.needsQuotes s = true ->
      Csv.csvEscape s
      = String Csv.quote (Csv.doubleQuotes s ++ String Csv.quote EmptyString))
  /\ (c = Csv.comma \/ c = Csv.LF ->
      Csv.readField (Csv.csvEscape s ++ String c rest) = Some (s, String c rest)).
Proof.
  split; [|split].
  - intros H. split; [apply needsQuotes_false, H|]. unfold Csv.csvEscape. rewrite H. reflexivity.
  - intros H. unfold Csv.csvEscape. rewrite H. reflexivity.
  - intros Hc. apply readField_csvEscape. destruct Hc as [->| ->]; reflexivity.
Qed.

Lemma csvEscape_read_back_witness :
  Csv.readField (Csv.csvEscape "Acme, Travel & Co" ++ ",acme-travel.com")
  = Some ("Acme, Travel & Co", ",acme-travel.com")
  /\ Csv.csvEscape "acme-travel.com" = "acme-travel.com".
Proof.
  split.
  - apply (proj2 (proj2 (csvEscape_read_back "Acme, Travel & Co" Csv.comma "acme-travel.com"))).
    left. reflexivity.
  - apply (proj1 (csvEscape_read_back "acme-travel.com" Csv.comma EmptyString)).
    vm_compute. reflexivity.
Defined.

(** X16.  What [appendLeadsCsv] appends for rows of ten values each
    reads back, record by record, as those rows, whatever the values hold
    (commas, quotes and line breaks included) and whatever follows in the
    file; for no rows it appends nothing. *)
Theorem appended_rows_read_back (rows : list (list string)) (rest : string) :
  Forall (fun row => List.length row = List.length Csv.COLUMNS) rows ->
  Csv.readRecords 9 (List.length rows) (Csv.appended rows ++ rest) = Some (rows, rest)
  /\ Csv.appended [] = EmptyString.
Proof.
  intros Hrows. split; [|reflexivity]. apply readRecords_appended.
  eapply List.Forall_impl; [|exact Hrows]. intros row Hlen.
  change (List.length Csv.COLUMNS) with 10%nat in Hlen. split; [|rewrite Hlen; lia].
  intros ->. discriminate.
Qed.

Lemma appended_rows_read_back_witness :
  let rows :=
    [ ["Acme, Travel"; "acme-travel.com"; ""; ""; "info@acme-travel.com"; "generic";
       "0.9"; "4"; "https://acme-travel.com/contact"; "tours 'turkey'"];
      ["Sunny"; "sunny-tours.co.uk"; "UK"; "London"; "jane@sunny-tours.co.uk"; "personal";
       "0.8"; "3"; "https://sunny-tours.co.uk/"; "snowball:acme-travel.com"] ] in
  Csv.readRecords 9 2 (Csv.appended rows ++ EmptyString) = Some (rows, EmptyString).
Proof.
  intros rows. apply (appended_rows_read_back rows EmptyString).
  repeat constructor.
Defined.
